(** * S/Kademlia peer protocol and breadth-first bootstrap: a shallow embedding

    The development follows two source files of the repository:
    - the [skademlia] protocol file ([Protocol], [PeerByID], [Ping], [Lookup],
      [Handshake], [Update], [FindNode], [evict]);
    - [network/rpc.go] ([BootstrapPeers]).

    Go values are embedded as follows.  A [[32]byte] array is a vector of 32
    bytes, a slice is a list, a Go [map] is a [gmap] (a set-like map a [gset]),
    an [error] is an inductive type whose absence ([nil]) is [None].  Effects
    on the transport (sends, dials, disconnects) and on standard output are
    recorded in a trace carried by the protocol state; what the network, the
    timers and the scheduler decide is an explicit input of each operation. *)

From Stdlib Require Import ZArith NArith List Sorting.Sorted Permutation.
From Stdlib.Strings Require Import Byte.
From stdpp Require Import gmap strings list vector.

Local Open Scope Z_scope.

(** ** Bytes and fixed-size byte arrays *)

#[global] Instance byte_eq_dec : EqDecision byte := Byte.byte_eq_dec.

#[global] Program Instance byte_countable : Countable byte :=
  inj_countable Byte.to_N Byte.of_N _.
Next Obligation. intros b. apply Byte.of_to_N. Qed.

(** [copy(dst, src)] into a fresh zeroed buffer of [n] bytes: the first [n]
    bytes of [src], zero-padded when [src] is shorter. *)
Fixpoint take_pad (n : nat) (l : list byte) : vec byte n :=
  match n with
  | O => [#]
  | S n' =>
      match l with
      | [] => x00 ::: take_pad n' []
      | b :: l' => b ::: take_pad n' l'
      end
  end.

(** [blake2b.Size256] *)
Definition Size256 : nat := 32.

(** The Go type [[blake2b.Size256]byte] of checksums and nonces. *)
Record Checksum := mkChecksum { cbytes : vec byte Size256 }.

#[global] Instance Checksum_eq_dec : EqDecision Checksum.
Proof. solve_decision. Defined.

#[global] Program Instance Checksum_countable : Countable Checksum :=
  inj_countable' (λ c, vec_to_list (cbytes c))
                 (λ l, mkChecksum (take_pad Size256 l)) _.
Next Obligation.
  assert (∀ n (v : vec byte n), take_pad n (vec_to_list v) = v) as Hpad.
  { intros n v. induction v as [|b n v IH]; simpl; [done|]. by rewrite IH. }
  intros [v]. exact (f_equal mkChecksum (Hpad Size256 v)).
Qed.

(** [c[:]], the slice over the whole array. *)
Definition slice (c : Checksum) : list byte := vec_to_list (cbytes c).

(** ** [bytes.Compare] and the big-endian reading of a byte string *)

(** Go's [bytes.Compare]: lexicographic, [-1], [0] or [1]. *)
Fixpoint bytes_Compare (a b : list byte) : Z :=
  match a, b with
  | [], [] => 0
  | [], _ :: _ => -1
  | _ :: _, [] => 1
  | x :: a', y :: b' =>
      if (Byte.to_N x <? Byte.to_N y)%N then -1
      else if (Byte.to_N y <? Byte.to_N x)%N then 1
      else bytes_Compare a' b'
  end.

(** A byte string read as a big-endian unsigned integer. *)
Fixpoint be_uint (l : list byte) : N :=
  match l with
  | [] => 0
  | x :: l' => Byte.to_N x * 256 ^ N.of_nat (length l') + be_uint l'
  end%N.

(** ** [sort.Slice]

    [sort.Slice] rearranges a slice so that it is ordered by [less]; Go leaves
    the order of elements that [less] does not separate unspecified.  The
    embedding is an insertion sort; the results about it use only that the
    output is a permutation of the input ordered by [less]. *)
Section sort.
Context {A : Type} (less : A → A → bool).

Fixpoint insert_by (x : A) (l : list A) : list A :=
  match l with
  | [] => [x]
  | h :: t => if less x h then x :: h :: t else h :: insert_by x t
  end.

Definition sort_Slice (l : list A) : list A := foldr insert_by [] l.
End sort.

(** A list ascends in a key. *)
Definition ascending {A : Type} (key : A → N) : list A → Prop :=
  StronglySorted (λ x y, (key x <= key y)%N).

(** ** Errors

    Go [error] values.  [nil] is [None] of [option error].  [ErrTimeout] and
    [ErrDisconnect] are the sentinels of the [noise] package, [ErrBucketFull]
    the one of the routing table; [NetError] stands for a value implementing
    [net.Error] with its [Timeout()] answer; [Wrap] is [errors.Wrap] of
    [github.com/pkg/errors] applied to a non-nil error. *)
Inductive error : Type :=
  | ErrTimeout
  | ErrDisconnect
  | ErrBucketFull
  | NetError (timeout : bool) (msg : string)
  | errors_New (msg : string)
  | Wrap (cause : error) (msg : string).

#[global] Instance error_eq_dec : EqDecision error.
Proof. solve_decision. Defined.

(** [errors.Cause]: the innermost wrapped error. *)
Fixpoint Cause (e : error) : error :=
  match e with
  | Wrap c _ => Cause c
  | _ => e
  end.

(** [err, ok := err.(net.Error); ok && err.Timeout()]: the type assertion
    holds of the network error itself, not of a wrapper around it. *)
Definition is_net_timeout (e : error) : bool :=
  match e with
  | NetError t _ => t
  | _ => false
  end.

(** How a call ends: it returns a value, panics, or has not returned within
    the steps it was given. *)
Inductive outcome (A : Type) : Type :=
  | Ret (a : A)
  | Panic
  | Diverge.
Arguments Ret {A} a.
Arguments Panic {A}.
Arguments Diverge {A}.

Module SKademlia.

(** ** Identifiers *)

(** Modelled from the spec: the [ID] record (its declaration is not among the
    sources): public key, nonce, checksum and advertised address. *)
Record ID := mkID {
  address : string;
  publicKey : list byte;
  nonce : Checksum;
  checksum : Checksum;
}.

#[global] Instance ID_eq_dec : EqDecision ID.
Proof. solve_decision. Defined.

#[global] Instance ID_inhabited : Inhabited ID :=
  populate (mkID "" [] (mkChecksum (take_pad Size256 [])) (mkChecksum (take_pad Size256 []))).

Definition byte_xor (a b : byte) : byte :=
  default x00 (Byte.of_N (N.lxor (Byte.to_N a) (Byte.to_N b))).

(** Modelled from the spec: [xor(a, b)], the bytewise exclusive or of two
    byte strings (the XOR of the glossary's "XOR distance"). *)
Definition xor (a b : list byte) : list byte := zip_with byte_xor a b.

(** The XOR distance of two checksums, as a big-endian unsigned integer. *)
Definition XORdistance (a b : Checksum) : N := be_uint (xor (slice a) (slice b)).

(** The [less] closure that [FindNode] hands to [sort.Slice]. *)
Definition closer (target : ID) (x y : ID) : bool :=
  bool_decide (bytes_Compare (xor (slice (checksum x)) (slice (checksum target)))
                             (xor (slice (checksum y)) (slice (checksum target))) = -1).

(** ** Routing table

    The table's declaration and methods are not among the sources; they are
    modelled from the spec's section 4.2. *)

Definition leading_zeros (b : byte) : nat := 8 - N.to_nat (N.size (Byte.to_N b)).

(** Number of leading zero bits of a byte string. *)
Fixpoint prefixLen (l : list byte) : nat :=
  match l with
  | [] => 0
  | b :: l' => if decide (b = x00) then 8 + prefixLen l' else leading_zeros b
  end%nat.

(** Modelled from the spec: [getBucketID(a, b)] is the index, counted from the
    most significant bit, of the first bit at which [a] and [b] differ, that
    is the length of their common prefix.  The spec leaves equal checksums
    open; index 0 is used here. *)
Definition getBucketID (a b : Checksum) : nat :=
  let l := prefixLen (xor (slice b) (slice a)) in
  if decide (l = 8 * Size256)%nat then 0%nat else l.

(** Modelled from the spec: 256 k-buckets, each ordered most recently seen
    first, the node's own ID and the bucket size [K]. *)
Record Table := mkTable {
  self : ID;
  buckets : list (list ID);
  bucketSize : nat;
}.

Definition NewTable (self : ID) : Table :=
  mkTable self (replicate (8 * Size256) []) 16.

Definition bucket (t : Table) (i : nat) : list ID := buckets t !!! i.

Definition set_bucket (t : Table) (i : nat) (l : list ID) : Table :=
  mkTable (self t) (<[i := l]> (buckets t)) (bucketSize t).

(** First entry of a bucket carrying a checksum. *)
Definition find_entry (c : Checksum) (l : list ID) : option ID :=
  List.find (λ x, bool_decide (checksum x = c)) l.

(** A bucket without its first entry carrying a checksum. *)
Fixpoint remove_entry (c : Checksum) (l : list ID) : list ID :=
  match l with
  | [] => []
  | x :: l' => if decide (checksum x = c) then l' else x :: remove_entry c l'
  end.

(** Modelled from the spec: [Table.Update(id)].  An ID with the node's own
    checksum is never inserted; a known checksum moves to the front; a new
    one is inserted at the front while the bucket has fewer than [K] entries;
    otherwise [ErrBucketFull] is returned and the bucket is left as it is. *)
Definition Table_Update (t : Table) (id : ID) : Table * option error :=
  if decide (checksum id = checksum (self t)) then (t, None)
  else
    let i := getBucketID (checksum (self t)) (checksum id) in
    match find_entry (checksum id) (bucket t i) with
    | Some e => (set_bucket t i (e :: remove_entry (checksum id) (bucket t i)), None)
    | None =>
        if (length (bucket t i) <? bucketSize t)%nat
        then (set_bucket t i (id :: bucket t i), None)
        else (t, Some ErrBucketFull)
    end.

(** Modelled from the spec: [Table.Delete(bucket, id)] removes the entry with
    the checksum of [id] from the bucket, if present, and reports whether it
    did.  The bucket is designated by its index. *)
Definition Table_Delete (t : Table) (i : nat) (id : ID) : Table * bool :=
  match find_entry (checksum id) (bucket t i) with
  | Some _ => (set_bucket t i (remove_entry (checksum id) (bucket t i)), true)
  | None => (t, false)
  end.

(** [bucket.Back()]: the least recently seen entry. *)
Definition Back (l : list ID) : option ID := last l.

(** Modelled from the spec: [Table.FindClosest(target, k)] returns up to [k]
    IDs of the whole table in ascending XOR distance to the target's
    checksum, the node's own ID excluded. *)
Definition FindClosest (t : Table) (target : ID) (k : Z) : list ID :=
  take (Z.to_nat k)
    (sort_Slice (closer target)
       (filter (λ x, checksum x ≠ checksum (self t)) (mjoin (buckets t)))).

(** The table invariants of the spec's data model: there are 256 buckets of
    at most [K] entries, an entry sits in the bucket of its prefix distance to
    [self], no checksum occurs twice, and the node's own checksum does not
    occur. *)
Record Table_ok (t : Table) : Prop := {
  ok_length : length (buckets t) = (8 * Size256)%nat;
  ok_size : ∀ i l, buckets t !! i = Some l → (length l ≤ bucketSize t)%nat;
  ok_placed : ∀ i l x, buckets t !! i = Some l → x ∈ l →
              getBucketID (checksum (self t)) (checksum x) = i;
  ok_nodup : NoDup (checksum <$> mjoin (buckets t));
  ok_noself : checksum (self t) ∉ checksum <$> mjoin (buckets t);
}.

(** ** Protocol state and transport

    A session handle ([*noise.Peer]) is a number.  [Protocol] gathers the
    fields of the Go struct that the modelled methods read or write
    ([table], the puzzle and prefix parameters, the [peers] registry)
    together with what the transport keeps per session (the closures given to
    [InterceptErrors] and [AfterRecv], each represented by the [id] it
    captures) and the trace of effects. *)
Abbreviation Peer := nat.

Inductive Event : Type :=
  | Send (p : Peer) (opcode : Z) (payload : list byte) (result : option error)
  | Dial (addr : string) (result : option error)
  | Disconnected (p : Peer) (err : option error)
  | Signal (p : Peer) (name : string)
  | Printf (format : string) (id : ID).

Record Protocol := mkProtocol {
  table : Table;
  prefixDiffLen : Z;
  prefixDiffMin : Z;
  c1 : Z;
  c2 : Z;
  peers : gmap Checksum Peer;
  interceptors : gmap Peer (list ID);
  afterRecv : gmap Peer (list ID);
  trace : list Event;
}.

Definition DefaultPrefixDiffLen : Z := 128.
Definition DefaultPrefixDiffMin : Z := 32.
Definition DefaultC1 : Z := 16.
Definition DefaultC2 : Z := 16.
Definition SignalHandshakeComplete : string := "skademlia.handshake".

(** [New(keys, externalAddress)], given the ID that [keys.ID(externalAddress)]
    computes. *)
Definition New (selfid : ID) : Protocol :=
  mkProtocol (NewTable selfid) DefaultPrefixDiffLen DefaultPrefixDiffMin
             DefaultC1 DefaultC2 ∅ ∅ ∅ [].

Definition set_table (t : Table) (b : Protocol) : Protocol :=
  mkProtocol t (prefixDiffLen b) (prefixDiffMin b) (c1 b) (c2 b)
             (peers b) (interceptors b) (afterRecv b) (trace b).

Definition set_peers (m : gmap Checksum Peer) (b : Protocol) : Protocol :=
  mkProtocol (table b) (prefixDiffLen b) (prefixDiffMin b) (c1 b) (c2 b)
             m (interceptors b) (afterRecv b) (trace b).

Definition emit (e : Event) (b : Protocol) : Protocol :=
  mkProtocol (table b) (prefixDiffLen b) (prefixDiffMin b) (c1 b) (c2 b)
             (peers b) (interceptors b) (afterRecv b) (trace b ++ [e]).

(** [p.InterceptErrors(func(err error) {...})] with the closure capturing [id]. *)
Definition InterceptErrors (p : Peer) (id : ID) (b : Protocol) : Protocol :=
  mkProtocol (table b) (prefixDiffLen b) (prefixDiffMin b) (c1 b) (c2 b)
             (peers b) (<[p := default [] (interceptors b !! p) ++ [id]]> (interceptors b))
             (afterRecv b) (trace b).

(** [p.AfterRecv(func() {...})] with the closure capturing [id]. *)
Definition AfterRecv (p : Peer) (id : ID) (b : Protocol) : Protocol :=
  mkProtocol (table b) (prefixDiffLen b) (prefixDiffMin b) (c1 b) (c2 b)
             (peers b) (interceptors b)
             (<[p := default [] (afterRecv b !! p) ++ [id]]> (afterRecv b)) (trace b).

(** What the [select] of an RPC picks: the session's cancellation, the
    timer, or a frame. *)
Inductive Select : Type :=
  | Cancelled
  | TimedOut
  | Received (buf : list byte).

(** What the network does to one RPC: the result of [mux.Send] and the
    branch its [select] takes. *)
Record RPC := mkRPC {
  send_result : option error;
  selected : Select;
}.

(** An RPC that gets no answer: the send fails, the session is cancelled or
    the timer fires. *)
Definition unanswered (io : RPC) : Prop :=
  send_result io ≠ None ∨ selected io = Cancelled ∨ selected io = TimedOut.

(** [evict]: report on standard output, then delete the ID from its bucket. *)
Definition evict (id : ID) (b : Protocol) : Protocol :=
  let b := emit (Printf "Peer %s could not be reached, and has been evicted." id) b in
  let i := getBucketID (checksum (self (table b))) (checksum id) in
  set_table (Table_Delete (table b) i id).1 b.

(** The decision of the error interceptor to evict. *)
Definition timed_out (err : error) : bool :=
  is_net_timeout err || bool_decide (Cause err = ErrTimeout).

(** The error interceptor that [Handshake] installs, for the [id] it
    captured. *)
Definition intercept (id : ID) (err : error) (b : Protocol) : Protocol :=
  let b := set_peers (delete (checksum id) (peers b)) b in
  if is_net_timeout err then evict id b
  else if decide (Cause err = ErrTimeout) then evict id b
  else b.

(** An error of session [p] reaches the interceptors installed on [p]. *)
Definition report_error (p : Peer) (err : error) (b : Protocol) : Protocol :=
  foldl (λ b id, intercept id err b) b (default [] (interceptors b !! p)).

(** Modelled from the spec: [Peer.Disconnect(err)] of the transport (not among
    the sources).  Disconnecting a session with an error triggers the error
    interceptors installed on it (sections 4.4.1 and 4.4.5). *)
Definition Disconnect (p : Peer) (err : option error) (b : Protocol) : Protocol :=
  let b := emit (Disconnected p err) b in
  match err with
  | Some e => report_error p e b
  | None => b
  end.

(** The messages of the errors of [Update]. *)
Definition ping_failed : string := "failed to ping last peer in bucket".
Definition ping_invalid : string := "got invalid id pinging last peer in bucket".
Definition cannot_evict : string :=
  "must reject peer: cannot evict any peers to make room for new peer".

Section protocol.
(** The wire codec and the puzzle checks are not among the sources; the
    protocol is modelled over any implementation of them.  [UnmarshalID]
    and [UnmarshalIDs] return a value and an error, as the Go functions do. *)
Context (UnmarshalID : list byte → ID * option error)
        (UnmarshalIDs : list byte → list ID * option error)
        (MarshalID : ID → list byte)
        (MarshalIDs : list ID → list byte)
        (verifyPuzzle : Checksum → Checksum → Z → Z → option error)
        (prefixDiff : list byte → list byte → Z → Z).

(** [PeerByID], given what [node.PeerByAddr] and [node.Dial] answer. *)
Definition PeerByID (id : ID) (byaddr : option Peer) (dial : Peer + error)
    (b : Protocol) : Protocol * option Peer :=
  match peers b !! checksum id with
  | Some peer => (b, Some peer)
  | None =>
      match byaddr with
      | Some peer => (b, Some peer)
      | None =>
          match dial with
          | inl peer => (emit (Dial (address id) None) b, Some peer)
          | inr err => (evict id (emit (Dial (address id) (Some err)) b), None)
          end
      end
  end.

(** [Ping] on session [p]. *)
Definition Ping (p : Peer) (io : RPC) (b : Protocol)
    : Protocol * (option ID * option error) :=
  let b := emit (Send p 3 [] (send_result io)) b in
  match send_result io with
  | Some err => (b, (None, Some (Wrap err "failed to send ping")))
  | None =>
      match selected io with
      | Cancelled => (b, (None, Some ErrDisconnect))
      | TimedOut => (b, (None, Some (Wrap ErrTimeout "timed out receiving pong")))
      | Received buf =>
          let '(id, err) := UnmarshalID buf in
          match err with
          | Some e => (b, (None, Some (Wrap e "failed to unmarshal pong")))
          | None =>
              match verifyPuzzle (checksum id) (nonce id) (c1 b) (c2 b) with
              | Some e => (b, (None, Some (Wrap e "peer connected with invalid id")))
              | None =>
                  if prefixDiff (slice (checksum (self (table b)))) (slice (checksum id))
                                (prefixDiffLen b) <? prefixDiffMin b
                  then (b, (None, Some (errors_New "peer id is too similar to ours")))
                  else (b, (Some id, err))
              end
          end
      end
  end.

(** An ID passes the two checks that [Ping] applies to a pong. *)
Definition validated (b : Protocol) (id : ID) : Prop :=
  verifyPuzzle (checksum id) (nonce id) (c1 b) (c2 b) = None ∧
  prefixDiffMin b ≤ prefixDiff (slice (checksum (self (table b)))) (slice (checksum id))
                               (prefixDiffLen b).

(** [Lookup] on session [p]. *)
Definition Lookup (p : Peer) (target : ID) (io : RPC) (b : Protocol)
    : Protocol * (list ID * option error) :=
  let b := emit (Send p 4 (MarshalID target) (send_result io)) b in
  match send_result io with
  | Some err => (b, ([], Some (Wrap err "failed to send find node request")))
  | None =>
      match selected io with
      | Cancelled => (b, ([], Some ErrDisconnect))
      | TimedOut =>
          (b, ([], Some (Wrap ErrTimeout "timed out receiving finde node response")))
      | Received buf => (b, UnmarshalIDs buf)
      end
  end.

(** *** [Update] *)

(** What one run of the loop body of [Update] decides. *)
Inductive Step : Type :=
  | Retry
  | Return (err : option error)
  | Fault.

(** Whether the ID answered by the probed peer is the bucket's entry. *)
Definition same_id (pid lastid : ID) : bool :=
  bool_decide (checksum pid = checksum lastid) &&
  bool_decide (nonce pid = nonce lastid) &&
  bool_decide (address pid = address lastid).

(** The body of the loop of [Update], entered when [table.Update(id)] has
    answered [ErrBucketFull]; [io] is what happens to the ping, if one is
    sent. *)
Definition Update_body (id : ID) (io : RPC) (b : Protocol) : Protocol * Step :=
  let i := getBucketID (checksum (self (table b))) (checksum id) in
  match Back (bucket (table b) i) with
  | None => (b, Fault)
  | Some lastid =>
      match peers b !! checksum lastid with
      | None => (set_table (Table_Delete (table b) i lastid).1 b, Retry)
      | Some lastp =>
          let '(b, (pid, err)) := Ping lastp io b in
          match err, pid with
          | Some _, _ =>
              (Disconnect lastp (Some (Wrap ErrTimeout ping_failed)) b, Retry)
          | None, None => (b, Fault)
          | None, Some pid =>
              if same_id pid lastid
              then (emit (Printf "Routing table is full; evicting peer %s." id) b,
                    Return (Some (Wrap ErrDisconnect cannot_evict)))
              else (Disconnect lastp (Some (Wrap ErrTimeout ping_invalid)) b, Retry)
          end
      end
  end.

(** [Update]: [pings n] is what happens to the ping of the [n]-th run of the
    loop body; [fuel] bounds the number of evaluations of the loop
    condition. *)
Fixpoint Update_from (fuel : nat) (id : ID) (pings : nat → RPC) (n : nat)
    (b : Protocol) : Protocol * outcome (option error) :=
  match fuel with
  | O => (b, Diverge)
  | S fuel =>
      let '(t, r) := Table_Update (table b) id in
      let b := set_table t b in
      if decide (r = Some ErrBucketFull) then
        match Update_body id (pings n) b with
        | (b, Retry) => Update_from fuel id pings (S n) b
        | (b, Return err) => (b, Ret err)
        | (b, Fault) => (b, Panic)
        end
      else (b, Ret None)
  end.

Definition Update (fuel : nat) (id : ID) (pings : nat → RPC) (b : Protocol)
    : Protocol * outcome (option error) :=
  Update_from fuel id pings 0 b.

(** *** [Handshake] *)

(** What the environment of a handshake decides: the session's remote
    address, the ping, the answers of [node.PeerByAddr] and [node.Dial], and
    the pings of [Update]. *)
Record HandshakeIO := mkHandshakeIO {
  hs_addr : string;
  hs_ping : RPC;
  hs_byaddr : option Peer;
  hs_dial : Peer + error;
  hs_pings : nat → RPC;
}.

(** The deferred [signal()]. *)
Definition signal (p : Peer) (b : Protocol) : Protocol :=
  emit (Signal p SignalHandshakeComplete) b.

(** The part of [Handshake] after the address check: register the session,
    update the table, install the interceptor and the post-receive hook. *)
Definition register (fuel : nat) (p : Peer) (id : ID) (io : HandshakeIO)
    (b : Protocol) : Protocol * outcome (option ID * option error) :=
  let b := set_peers (<[checksum id := p]> (peers b)) b in
  match Update fuel id (hs_pings io) b with
  | (b, Ret (Some err)) => (signal p b, Ret (None, Some err))
  | (b, Ret None) =>
      let b := InterceptErrors p id b in
      let b := AfterRecv p id b in
      let b := emit (Printf "Registered to S/Kademlia: %s" id) b in
      (signal p b, Ret (Some id, None))
  | (b, Panic) => (b, Panic)
  | (b, Diverge) => (b, Diverge)
  end.

(** [Handshake] on session [p], without the request-serving goroutine it
    starts (see [serve]). *)
Definition Handshake (fuel : nat) (p : Peer) (io : HandshakeIO) (b : Protocol)
    : Protocol * outcome (option ID * option error) :=
  match Ping p (hs_ping io) b with
  | (b, (_, Some err)) => (signal p b, Ret (None, Some err))
  | (b, (None, None)) => (b, Panic)
  | (b, (Some id, None)) =>
      let existed := bool_decide (is_Some (peers b !! checksum id)) in
      if negb existed && negb (bool_decide (hs_addr io = address id)) then
        match PeerByID id (hs_byaddr io) (hs_dial io) b with
        | (b, None) => (signal p b, Ret (None, Some ErrTimeout))
        | (b, Some reachable) => register fuel p id io (Disconnect reachable None b)
        end
      else register fuel p id io b
  end.

(** The condition under which [Handshake] turns to [PeerByID]. *)
Definition needs_dial (io : HandshakeIO) (id : ID) (b : Protocol) : bool :=
  bool_decide (peers b !! checksum id = None) &&
  negb (bool_decide (hs_addr io = address id)).

(** *** The request-serving loop of a session *)

(** A frame that the loop receives, with the result of the [wire.Send] that
    answers it. *)
Inductive Request : Type :=
  | PingRequest (send : option error)
  | LookupRequest (buf : list byte) (send : option error).

(** One round of the loop that [Handshake] starts on session [p]. *)
Definition serve (p : Peer) (req : Request) (b : Protocol) : Protocol :=
  match req with
  | PingRequest send =>
      let b := emit (Send p 3 (MarshalID (self (table b))) send) b in
      match send with
      | Some err => Disconnect p (Some (Wrap err "failed to send ping")) b
      | None => b
      end
  | LookupRequest buf send =>
      let '(target, err) := UnmarshalID buf in
      let b := match err with
               | Some e => Disconnect p (Some (Wrap e "sent invalid lookup request")) b
               | None => b
               end in
      let ids := FindClosest (table b) target (Z.of_nat (bucketSize (table b))) in
      let b := emit (Send p 4 (MarshalIDs ids) send) b in
      match send with
      | Some err => Disconnect p (Some (Wrap err "failed tpo send lookup response")) b
      | None => b
      end
  end.

(** The closure given to [AfterRecv], for the [id] it captured: refresh the
    ID; a failed update disconnects the session. *)
Definition refresh (fuel : nat) (p : Peer) (pings : nat → RPC) (id : ID) (b : Protocol)
    : Protocol * outcome unit :=
  match Update fuel id pings b with
  | (b, Ret (Some err)) => (Disconnect p (Some err) b, Ret ())
  | (b, Ret None) => (b, Ret ())
  | (b, Panic) => (b, Panic)
  | (b, Diverge) => (b, Diverge)
  end.

(** A frame arrives on session [p]: the post-receive hooks installed on [p]
    run in turn. *)
Definition after_recv (fuel : nat) (p : Peer) (pings : nat → RPC) (b : Protocol)
    : Protocol * outcome unit :=
  foldl (λ '(b, r) id,
           match r with
           | Ret _ => refresh fuel p pings id b
           | _ => (b, r)
           end)
        (b, Ret ()) (default [] (afterRecv b !! p)).

(** The states that a node goes through: it starts from [New] and moves by
    handshakes, served requests, received frames, session errors,
    disconnections and the [PeerByID] calls of its lookups. *)
Inductive reachable : Protocol → Prop :=
  | reach_New selfid : reachable (New selfid)
  | reach_Handshake fuel p io b :
      reachable b → reachable (Handshake fuel p io b).1
  | reach_serve p req b :
      reachable b → reachable (serve p req b)
  | reach_after_recv fuel p pings b :
      reachable b → reachable (after_recv fuel p pings b).1
  | reach_report_error p err b :
      reachable b → reachable (report_error p err b)
  | reach_Disconnect p err b :
      reachable b → reachable (Disconnect p err b)
  | reach_PeerByID id byaddr dial b :
      reachable b → reachable (PeerByID id byaddr dial b).1.

End protocol.

(** ** The wire codec and the puzzle checks of the spec

    These functions are not among the sources.  They are written down from
    the spec (sections 4.1, 4.3 and 6) over a hash function [H] standing for
    BLAKE2b-256, and serve to run the protocol on concrete inputs. *)
Section codec.
Context (H : list byte → Checksum).

Definition PublicKeySize : nat := 32.

(** Modelled from the spec: [ID.Marshal] concatenates the public key and the
    nonce in fixed sizes and the address as a length-prefixed string. *)
Definition MarshalID (id : ID) : list byte :=
  vec_to_list (take_pad PublicKeySize (publicKey id)) ++ slice (nonce id) ++
  default x00 (Byte.of_nat (length (String.list_byte_of_string (address id)))) ::
  String.list_byte_of_string (address id).

Definition ErrUnexpectedEOF : error := errors_New "unexpected EOF".

(** Decoding of one ID from the front of a buffer; the checksum is computed
    from the public key. *)
Definition readID (buf : list byte) : option (ID * list byte) :=
  let pk := take PublicKeySize buf in
  let buf := drop PublicKeySize buf in
  let n := take Size256 buf in
  let buf := drop Size256 buf in
  match buf with
  | [] => None
  | len :: buf =>
      let a := take (Byte.to_nat len) buf in
      if decide (length pk = PublicKeySize ∧ length n = Size256 ∧
                 length a = Byte.to_nat len)
      then Some (mkID (String.string_of_list_byte a) pk (mkChecksum (take_pad Size256 n)) (H pk),
                 drop (Byte.to_nat len) buf)
      else None
  end.

(** Modelled from the spec: [UnmarshalID]. *)
Definition UnmarshalID (buf : list byte) : ID * option error :=
  match readID buf with
  | Some (id, _) => (id, None)
  | None => (inhabitant, Some ErrUnexpectedEOF)
  end.

(** Modelled from the spec: [IDs.Marshal] prepends the count to the
    encodings of the elements. *)
Definition MarshalIDs (ids : list ID) : list byte :=
  default x00 (Byte.of_nat (length ids)) :: mjoin (MarshalID <$> ids).

Fixpoint readIDs (n : nat) (buf : list byte) : option (list ID) :=
  match n with
  | O => Some []
  | S n =>
      match readID buf with
      | Some (id, buf) => cons id <$> readIDs n buf
      | None => None
      end
  end.

(** Modelled from the spec: [UnmarshalIDs]. *)
Definition UnmarshalIDs (buf : list byte) : list ID * option error :=
  match buf with
  | [] => ([], Some ErrUnexpectedEOF)
  | count :: buf =>
      match readIDs (Byte.to_nat count) buf with
      | Some ids => (ids, None)
      | None => ([], Some ErrUnexpectedEOF)
      end
  end.

(** Modelled from the spec: [verifyPuzzle(checksum, nonce, c1, c2)] holds
    when the first [c1] bits of the checksum and the first [c2] bits of
    [H(checksum XOR nonce)] are zero. *)
Definition verifyPuzzle (cs n : Checksum) (c1 c2 : Z) : option error :=
  if Z.of_nat (prefixLen (slice cs)) <? c1
  then Some (errors_New "static puzzle not verified")
  else if Z.of_nat (prefixLen (slice (H (xor (slice cs) (slice n))))) <? c2
       then Some (errors_New "dynamic puzzle not verified")
       else None.

(** The bits of a byte string, most significant first. *)
Definition bits (l : list byte) : list bool :=
  b ← l; (λ i, N.testbit (Byte.to_N b) i) <$> [7; 6; 5; 4; 3; 2; 1; 0]%N.

(** Modelled from the spec: [prefixDiff(a, b, n)] counts the positions among
    the first [n] bits at which [a] and [b] differ. *)
Definition prefixDiff (a b : list byte) (n : Z) : Z :=
  Z.of_nat (length (filter (λ x, x = true) (take (Z.to_nat n) (bits (xor a b))))).
End codec.

(** A stand-in for the hash on concrete inputs: the first 32 bytes, padded
    with zeros. *)
Definition H0 (l : list byte) : Checksum := mkChecksum (take_pad Size256 l).

(** The ID of a public key under [H0], with a nonce equal to the checksum. *)
Definition ID0 (addr : string) (pk : list byte) : ID :=
  mkID addr (vec_to_list (take_pad PublicKeySize pk)) (H0 pk) (H0 pk).

(** ** [FindNode]

    [FindNode] starts [d] groups; each group runs a main goroutine over its
    own queue and [a] workers fed through the buffered channels [requests]
    and [responses].  The goroutines share [visited] and [results] under the
    mutex [mu].  The embedding is an interleaving semantics: the state of all
    groups, and a step function driven by a schedule that names the goroutine
    that moves next.  A worker's calls to [PeerByID] and [Lookup] enter by
    their answer, which the schedule supplies. *)

(** Where the main goroutine of a group stands: at the condition of the outer
    loop, at the condition of the inner loop, at [if pending > 0], inside the
    loop over a response (with the IDs still to examine), or past
    [close(requests)] and [wg.Done()]. *)
Inductive PC : Type :=
  | Outer
  | Inner
  | Await
  | Merge (rest : list ID)
  | Closed.

Record Group := mkGroup {
  lookup : list ID;
  requests : list ID;
  working : list ID;
  responses : list (list ID);
  pending : nat;
  pc : PC;
}.

Record Search := mkSearch {
  visited : gset Checksum;
  results : list ID;
  groups : list Group;
}.

(** What a worker obtains for a request: no session from [PeerByID], a failed
    [Lookup] (the session is disconnected), or the IDs of the response. *)
Inductive Answer : Type :=
  | NoPeer
  | LookupFailed (err : error)
  | Found (ids : list ID).

(** One move of the schedule: the main goroutine of group [g]; a worker of
    group [g] receiving from [requests]; the worker of group [g] that handles
    the [i]-th request in progress finishing with an answer. *)
Inductive Label : Type :=
  | Main (g : nat)
  | Take (g : nat)
  | Finish (g : nat) (i : nat) (ans : Answer).

Definition set_pc (x : PC) (G : Group) : Group :=
  mkGroup (lookup G) (requests G) (working G) (responses G) (pending G) x.

(** A step of the main goroutine of a group; [None] when it is blocked or
    has finished. *)
Definition main_step (a : Z) (vis : gset Checksum) (res : list ID) (G : Group)
    : option (gset Checksum * list ID * Group) :=
  match pc G with
  | Outer =>
      match lookup G with
      | [] => Some (vis, res, set_pc Closed G)
      | _ :: _ => Some (vis, res, set_pc Inner G)
      end
  | Inner =>
      match lookup G with
      | id :: q =>
          if Z.of_nat (length (requests G)) <? a
          then Some (vis, res,
                     mkGroup q (requests G ++ [id]) (working G) (responses G)
                             (S (pending G)) Inner)
          else Some (vis, res, set_pc Await G)
      | [] => Some (vis, res, set_pc Await G)
      end
  | Await =>
      if (0 <? pending G)%nat then
        match responses G with
        | r :: rs =>
            Some (vis, res,
                  mkGroup (lookup G) (requests G) (working G) rs (pending G) (Merge r))
        | [] => None
        end
      else Some (vis, res, set_pc Outer G)
  | Merge [] => Some (vis, res, set_pc Outer G)
  | Merge (id :: rest) =>
      if decide (checksum id ∈ vis)
      then Some (vis, res, set_pc (Merge rest) G)
      else Some ({[checksum id]} ∪ vis, res ++ [id],
                 mkGroup (lookup G ++ [id]) (requests G) (working G) (responses G)
                         (pending G) (Merge rest))
  | Closed => None
  end.

(** A worker receives the next request, if one of the [a] workers is free. *)
Definition take_step (a : Z) (G : Group) : option Group :=
  match requests G with
  | id :: r =>
      if Z.of_nat (length (working G)) <? a
      then Some (mkGroup (lookup G) r (working G ++ [id]) (responses G) (pending G) (pc G))
      else None
  | [] => None
  end.

(** A worker finishes a request; a response is sent when [responses] has
    room, otherwise the worker stays blocked. *)
Definition finish_step (a : Z) (i : nat) (ans : Answer) (G : Group) : option Group :=
  match working G !! i with
  | None => None
  | Some _ =>
      match ans with
      | Found ids =>
          if Z.of_nat (length (responses G)) <? a
          then Some (mkGroup (lookup G) (requests G) (delete i (working G))
                             (responses G ++ [ids]) (pending G) (pc G))
          else None
      | _ => Some (mkGroup (lookup G) (requests G) (delete i (working G))
                           (responses G) (pending G) (pc G))
      end
  end.

Definition step (a : Z) (l : Label) (s : Search) : option Search :=
  match l with
  | Main g =>
      G ← groups s !! g;
      '(vis, res, G') ← main_step a (visited s) (results s) G;
      Some (mkSearch vis res (<[g := G']> (groups s)))
  | Take g =>
      G ← groups s !! g;
      G' ← take_step a G;
      Some (mkSearch (visited s) (results s) (<[g := G']> (groups s)))
  | Finish g i ans =>
      G ← groups s !! g;
      G' ← finish_step a i ans G;
      Some (mkSearch (visited s) (results s) (<[g := G']> (groups s)))
  end.

Fixpoint run (a : Z) (sched : list Label) (s : Search) : option Search :=
  match sched with
  | [] => Some s
  | l :: sched => s' ← step a l s; run a sched s'
  end.

(** The loop over the seeds: [lookups[i%d].PushBack(id)]. *)
Fixpoint distribute (d : nat) (i : nat) (seeds : list ID) (lookups : list (list ID))
    : list (list ID) :=
  match seeds with
  | [] => lookups
  | id :: seeds => distribute d (S i) seeds (alter (λ q, q ++ [id]) (i mod d)%nat lookups)
  end.

(** The state in which the [d] groups start. *)
Definition start (b : Protocol) (target : ID) (seeds : list ID) (d : nat) : Search :=
  mkSearch ({[checksum (self (table b)); checksum (target)]} ∪
            list_to_set (checksum <$> seeds))
           seeds
           ((λ q, mkGroup q [] [] [] 0 Outer) <$> distribute d 0 seeds (replicate d [])).

Definition all_closed (s : Search) : bool :=
  forallb (λ G, match pc G with Closed => true | _ => false end) (groups s).

(** [FindNode] along a schedule.  The call panics for a negative [d], for
    [d = 0] with a seed to place, for a negative [a] once a group starts, and
    for a negative [k]; it has not returned ([Diverge]) unless the schedule
    is a run that brings every group to [wg.Done()]. *)
Definition FindNode (b : Protocol) (target : ID) (k a d : Z) (sched : list Label)
    : outcome (list ID) :=
  if d <? 0 then Panic
  else
    let seeds := FindClosest (table b) target k in
    if (d =? 0) && negb (bool_decide (seeds = [])) then Panic
    else if (0 <? d) && (a <? 0) then Panic
    else
      match run a sched (start b target seeds (Z.to_nat d)) with
      | None => Diverge
      | Some s =>
          if all_closed s then
            let sorted := sort_Slice (closer target) (results s) in
            if k <? Z.of_nat (length sorted)
            then (if k <? 0 then Panic else Ret (take (Z.to_nat k) sorted))
            else Ret sorted
          else Diverge
      end.

(** [Bootstrap] *)
Definition Bootstrap (b : Protocol) (sched : list Label) : outcome (list ID) :=
  FindNode b (self (table b)) (Z.of_nat (bucketSize (table b))) 3 8 sched.

(** What the goroutines maintain of [visited] and [results]: the results
    carry pairwise distinct checksums, all of them visited, and the node's
    own checksum is visited and not among them. *)
Record deduplicated (own : Checksum) (vis : gset Checksum) (res : list ID) : Prop := {
  dd_nodup : NoDup (checksum <$> res);
  dd_visited : ∀ x, x ∈ res → checksum x ∈ vis;
  dd_own : own ∈ vis;
  dd_noself : own ∉ checksum <$> res;
}.

(** ** Concrete nodes and runs

    The protocol over the codec and the checks of the spec, with [H0] for the
    hash, and a run of a node that is used to exercise the results. *)
Section runs.
Local Open Scope nat_scope.

Definition Ping0 := Ping (UnmarshalID H0) (verifyPuzzle H0) prefixDiff.
Definition Lookup0 := Lookup (UnmarshalIDs H0) MarshalID.
Definition Update0 := Update (UnmarshalID H0) (verifyPuzzle H0) prefixDiff.
Definition Handshake0 := Handshake (UnmarshalID H0) (verifyPuzzle H0) prefixDiff.
Definition after_recv0 := after_recv (UnmarshalID H0) (verifyPuzzle H0) prefixDiff.
Definition serve0 := serve (UnmarshalID H0) MarshalID MarshalIDs.
Definition reachable0 :=
  reachable (UnmarshalID H0) MarshalID MarshalIDs (verifyPuzzle H0) prefixDiff.

(** The local node, and remote nodes numbered by a byte: every remote
    checksum has 16 leading zero bits, differs from the local one in 32 of
    the first 128 bits at least, and falls into bucket 16. *)
Definition selfID : ID := ID0 "self" [x00; x00; xff; xff; xff; xff].

Definition remote (i : nat) : ID :=
  let n := default x00 (Byte.of_nat i) in
  ID0 (String.string_of_list_byte [x72; n]) [x00; x00; x00; x00; x00; x00; n].

(** The RPC outcomes used below: the peer answers with an ID, or stays
    silent until the timer fires. *)
Definition pong (id : ID) : RPC := mkRPC None (Received (MarshalID id)).
Definition silent : RPC := mkRPC None TimedOut.

Definition refused : error := errors_New "connection refused".
Definition io_timeout : error := NetError true "i/o timeout".
Definition EOF : error := errors_New "EOF".

(** A handshake on session [p] with a remote that answers the ping with [id]
    and connects from its advertised address; [probe] is what the pings of
    [Update] meet. *)
Definition handshake (p : Peer) (id : ID) (probe : RPC) (b : Protocol) : Protocol :=
  (Handshake0 4 p (mkHandshakeIO (address id) (pong id) None (inr refused) (λ _, probe)) b).1.

(** A frame arrives on session [p]: the post-receive hook runs. *)
Definition frame (p : Peer) (b : Protocol) : Protocol :=
  (after_recv0 4 p (λ _, silent) b).1.

(** A run of the node [selfID].
    - [run1], [run2]: the remote [L = remote 100] completes a handshake on
      session 100 and another one on session 101.
    - [run3]: session 101 times out; its interceptor unregisters and evicts
      [L].  Session 100 stays open.
    - [run4]: the remotes 1 to 16 complete handshakes on sessions 1 to 16;
      their bucket is full.
    - [run5]: [L] connects on session 102.  The bucket is full and its back
      entry, remote 1, answers the probe: the handshake is rejected, after
      the session was entered into the registry.
    - [run6]: session 16 times out; remote 16 is evicted.
    - [run7]: a frame arrives on session 100; the hook puts [L] back into the
      table.
    - [run8]: frames arrive on sessions 1 to 15; [L] is now at the back of the
      bucket, which is full again. *)
Definition run0 : Protocol := New selfID.
Definition run1 : Protocol := handshake 100 (remote 100) silent run0.
Definition run2 : Protocol := handshake 101 (remote 100) silent run1.
Definition run3 : Protocol := report_error 101 io_timeout run2.
Definition run4 : Protocol :=
  foldl (λ b i, handshake i (remote i) silent b) run3 (seq 1 16).
Definition run5 : Protocol := handshake 102 (remote 100) (pong (remote 1)) run4.
Definition run6 : Protocol := report_error 16 io_timeout run5.
Definition run7 : Protocol := frame 100 run6.
Definition run8 : Protocol := foldl (λ b i, frame i b) run7 (seq 1 15).

(** A node that knows [remote 100] but has lost its session to an error
    that is no timeout. *)
Definition lost : Protocol := report_error 100 EOF run1.

(** A handshake of [remote 100] from an address it does not advertise, whose
    advertised address refuses the connection. *)
Definition from_elsewhere : HandshakeIO :=
  mkHandshakeIO "203.0.113.9:51234" (pong (remote 100)) None (inr refused) (λ _, silent).

Definition seventeen : list ID := remote <$> seq 1 17.
End runs.

(** A schedule of [FindNode] with [a = 1] and [d = 2] at the node [run1],
    whose table holds [remote 100]: group 0 queries [remote 100], which
    answers with five IDs, among them itself, the local node and a repeated
    one; the two new IDs are queried in turn and answer with nothing new;
    group 1 has nothing to do. *)
Definition sched0 : list Label :=
  [Main 0; Main 0; Main 0; Take 0;
   Finish 0 0 (Found [remote 7; remote 100; selfID; remote 3; remote 7]);
   Main 0; Main 0; Main 0; Main 0; Main 0; Main 0; Main 0;
   Main 0; Main 0; Main 0; Take 0; Finish 0 0 (Found []);
   Main 1;
   Main 0; Main 0; Main 0; Main 0; Main 0; Take 0; Finish 0 0 (Found [remote 7]);
   Main 0; Main 0; Main 0; Main 0]%nat.

(** ** [Peers] and the workers of [FindNode] *)

Section sessions.
Context (UnmarshalIDs : list byte → list ID * option error)
        (MarshalID : ID → list byte).

(** The loop of [Peers] over the IDs still to visit; [env n] is what
    [node.PeerByAddr] and [node.Dial] answer when [PeerByID] is called for the
    [n]-th ID. *)
Fixpoint Peers_from (env : nat → option Peer * (Peer + error)) (n : nat)
    (ids : list ID) (b : Protocol) : Protocol * list Peer :=
  match ids with
  | [] => (b, [])
  | id :: ids =>
      match PeerByID id (env n).1 (env n).2 b with
      | (b, Some peer) =>
          let '(b, peers) := Peers_from env (S n) ids b in (b, peer :: peers)
      | (b, None) => Peers_from env (S n) ids b
      end
  end.

(** [Peers] *)
Definition Peers (env : nat → option Peer * (Peer + error)) (b : Protocol)
    : Protocol * list Peer :=
  Peers_from env 0
    (FindClosest (table b) (self (table b)) (Z.of_nat (bucketSize (table b)))) b.

(** The session that [PeerByID] yields for an ID: the registered one, else
    the one the transport has to the address, else the dialled one. *)
Definition session_of (b : Protocol) (id : ID) (answer : option Peer * (Peer + error))
    : option Peer :=
  match peers b !! checksum id with
  | Some peer => Some peer
  | None =>
      match answer with
      | (Some peer, _) => Some peer
      | (None, inl peer) => Some peer
      | (None, inr _) => None
      end
  end.

(** The body of the loop of a worker of [FindNode], for the request [id]:
    [byaddr] and [dial] are the transport's answers to [PeerByID], [io] is
    what happens to the [Lookup]. *)
Definition query (id : ID) (byaddr : option Peer) (dial : Peer + error) (io : RPC)
    (b : Protocol) : Protocol * Answer :=
  match PeerByID id byaddr dial b with
  | (b, None) => (b, NoPeer)
  | (b, Some peer) =>
      match Lookup UnmarshalIDs MarshalID peer id io b with
      | (b, (_, Some err)) => (Disconnect peer (Some err) b, LookupFailed err)
      | (b, (ids, None)) => (b, Found ids)
      end
  end.
End sessions.

(** The requests that the workers of [FindNode] receive along a schedule, in
    the order in which they are received; each of them is looked up once by
    the worker that received it. *)
Fixpoint received (a : Z) (sched : list Label) (s : Search) : list ID :=
  match sched with
  | [] => []
  | l :: sched =>
      match step a l s with
      | None => []
      | Some s' =>
          match l with
          | Take g =>
              match groups s !! g ≫= (λ G, head (requests G)) with
              | Some id => id :: received a sched s'
              | None => received a sched s'
              end
          | _ => received a sched s'
          end
      end
  end.

(** The IDs that a schedule has the workers deliver as responses. *)
Definition delivered (sched : list Label) : list ID :=
  l ← sched; match l with Finish _ _ (Found ids) => ids | _ => [] end.

(** A schedule on which no worker delivers a response. *)
Definition unanswered_schedule (sched : list Label) : Prop :=
  Forall (λ l, match l with Finish _ _ (Found _) => False | _ => True end) sched.

(** The seeds whose index is congruent to [j] modulo [d], in order. *)
Definition dealt (d j : nat) (seeds : list ID) : list ID :=
  (filter (λ ix, ix.1 mod d = j)%nat (zip (seq 0 (length seeds)) seeds)).*2.

(** A group whose main goroutine still has work (a queued ID, or a request
    it counts as pending) while no response is waiting for it. *)
Definition waiting (G : Group) : Prop :=
  responses G = [] ∧
  match pc G with
  | Outer => lookup G ≠ []
  | Inner | Await => lookup G ≠ [] ∨ (0 < pending G)%nat
  | Merge _ | Closed => False
  end.

(** A group that has nothing queued, requested, in progress or answered. *)
Definition idle (G : Group) : Prop :=
  lookup G = [] ∧ requests G = [] ∧ working G = [] ∧ responses G = [] ∧
  pending G = 0%nat ∧ ∀ rest, pc G ≠ Merge rest.

(** The IDs that a search may hand on: those in its results, in the
    responses not yet read and in the response being merged all satisfy [P]. *)
Definition sourced (P : ID → Prop) (s : Search) : Prop :=
  Forall P (results s) ∧
  Forall (λ G, Forall (Forall P) (responses G) ∧
               match pc G with Merge rest => Forall P rest | _ => True end)
         (groups s).

(** The IDs that the groups of a search still hold in their queues and in
    their request channels. *)
Definition queued (s : Search) : list ID :=
  mjoin ((λ G, requests G ++ lookup G) <$> groups s).

(** What the error paths, the RPCs and the table operations leave as it is:
    the hooks installed on the sessions, the node's own ID, the bucket size
    and the parameters of the checks. *)
Record kept (b b' : Protocol) : Prop := {
  kept_interceptors : interceptors b' = interceptors b;
  kept_afterRecv : afterRecv b' = afterRecv b;
  kept_self : self (table b') = self (table b);
  kept_bucketSize : bucketSize (table b') = bucketSize (table b);
  kept_prefixDiffLen : prefixDiffLen b' = prefixDiffLen b;
  kept_prefixDiffMin : prefixDiffMin b' = prefixDiffMin b;
  kept_c1 : c1 b' = c1 b;
  kept_c2 : c2 b' = c2 b;
}.

End SKademlia.

Module Network.

(** ** [BootstrapPeers] of [network/rpc.go] *)

(** [peer.ID]: a public key and an address. *)
Record ID := mkID {
  PublicKey : list byte;
  Address : string;
}.

(** [network.Keys] *)
Record KeyPair := mkKeyPair {
  PrivateKey : list byte;
  KeyPublicKey : list byte;
}.

Record Network := mkNetwork {
  Keys : KeyPair;
}.

Section bootstrap.
(** [dht.IdSize], [peer.ID.Hex] and [KeyPair.PublicKeyHex] are declared
    outside the sources. *)
Context (IdSize : nat) (Hex : ID → string) (PublicKeyHex : KeyPair → string).

(** The variables of the loop: the queue of the next round, the visited set
    and the two result slices. *)
Record Frontier := mkFrontier {
  queue : list ID;
  visited : gset string;
  addresses : list string;
  publicKeys : list (list byte);
}.

(** The entry of [publicKeys] that a peer contributes. *)
Definition key_entry (p : ID) : list byte := vec_to_list (take_pad IdSize (PublicKey p)).

(** The body of the loop over [response.Peers]. *)
Definition expand (f : Frontier) (peer : ID) : Frontier :=
  if decide (Hex peer ∈ visited f) then f
  else mkFrontier (queue f ++ [peer])
                  ({[Hex peer]} ∪ visited f)
                  (addresses f ++ [Address peer])
                  (publicKeys f ++ [key_entry peer]).

(** The loop over the responses of a round; a response is the list of its
    [Peers]. *)
Definition expand_all (responses : list (list ID)) (f : Frontier) : Frontier :=
  foldl (λ f response, foldl expand f response) f responses.

(** The breadth-first loop.  [rounds] lists, round by round, the responses
    that reached the channel, in the order in which they are read; a round
    has at most one response per queued peer.  The loop has not ended
    ([Diverge]) when the rounds are used up while the queue is not empty. *)
Fixpoint rounds_from (rounds : list (list (list ID))) (f : Frontier)
    : outcome (list string * list (list byte)) :=
  match queue f with
  | [] => Ret (addresses f, publicKeys f)
  | _ :: _ =>
      match rounds with
      | [] => Diverge
      | responses :: rounds =>
          if (length responses <=? length (queue f))%nat
          then rounds_from rounds
                 (expand_all responses
                    (mkFrontier [] (visited f) (addresses f) (publicKeys f)))
          else Diverge
      end
  end.

Definition BootstrapPeers (network : Network) (target : ID) (count : Z)
    (rounds : list (list (list ID))) : outcome (list string * list (list byte)) :=
  rounds_from rounds
    (mkFrontier [target] ({[Hex target]} ∪ {[PublicKeyHex (Keys network)]}) [] []).

(** The result slices list the peers [found], which came out of [pool], each
    once, and none of which renders as one of the strings in [seeded]. *)
Record collected (seeded : gset string) (pool : list ID) (found : list ID)
    (f : Frontier) : Prop := {
  col_addresses : addresses f = Address <$> found;
  col_publicKeys : publicKeys f = key_entry <$> found;
  col_pool : found ⊆ pool;
  col_nodup : NoDup (Hex <$> found);
  col_visited : ∀ p, p ∈ found → Hex p ∈ visited f;
  col_seeded : seeded ⊆ visited f;
  col_fresh : ∀ p, p ∈ found → Hex p ∉ seeded;
}.
End bootstrap.

(** Go's [hex.EncodeToString]. *)
Definition hex_digit (n : N) : byte :=
  nth (N.to_nat n)
      [x30; x31; x32; x33; x34; x35; x36; x37; x38; x39; x61; x62; x63; x64; x65; x66] x30.

Definition hex_EncodeToString (l : list byte) : string :=
  String.string_of_list_byte
    (b ← l; [hex_digit (Byte.to_N b / 16); hex_digit (Byte.to_N b mod 16)]).

(** A concrete network: identifiers of four bytes rendered in hexadecimal,
    and a search from the local node [me] towards [far] that meets two
    rounds of responses. *)
Definition Hex0 (id : ID) : string := hex_EncodeToString (PublicKey id).
Definition PublicKeyHex0 (k : KeyPair) : string := hex_EncodeToString (KeyPublicKey k).

Definition node (b : byte) (addr : string) : ID := mkID [x00; x01; x02; b] addr.
Definition me : Network := mkNetwork (mkKeyPair [xff] [x00; x01; x02; xaa]).
Definition far : ID := node xbb "tcp://far:3000".

Definition rounds0 : list (list (list ID)) :=
  [ [ [node x01 "tcp://a:3000"; node xaa "tcp://me:3000"; node x02 "tcp://b:3000";
       node xbb "tcp://far:3000"] ];
    [ [node x01 "tcp://a:3000"; node x03 "tcp://c:3000"]; [node x02 "tcp://b2:3000"] ];
    [ [] ] ].


Section tracking.
Context (IdSize : nat) (Hex : ID → string).

(** The visited set holds the strings it was seeded with and the renderings
    of the peers [found], whose addresses and key entries make up the two
    result slices. *)
Record tracked (seeded : gset string) (found : list ID) (f : Frontier) : Prop := {
  tr_addresses : addresses f = Address <$> found;
  tr_publicKeys : publicKeys f = key_entry IdSize <$> found;
  tr_visited : visited f = seeded ∪ list_to_set (Hex <$> found);
}.
End tracking.

End Network.

(** * Properties *)

(** ** Byte strings and sorting *)


Lemma length_slice c : length (slice c) = Size256.
Proof. apply length_vec_to_list. Qed.

Lemma slice_inj c1 c2 : slice c1 = slice c2 → c1 = c2.
Proof.
  destruct c1 as [v1], c2 as [v2]. unfold slice; simpl. intros H.
  f_equal. by apply vec_to_list_inj2.
Qed.

Lemma be_uint_bound l : (be_uint l < 256 ^ N.of_nat (length l))%N.
Proof.
  induction l as [|x l IH]; simpl length; simpl be_uint; [reflexivity|].
  pose proof (Byte.to_N_bounded x) as Hx.
  rewrite Nat2N.inj_succ, N.pow_succ_r'. nia.
Qed.

Lemma bytes_Compare_lt a b :
  length a = length b →
  bytes_Compare a b = -1 ↔ (be_uint a < be_uint b)%N.
Proof.
  revert b. induction a as [|x a IH]; intros [|y b] Hlen; simpl in Hlen; try done.
  injection Hlen as Hlen. simpl bytes_Compare. simpl be_uint.
  pose proof (be_uint_bound a) as Ha. pose proof (be_uint_bound b) as Hb.
  rewrite Hlen in Ha |- *. set (p := (256 ^ N.of_nat (length b))%N) in *.
  destruct (N.ltb_spec (Byte.to_N x) (Byte.to_N y)) as [Hxy|Hxy].
  { split; [intros _; nia | done]. }
  destruct (N.ltb_spec (Byte.to_N y) (Byte.to_N x)) as [Hyx|Hyx].
  { split; [done | nia]. }
  assert (Byte.to_N x = Byte.to_N y) as -> by lia.
  rewrite (IH b Hlen). lia.
Qed.

Section sort_facts.
Context {A : Type} (less : A → A → bool).

Lemma insert_by_perm x l : Permutation (x :: l) (insert_by less x l).
Proof.
  induction l as [|h t IH]; simpl; [done|].
  destruct (less x h); [done|].
  rewrite perm_swap. by constructor.
Qed.

Lemma sort_Slice_perm l : Permutation l (sort_Slice less l).
Proof.
  induction l as [|x l IH]; simpl; [done|].
  rewrite <- insert_by_perm. by constructor.
Qed.

Lemma length_sort_Slice l : length (sort_Slice less l) = length l.
Proof. symmetry. apply Permutation_length, sort_Slice_perm. Qed.

(** When [less] compares a key, the output ascends in that key. *)
Context (key : A → N) (Hless : ∀ x y, less x y = true ↔ (key x < key y)%N).

Lemma insert_by_ascending x l : ascending key l → ascending key (insert_by less x l).
Proof.
  unfold ascending. induction 1 as [|h t Hs IH Hh]; simpl.
  - repeat constructor.
  - destruct (less x h) eqn:E.
    + apply Hless in E. constructor; [by constructor|].
      constructor; [lia|]. eapply Forall_impl; [exact Hh|]. simpl; lia.
    + constructor; [done|].
      assert (key h <= key x)%N as Hhx.
      { destruct (N.le_gt_cases (key h) (key x)) as [|Hlt]; [done|].
        apply Hless in Hlt. congruence. }
      rewrite <- (insert_by_perm x t). by constructor.
Qed.

Lemma sort_Slice_ascending l : ascending key (sort_Slice less l).
Proof.
  induction l as [|x l IH]; simpl; [constructor|].
  by apply insert_by_ascending.
Qed.

Lemma ascending_take n l : ascending key l → ascending key (take n l).
Proof.
  unfold ascending. intros Hs. revert n.
  induction Hs as [|h t Hs IH Hh]; intros [|n]; simpl; try constructor.
  - apply IH.
  - apply Forall_forall. intros y Hy. rewrite Forall_forall in Hh.
    apply Hh. eapply subseteq_take, Hy.
Qed.
End sort_facts.

Module SKademliaSpec.
Import SKademlia.

(** ** Identifiers and the routing table *)

Lemma length_xor a b : length a = length b → length (xor a b) = length a.
Proof. intros H. unfold xor. rewrite length_zip_with. lia. Qed.

Lemma closer_spec target x y :
  closer target x y = true ↔
  (XORdistance (checksum x) (checksum target) < XORdistance (checksum y) (checksum target))%N.
Proof.
  unfold closer, XORdistance. rewrite bool_decide_eq_true.
  apply bytes_Compare_lt.
  rewrite !length_xor; by rewrite !length_slice.
Qed.

(** *** What [FindClosest] guarantees *)

Lemma sort_closer_ascending target l :
  ascending (λ x, XORdistance (checksum x) (checksum target))
            (sort_Slice (closer target) l).
Proof. apply sort_Slice_ascending, closer_spec. Qed.

Lemma FindClosest_length t target k :
  0 ≤ k → Z.of_nat (length (FindClosest t target k)) ≤ k.
Proof. intros Hk. unfold FindClosest. rewrite length_take. lia. Qed.

Lemma FindClosest_ascending t target k :
  ascending (λ x, XORdistance (checksum x) (checksum target)) (FindClosest t target k).
Proof. apply ascending_take, sort_closer_ascending. Qed.

Lemma FindClosest_elem t target k x :
  x ∈ FindClosest t target k →
  x ∈ mjoin (buckets t) ∧ checksum x ≠ checksum (self t).
Proof.
  unfold FindClosest. intros Hx%subseteq_take.
  rewrite <- sort_Slice_perm in Hx.
  apply list_elem_of_filter in Hx. tauto.
Qed.

Lemma FindClosest_noself t target k :
  checksum (self t) ∉ checksum <$> FindClosest t target k.
Proof.
  intros (x & Hc & Hx)%list_elem_of_fmap.
  apply FindClosest_elem in Hx as [_ Hne]. congruence.
Qed.

Lemma FindClosest_NoDup t target k :
  Table_ok t → NoDup (checksum <$> FindClosest t target k).
Proof.
  intros Hok. unfold FindClosest.
  eapply sublist_NoDup; [|apply fmap_sublist, sublist_take].
  rewrite <- sort_Slice_perm.
  eapply sublist_NoDup; [apply (ok_nodup _ Hok)|].
  apply fmap_sublist, sublist_filter.
Qed.

(** *** The invariants hold of every table built by the table's methods *)

Lemma prefixLen_le l : (prefixLen l ≤ 8 * length l)%nat.
Proof.
  induction l as [|b l IH]; simpl; [lia|].
  destruct (decide (b = x00)); [lia|]. unfold leading_zeros. lia.
Qed.

Lemma getBucketID_lt a b : (getBucketID a b < 8 * Size256)%nat.
Proof.
  unfold getBucketID.
  pose proof (prefixLen_le (xor (slice b) (slice a))) as H.
  rewrite length_xor, length_slice in H by (by rewrite !length_slice).
  destruct (decide _); [unfold Size256|]; lia.
Qed.

Lemma find_entry_Some c l e :
  find_entry c l = Some e → e ∈ l ∧ checksum e = c.
Proof.
  unfold find_entry. intros H. apply find_some in H as [Hin Hc].
  apply bool_decide_eq_true in Hc. split; [by apply list_elem_of_In|done].
Qed.

Lemma find_entry_None c l :
  find_entry c l = None → c ∉ checksum <$> l.
Proof.
  unfold find_entry. intros H (x & -> & Hx)%list_elem_of_fmap.
  apply list_elem_of_In in Hx.
  pose proof (find_none _ _ H x Hx) as Hn. simpl in Hn.
  by apply bool_decide_eq_false in Hn.
Qed.

Lemma remove_entry_sublist c l : remove_entry c l `sublist_of` l.
Proof.
  induction l as [|x l IH]; simpl; [constructor|].
  destruct (decide _); [by apply sublist_cons | by apply sublist_skip].
Qed.

Lemma remove_entry_perm c l e :
  find_entry c l = Some e → l ≡ₚ e :: remove_entry c l.
Proof.
  unfold find_entry. induction l as [|x l IH]; simpl; [done|].
  destruct (decide (checksum x = c)) as [Hc|Hc].
  - rewrite bool_decide_eq_true_2 by done. by intros [= ->].
  - rewrite bool_decide_eq_false_2 by done. intros H.
    rewrite (IH H) at 1. apply perm_swap.
Qed.

Lemma remove_entry_gone c l :
  NoDup (checksum <$> l) → c ∉ checksum <$> remove_entry c l.
Proof.
  induction l as [|x l IH]; simpl; [intros _; apply not_elem_of_nil|].
  intros [Hx Hl]%NoDup_cons. destruct (decide (checksum x = c)) as [<-|Hc]; [done|].
  rewrite fmap_cons, not_elem_of_cons. split; [congruence | by apply IH].
Qed.

Lemma concat_insert_perm (ls : list (list ID)) i l l' :
  ls !! i = Some l →
  mjoin (<[i := l']> ls) ≡ₚ l' ++ mjoin (delete i ls) ∧
  mjoin ls ≡ₚ l ++ mjoin (delete i ls).
Proof.
  revert i. induction ls as [|h ls IH]; intros [|i] H; simplify_eq/=; [done|].
  destruct (IH i H) as [H1 H2]. split.
  - rewrite H1. by rewrite !app_assoc, (Permutation_app_comm h l').
  - rewrite H2. by rewrite !app_assoc, (Permutation_app_comm h l).
Qed.

Lemma bucket_lookup t i :
  (i < length (buckets t))%nat → buckets t !! i = Some (bucket t i).
Proof. intros Hi. unfold bucket. by apply list_lookup_lookup_total_lt. Qed.

(** Replacing a bucket by at most [K] entries that are placed right and add
    no checksum occurring elsewhere keeps the invariants. *)
Lemma set_bucket_ok t i l' :
  Table_ok t → (i < length (buckets t))%nat →
  (length l' ≤ bucketSize t)%nat →
  (∀ x, x ∈ l' → getBucketID (checksum (self t)) (checksum x) = i) →
  (∀ x, x ∈ l' → checksum x ≠ checksum (self t)) →
  NoDup (checksum <$> l') →
  (∀ x, x ∈ l' → checksum x ∈ checksum <$> mjoin (delete i (buckets t)) → False) →
  Table_ok (set_bucket t i l').
Proof.
  intros [Hlen Hsz Hp Hn Hs] Hi Hsize Hplace Hself Hnd Hfresh.
  pose proof (bucket_lookup t i Hi) as Hb.
  destruct (concat_insert_perm (buckets t) i (bucket t i) l' Hb) as [P1 P2].
  rewrite P2, fmap_app in Hn, Hs.
  apply NoDup_app in Hn as (_ & _ & Hn').
  split; simpl.
  - by rewrite length_insert.
  - intros j l Hj. destruct (decide (i = j)) as [<-|Hij].
    + rewrite list_lookup_insert_eq in Hj by done. by simplify_eq.
    + rewrite list_lookup_insert_ne in Hj by done. eauto.
  - intros j l x Hj Hx. destruct (decide (i = j)) as [<-|Hij].
    + rewrite list_lookup_insert_eq in Hj by done. simplify_eq. by apply Hplace.
    + rewrite list_lookup_insert_ne in Hj by done. eauto.
  - rewrite P1, fmap_app. apply NoDup_app. split_and!; [done| |done].
    intros c (x & -> & Hx)%list_elem_of_fmap Hc. eauto.
  - rewrite P1, fmap_app, elem_of_app. intros [(x & Hc & Hx)%list_elem_of_fmap|Hc].
    + by eapply Hself.
    + apply Hs, elem_of_app. by right.
Qed.

Lemma NewTable_ok id : Table_ok (NewTable id).
Proof.
  assert (mjoin (replicate (8 * Size256) (@nil ID)) = []) as Hc.
  { generalize (8 * Size256)%nat. intros n. induction n; simpl; auto. }
  split; unfold NewTable; cbn [buckets self bucketSize].
  - apply length_replicate.
  - intros i l [-> _]%lookup_replicate. simpl. lia.
  - intros i l x [-> _]%lookup_replicate Hx. by apply elem_of_nil in Hx.
  - rewrite Hc. constructor.
  - rewrite Hc. apply not_elem_of_nil.
Qed.

Section table_steps.
Context (t : Table) (Hok : Table_ok t).

Lemma bucket_in_concat i x : x ∈ bucket t i → x ∈ mjoin (buckets t).
Proof.
  intros Hx. destruct (decide (i < length (buckets t))%nat) as [Hi|Hi].
  - apply list_elem_of_join. exists (bucket t i). split; [done|].
    eapply list_elem_of_lookup_2, bucket_lookup, Hi.
  - unfold bucket in Hx. rewrite list_lookup_total_alt, lookup_ge_None_2 in Hx by lia.
    by apply elem_of_nil in Hx.
Qed.

Lemma bucket_NoDup i : NoDup (checksum <$> bucket t i).
Proof.
  destruct (decide (i < length (buckets t))%nat) as [Hi|Hi].
  - destruct (concat_insert_perm (buckets t) i _ [] (bucket_lookup t i Hi)) as [_ P].
    pose proof (ok_nodup _ Hok) as Hn. rewrite P, fmap_app in Hn.
    by apply NoDup_app in Hn as (? & _ & _).
  - unfold bucket. rewrite list_lookup_total_alt, lookup_ge_None_2 by lia. constructor.
Qed.

Lemma bucket_size i : (length (bucket t i) ≤ bucketSize t)%nat.
Proof.
  destruct (decide (i < length (buckets t))%nat) as [Hi|Hi].
  - eapply (ok_size _ Hok), bucket_lookup, Hi.
  - unfold bucket. rewrite list_lookup_total_alt, lookup_ge_None_2 by lia. simpl. lia.
Qed.

Lemma other_buckets_fresh i x :
  (i < length (buckets t))%nat →
  getBucketID (checksum (self t)) (checksum x) = i →
  checksum x ∉ checksum <$> mjoin (delete i (buckets t)).
Proof.
  intros Hi Hx (y & Hc & Hy)%list_elem_of_fmap.
  apply list_elem_of_join in Hy as (l & Hy & Hl).
  apply list_elem_of_lookup in Hl as [j Hj].
  assert (∃ j', j' ≠ i ∧ buckets t !! j' = Some l) as (j' & Hne & Hj').
  { destruct (decide (j < i)%nat).
    - exists j. rewrite list_lookup_delete_lt in Hj by done. split; [lia|done].
    - exists (S j). rewrite list_lookup_delete_ge in Hj by lia. split; [lia|done]. }
  pose proof (ok_placed _ Hok j' l y Hj' Hy) as Hp. congruence.
Qed.

(** A bucket may be replaced by a rearrangement of some of its entries. *)
Lemma set_bucket_sub_ok i l' :
  (i < length (buckets t))%nat →
  (length l' ≤ length (bucket t i))%nat →
  (∀ x, x ∈ l' → x ∈ bucket t i) →
  NoDup (checksum <$> l') →
  Table_ok (set_bucket t i l').
Proof.
  intros Hi Hlen Hsub Hnd. apply set_bucket_ok; try done.
  - pose proof (bucket_size i). lia.
  - intros x Hx%Hsub. eapply (ok_placed _ Hok); [by apply bucket_lookup|done].
  - intros x Hx%Hsub%bucket_in_concat Hc'. apply (ok_noself _ Hok).
    rewrite <- Hc'. apply list_elem_of_fmap. eauto.
  - intros x Hx%Hsub Hin. eapply other_buckets_fresh; [exact Hi| |exact Hin].
    eapply (ok_placed _ Hok); [by apply bucket_lookup|done].
Qed.

Lemma Table_Update_ok id : Table_ok (Table_Update t id).1.
Proof.
  unfold Table_Update. destruct (decide _) as [|Hself]; [done|].
  set (i := getBucketID _ _).
  assert (i < length (buckets t))%nat as Hi
    by (rewrite (ok_length _ Hok); apply getBucketID_lt).
  pose proof (bucket_NoDup i) as Hnd.
  destruct (find_entry _ _) as [e|] eqn:Hf; simpl.
  - pose proof (remove_entry_perm _ _ _ Hf) as Hperm.
    apply set_bucket_sub_ok; try done.
    + by rewrite Hperm at 2.
    + intros x Hx. by rewrite Hperm.
    + by rewrite <- Hperm.
  - destruct (Nat.ltb_spec (length (bucket t i)) (bucketSize t)); simpl; [|done].
    apply find_entry_None in Hf.
    apply set_bucket_ok; try done.
    + intros x [->|Hx]%elem_of_cons; [done|].
      eapply (ok_placed _ Hok); [by apply bucket_lookup|done].
    + intros x [->|Hx%bucket_in_concat]%elem_of_cons; [done|].
      intros Hc'. apply (ok_noself _ Hok). rewrite <- Hc'. apply list_elem_of_fmap. eauto.
    + rewrite fmap_cons. by constructor.
    + intros x Hx Hin. eapply other_buckets_fresh; [exact Hi| |exact Hin].
      apply elem_of_cons in Hx as [->|Hx]; [done|].
      eapply (ok_placed _ Hok); [by apply bucket_lookup|done].
Qed.

Lemma Table_Delete_ok i id : Table_ok (Table_Delete t i id).1.
Proof.
  unfold Table_Delete. destruct (find_entry _ _) as [e|] eqn:Hf; simpl; [|done].
  destruct (decide (i < length (buckets t))%nat) as [Hi|Hi].
  - apply set_bucket_sub_ok; try done.
    + apply sublist_length, remove_entry_sublist.
    + intros x Hx. eapply elem_of_sublist; [exact Hx|]. apply remove_entry_sublist.
    + eapply sublist_NoDup; [apply (bucket_NoDup i)|].
      apply fmap_sublist, remove_entry_sublist.
  - unfold set_bucket. rewrite list_insert_ge by lia. by destruct t.
Qed.
End table_steps.

Lemma find_entry_elem c l :
  c ∈ checksum <$> l → is_Some (find_entry c l).
Proof.
  intros Hc. destruct (find_entry c l) eqn:Hf; [by eauto|].
  by apply find_entry_None in Hf.
Qed.

Lemma bucket_set_bucket t i l :
  (i < length (buckets t))%nat → bucket (set_bucket t i l) i = l.
Proof.
  intros Hi. unfold bucket, set_bucket; simpl.
  apply list_lookup_total_correct. by rewrite list_lookup_insert_eq.
Qed.

(** Deleting the back entry of a full bucket makes room: the table update
    that was refused goes through. *)
Lemma Table_Delete_makes_room t id lastid x :
  Table_ok t →
  (Table_Update t id).2 = Some ErrBucketFull →
  Back (bucket t (getBucketID (checksum (self t)) (checksum id))) = Some lastid →
  checksum x = checksum lastid →
  (Table_Update (Table_Delete t (getBucketID (checksum (self t)) (checksum id)) x).1 id).2
    = None.
Proof.
  intros Hok Hfull Hback Hx. set (i := getBucketID _ _) in *.
  assert (i < length (buckets t))%nat as Hi
    by (rewrite (ok_length _ Hok); apply getBucketID_lt).
  assert (checksum id ≠ checksum (self t)) as Hself.
  { unfold Table_Update in Hfull. by destruct (decide _). }
  assert (is_Some (find_entry (checksum x) (bucket t i))) as [e He].
  { apply find_entry_elem. rewrite Hx. apply list_elem_of_fmap. exists lastid.
    split; [done|]. by apply last_Some_elem_of. }
  unfold Table_Delete. rewrite He. cbn [fst].
  unfold Table_Update. cbn [self set_bucket bucketSize]. rewrite decide_False by done.
  fold i. change (mkTable (self t) (<[i:=?l]> (buckets t)) (bucketSize t))
    with (set_bucket t i l).
  rewrite bucket_set_bucket by done.
  destruct (find_entry (checksum id) _); [done|].
  pose proof (remove_entry_perm _ _ _ He) as Hperm.
  apply Permutation_length in Hperm. simpl in Hperm.
  pose proof (bucket_size t Hok i).
  destruct (Nat.ltb_spec (length (remove_entry (checksum x) (bucket t i))) (bucketSize t));
    [done|lia].
Qed.

(** ** The codec and the puzzle checks on examples *)

Example Marshal_roundtrip :
  let id := ID0 "10.0.0.7:3000" [x00; x00; x2a] in
  UnmarshalID H0 (MarshalID id) = (id, None) ∧
  UnmarshalIDs H0 (MarshalIDs [id; id]) = ([id; id], None).
Proof. by vm_compute. Qed.

Example verifyPuzzle_examples :
  verifyPuzzle H0 (H0 [x00; x00; x2a]) (H0 [x00; x00; x2a]) 16 16 = None ∧
  verifyPuzzle H0 (H0 [x80]) (H0 [x80]) 16 16 ≠ None.
Proof. by vm_compute. Qed.

Example prefixDiff_examples :
  prefixDiff [x0f; xff] [x0f; xff] 16 = 0 ∧
  prefixDiff [x00; x00] [xff; xff] 16 = 16 ∧
  prefixDiff [x00; x00] [xff; xff] 12 = 12.
Proof. by vm_compute. Qed.

Example getBucketID_examples :
  getBucketID (H0 []) (H0 [x80]) = 0%nat ∧
  getBucketID (H0 []) (H0 [x00; x01]) = 15%nat ∧
  getBucketID (H0 []) (mkChecksum (take_pad Size256 (replicate 31 x00 ++ [x01]))) = 255%nat.
Proof. by vm_compute. Qed.

(** ** The protocol, for every codec and puzzle check *)

Section protocol_facts.
Context (UnmarshalID : list byte → ID * option error)
        (UnmarshalIDs : list byte → list ID * option error)
        (MarshalID : ID → list byte)
        (MarshalIDs : list ID → list byte)
        (verifyPuzzle : Checksum → Checksum → Z → Z → option error)
        (prefixDiff : list byte → list byte → Z → Z).

#[local] Set Default Proof Using "Type*".

Local Abbreviation Ping := (SKademlia.Ping UnmarshalID verifyPuzzle prefixDiff).
Local Abbreviation Lookup := (SKademlia.Lookup UnmarshalIDs MarshalID).
Local Abbreviation Update_body := (SKademlia.Update_body UnmarshalID verifyPuzzle prefixDiff).
Local Abbreviation Update_from := (SKademlia.Update_from UnmarshalID verifyPuzzle prefixDiff).
Local Abbreviation Update := (SKademlia.Update UnmarshalID verifyPuzzle prefixDiff).
Local Abbreviation register := (SKademlia.register UnmarshalID verifyPuzzle prefixDiff).
Local Abbreviation Handshake := (SKademlia.Handshake UnmarshalID verifyPuzzle prefixDiff).
Local Abbreviation serve := (SKademlia.serve UnmarshalID MarshalID MarshalIDs).
Local Abbreviation validated := (SKademlia.validated verifyPuzzle prefixDiff).
Local Abbreviation after_recv := (SKademlia.after_recv UnmarshalID verifyPuzzle prefixDiff).
Local Abbreviation reachable :=
  (SKademlia.reachable UnmarshalID MarshalID MarshalIDs verifyPuzzle prefixDiff).

(** *** Record updates *)

Lemma set_table_id b : set_table (table b) b = b.
Proof. by destruct b. Qed.

Lemma Ping_state p io b : (Ping p io b).1 = emit (Send p 3 [] (send_result io)) b.
Proof.
  unfold SKademlia.Ping. destruct (send_result io); [done|].
  destruct (selected io) as [| |buf]; try done.
  destruct (UnmarshalID buf) as [id [e|]]; [done|].
  cbn [c1 c2 emit nonce]. destruct (verifyPuzzle _ _ _ _); [done|].
  by destruct (_ <? _).
Qed.

(** *** [Ping] *)

(** C2.  [Ping] returns an ID only together with a nil error, only for a pong
    that was received after a successful send, that unmarshals to that ID, and
    whose ID passes [verifyPuzzle] and has a prefix difference of at least
    [prefixDiffMin] to the node's own checksum.  When the cancellation or the
    timer is selected, when the pong does not unmarshal, or when one of the
    two checks fails, [Ping] returns an error and no ID. *)
Theorem Ping_returns_validated_id_or_error p io b :
  (∀ id err, (Ping p io b).2 = (Some id, err) →
     err = None ∧ send_result io = None ∧
     (∃ buf, selected io = Received buf ∧ UnmarshalID buf = (id, None)) ∧
     validated b id) ∧
  (selected io = Cancelled ∨ selected io = TimedOut ∨
   (∃ buf id uerr, selected io = Received buf ∧ UnmarshalID buf = (id, uerr) ∧
      (uerr ≠ None ∨ ¬ validated b id)) →
   ∃ e, (Ping p io b).2 = (None, Some e)).
Proof.
  unfold SKademlia.validated, SKademlia.Ping. cbn [c1 c2 prefixDiffLen prefixDiffMin table emit].
  split.
  - intros id err. destruct (send_result io); [done|].
    destruct (selected io) as [| |buf]; try done.
    destruct (UnmarshalID buf) as [id' [e|]] eqn:Hu; [done|].
    destruct (verifyPuzzle _ _ _ _) eqn:Hv; [done|].
    destruct (Z.ltb_spec (prefixDiff (slice (checksum (self (table b))))
                (slice (checksum id')) (prefixDiffLen b)) (prefixDiffMin b)); [done|].
    intros [= <- <-]. split_and!; eauto.
  - intros Hfail. destruct (send_result io); [by eauto|].
    destruct Hfail as [->|[->|(buf & id & uerr & -> & Hu & Hbad)]]; [by eauto..|].
    rewrite Hu. destruct uerr as [e|]; [by eauto|].
    destruct (verifyPuzzle _ _ _ _) eqn:Hv; [by eauto|].
    destruct (Z.ltb_spec (prefixDiff (slice (checksum (self (table b))))
                (slice (checksum id)) (prefixDiffLen b)) (prefixDiffMin b)); [by eauto|].
    destruct Hbad as [?|Hbad]; [done|]. destruct Hbad. by split.
Qed.

(** *** [Lookup] *)

(** C4, as the code has it.  An ID list that [Lookup] returns without error is
    the list that [UnmarshalIDs] decoded from the frame received after a
    successful send, whatever its length: [Lookup] compares no length with
    the bucket size. *)
Theorem Lookup_returns_decoded_list p target io b ids :
  (Lookup p target io b).2 = (ids, None) →
  send_result io = None ∧
  ∃ buf, selected io = Received buf ∧ UnmarshalIDs buf = (ids, None).
Proof.
  unfold SKademlia.Lookup. destruct (send_result io); [done|].
  destruct (selected io) as [| |buf]; try done. eauto.
Qed.

(** *** The request-serving loop *)

Lemma trace_emit e b : trace (emit e b) = trace b ++ [e].
Proof. done. Qed.

Lemma trace_set_table t b : trace (set_table t b) = trace b.
Proof. done. Qed.

Lemma trace_set_peers m b : trace (set_peers m b) = trace b.
Proof. done. Qed.

Lemma trace_evict id b : ∃ l, trace (evict id b) = trace b ++ l.
Proof. unfold evict. rewrite trace_set_table, trace_emit. eauto. Qed.

Lemma trace_intercept id err b : ∃ l, trace (intercept id err b) = trace b ++ l.
Proof.
  unfold intercept.
  destruct (trace_evict id (set_peers (delete (checksum id) (peers b)) b)) as [l Hl].
  rewrite trace_set_peers in Hl.
  destruct (is_net_timeout err); [by eauto|].
  destruct (decide _); [by eauto|].
  exists []. by rewrite app_nil_r.
Qed.

Lemma trace_report_error p err b : ∃ l, trace (report_error p err b) = trace b ++ l.
Proof.
  unfold report_error. generalize (default [] (interceptors b !! p)). intros ids.
  revert b. induction ids as [|id ids IH]; intros b; simpl.
  - exists []. by rewrite app_nil_r.
  - destruct (IH (intercept id err b)) as [l ->].
    destruct (trace_intercept id err b) as [l' ->].
    exists (l' ++ l). by rewrite app_assoc.
Qed.

Lemma trace_Disconnect p err b :
  ∃ l, trace (Disconnect p err b) = trace b ++ Disconnected p err :: l.
Proof.
  unfold Disconnect. destruct err as [e|].
  - destruct (trace_report_error p e (emit (Disconnected p (Some e)) b)) as [l ->].
    rewrite trace_emit. exists l. by rewrite <- app_assoc.
  - by exists [].
Qed.

(** A lookup request that does not decode: the session is disconnected, and
    the loop goes on to answer the request, for whatever [UnmarshalID] left
    in [target]. *)
Lemma serve_undecodable_lookup p buf send b target e :
  UnmarshalID buf = (target, Some e) →
  let b' := Disconnect p (Some (Wrap e "sent invalid lookup request")) b in
  ∃ l1 l2,
    trace (serve p (LookupRequest buf send) b) =
    trace b ++
    Disconnected p (Some (Wrap e "sent invalid lookup request")) :: l1 ++
    Send p 4 (MarshalIDs (FindClosest (table b') target (Z.of_nat (bucketSize (table b')))))
         send :: l2.
Proof.
  intros Hu b'. unfold SKademlia.serve. rewrite Hu. fold b'.
  destruct (trace_Disconnect p (Some (Wrap e "sent invalid lookup request")) b) as [l1 Hl1].
  fold b' in Hl1.
  destruct send as [se|].
  - edestruct trace_Disconnect as [l2 ->]. rewrite trace_emit, Hl1.
    exists l1, (Disconnected p (Some (Wrap se "failed tpo send lookup response")) :: l2).
    by rewrite <- !app_assoc.
  - rewrite trace_emit, Hl1. exists l1, []. by rewrite <- !app_assoc.
Qed.

(** A lookup request that decodes is answered with the marshalled result of
    [FindClosest(target, K)]. *)
Lemma serve_decodable_lookup p buf b target :
  UnmarshalID buf = (target, None) →
  trace (serve p (LookupRequest buf None) b) =
  trace b ++
  [Send p 4 (MarshalIDs (FindClosest (table b) target (Z.of_nat (bucketSize (table b)))))
        None].
Proof. intros Hu. unfold SKademlia.serve. by rewrite Hu. Qed.

(** *** The error interceptor *)

Lemma intercept_eq id err b :
  intercept id err b =
  (if timed_out err then evict id else λ b, b)
    (set_peers (delete (checksum id) (peers b)) b).
Proof.
  unfold intercept, timed_out. destruct (is_net_timeout err); [done|]. simpl.
  destruct (decide (Cause err = ErrTimeout)).
  - by rewrite bool_decide_eq_true_2.
  - by rewrite bool_decide_eq_false_2.
Qed.

Lemma timed_out_iff err :
  timed_out err = true ↔
  match err with NetError t _ => t = true | _ => False end ∨ Cause err = ErrTimeout.
Proof.
  unfold timed_out. rewrite orb_true_iff, bool_decide_eq_true.
  split; (intros [Hn|Hc]; [left|by right]); by destruct err.
Qed.

(** C6.  On every error it intercepts, the interceptor installed by
    [Handshake] removes the entry of the peer's checksum from the registry;
    it goes on to [evict] the peer's ID, which reports the eviction and
    deletes the ID from its bucket, exactly when the error is a network
    error that timed out or has [ErrTimeout] as its cause; otherwise it
    leaves the table and the trace as they are. *)
Theorem intercept_unregisters_and_evicts_on_timeout id err b :
  let b' := set_peers (delete (checksum id) (peers b)) b in
  peers (intercept id err b) = delete (checksum id) (peers b) ∧
  intercept id err b = (if timed_out err then evict id b' else b') ∧
  trace (intercept id err b) =
    trace b ++
    (if timed_out err
     then [Printf "Peer %s could not be reached, and has been evicted." id]
     else []) ∧
  table (intercept id err b) =
    (if timed_out err
     then (Table_Delete (table b) (getBucketID (checksum (self (table b))) (checksum id)) id).1
     else table b) ∧
  (timed_out err = true ↔
   match err with NetError t _ => t = true | _ => False end ∨ Cause err = ErrTimeout).
Proof.
  intros b'. rewrite intercept_eq. fold b'.
  split_and!; try (by destruct (timed_out err)); [|apply timed_out_iff].
  destruct (timed_out err); [done|]. by rewrite app_nil_r.
Qed.

(** *** [Update] *)

Lemma Table_Update_full t id t' e :
  Table_Update t id = (t', Some e) →
  t' = t ∧ e = ErrBucketFull ∧
  find_entry (checksum id) (bucket t (getBucketID (checksum (self t)) (checksum id))) = None.
Proof.
  unfold Table_Update. destruct (decide _); [done|].
  destruct (find_entry _ _); [done|]. destruct (_ <? _)%nat; [done|].
  by intros [= <- <-].
Qed.

(** One turn of the loop of [Update]. *)
Lemma Update_from_S fuel id pings n b :
  Update_from (S fuel) id pings n b =
  if decide ((Table_Update (table b) id).2 = Some ErrBucketFull) then
    match Update_body id (pings n) b with
    | (b, Retry) => Update_from fuel id pings (S n) b
    | (b, Return err) => (b, Ret err)
    | (b, Fault) => (b, Panic)
    end
  else (set_table (Table_Update (table b) id).1 b, Ret None).
Proof.
  cbn [SKademlia.Update_from]. destruct (Table_Update (table b) id) as [t r] eqn:Ht.
  cbn [fst snd]. destruct (decide (r = Some ErrBucketFull)) as [->|]; [|done].
  apply Table_Update_full in Ht as (-> & _ & _). by rewrite set_table_id.
Qed.

(** A turn of the loop of [Update] that finds the bucket full. *)
Lemma Update_turn fuel id pings n b :
  (Table_Update (table b) id).2 = Some ErrBucketFull →
  Update_from (S fuel) id pings n b =
  match Update_body id (pings n) b with
  | (b, Retry) => Update_from fuel id pings (S n) b
  | (b, Return err) => (b, Ret err)
  | (b, Fault) => (b, Panic)
  end.
Proof. intros Hfull. rewrite Update_from_S. by rewrite decide_True. Qed.

Section Update_body_cases.
Context (id : ID) (io : RPC) (b : Protocol) (lastid : ID).
Context (Hback : Back (bucket (table b)
                         (getBucketID (checksum (self (table b))) (checksum id)))
                 = Some lastid).

Lemma Update_body_without_session :
  peers b !! checksum lastid = None →
  Update_body id io b =
  (set_table (Table_Delete (table b)
                (getBucketID (checksum (self (table b))) (checksum id)) lastid).1 b,
   Retry).
Proof. intros Hnone. unfold SKademlia.Update_body. cbv zeta. by rewrite Hback, Hnone. Qed.

Lemma Update_body_with_session lastp :
  peers b !! checksum lastid = Some lastp →
  Update_body id io b =
  match (Ping lastp io b).2 with
  | (_, Some _) =>
      (Disconnect lastp (Some (Wrap ErrTimeout ping_failed)) (Ping lastp io b).1, Retry)
  | (None, None) => ((Ping lastp io b).1, Fault)
  | (Some pid, None) =>
      if same_id pid lastid
      then (emit (Printf "Routing table is full; evicting peer %s." id) (Ping lastp io b).1,
            Return (Some (Wrap ErrDisconnect cannot_evict)))
      else (Disconnect lastp (Some (Wrap ErrTimeout ping_invalid)) (Ping lastp io b).1,
            Retry)
  end.
Proof.
  intros Hsome. unfold SKademlia.Update_body. cbv zeta. rewrite Hback, Hsome.
  by destruct (Ping lastp io b) as [b1 [[pid|] [err|]]].
Qed.

Lemma Update_body_Return b' r :
  Update_body id io b = (b', Return r) →
  r = Some (Wrap ErrDisconnect cannot_evict) ∧
  ∃ lastp pid, peers b !! checksum lastid = Some lastp ∧
    (Ping lastp io b).2 = (Some pid, None) ∧ same_id pid lastid = true.
Proof.
  destruct (peers b !! checksum lastid) as [lastp|] eqn:Hp.
  - rewrite (Update_body_with_session lastp Hp).
    destruct (Ping lastp io b).2 as [[pid|] [err|]] eqn:HP; try done.
    destruct (same_id pid lastid) eqn:Hsame; [|done].
    intros [= <- <-]. eauto 6.
  - by rewrite (Update_body_without_session Hp).
Qed.
End Update_body_cases.

Lemma same_id_true pid lastid :
  same_id pid lastid = true ↔
  checksum pid = checksum lastid ∧ nonce pid = nonce lastid ∧
  address pid = address lastid.
Proof.
  unfold same_id. rewrite !andb_true_iff, !bool_decide_eq_true.
  split; [intros [[? ?] ?]|intros (? & ? & ?)]; auto.
Qed.

(** C3.  When [table.Update(id)] reports a full bucket, [Update] looks at the
    back entry [lastid] of the bucket of [id].  Without a session for
    [lastid] in the registry, [lastid] is deleted from the bucket and the
    loop goes round again.  With a session, the session is pinged: when the
    ping fails, or answers an ID that differs from [lastid] in checksum,
    nonce or address, the session is disconnected with an error whose cause is
    [ErrTimeout] and the loop goes round again; when it answers [lastid],
    [Update] returns the rejection error and the table is as it was, without
    [id].  The body of the loop returns in no other case. *)
Theorem Update_probes_back_of_full_bucket fuel id pings n b lastid :
  (Table_Update (table b) id).2 = Some ErrBucketFull →
  Back (bucket (table b) (getBucketID (checksum (self (table b))) (checksum id)))
    = Some lastid →
  let i := getBucketID (checksum (self (table b))) (checksum id) in
  let whole := Update_from (S fuel) id pings n b in
  (peers b !! checksum lastid = None →
     whole = Update_from fuel id pings (S n)
               (set_table (Table_Delete (table b) i lastid).1 b)) ∧
  (∀ lastp, peers b !! checksum lastid = Some lastp →
     let b1 := (Ping lastp (pings n) b).1 in
     let pong := (Ping lastp (pings n) b).2 in
     (∀ pid e, pong = (pid, Some e) →
        whole = Update_from fuel id pings (S n)
                  (Disconnect lastp (Some (Wrap ErrTimeout ping_failed)) b1)) ∧
     (∀ pid, pong = (Some pid, None) → same_id pid lastid = false →
        whole = Update_from fuel id pings (S n)
                  (Disconnect lastp (Some (Wrap ErrTimeout ping_invalid)) b1)) ∧
     (∀ pid, pong = (Some pid, None) → same_id pid lastid = true →
        whole = (emit (Printf "Routing table is full; evicting peer %s." id) b1,
                 Ret (Some (Wrap ErrDisconnect cannot_evict))) ∧
        table whole.1 = table b ∧
        find_entry (checksum id) (bucket (table whole.1) i) = None)) ∧
  (∀ b' r, Update_body id (pings n) b = (b', Return r) →
     r = Some (Wrap ErrDisconnect cannot_evict) ∧
     ∃ lastp pid, peers b !! checksum lastid = Some lastp ∧
       (Ping lastp (pings n) b).2 = (Some pid, None) ∧
       checksum pid = checksum lastid ∧ nonce pid = nonce lastid ∧
       address pid = address lastid).
Proof.
  intros Hfull Hback i whole.
  assert (find_entry (checksum id) (bucket (table b) i) = None) as Hfind.
  { destruct (Table_Update (table b) id) as [t r] eqn:Ht. simpl in Hfull. subst r.
    by apply Table_Update_full in Ht as (_ & _ & ?). }
  unfold whole. rewrite (Update_turn _ _ _ _ _ Hfull).
  split_and!.
  - intros Hnone. by rewrite (Update_body_without_session _ _ _ _ Hback Hnone).
  - intros lastp Hsome. cbv zeta.
    rewrite (Update_body_with_session _ _ _ _ Hback _ Hsome).
    split_and!.
    + intros pid e ->. by destruct pid.
    + by intros pid -> ->.
    + intros pid -> ->. cbn [fst]. by rewrite Ping_state.
  - intros b' r Hret.
    destruct (Update_body_Return _ _ _ _ Hback _ _ Hret)
      as (-> & lastp & pid & Hsome & HP & Hsame%same_id_true).
    split; [done|]. by exists lastp, pid.
Qed.

(** With a table update that succeeds at once, [Update] returns nil. *)
Lemma Update_at_once fuel id pings b t :
  Table_Update (table b) id = (t, None) →
  Update (S fuel) id pings b = (set_table t b, Ret None).
Proof.
  intros Ht. unfold SKademlia.Update. rewrite Update_from_S, Ht. cbn [fst snd].
  by rewrite decide_False.
Qed.

(** *** The table invariants along a run *)

Lemma evict_ok id b : Table_ok (table b) → Table_ok (table (evict id b)).
Proof. intros Hok. by apply Table_Delete_ok. Qed.

Lemma intercept_ok id err b : Table_ok (table b) → Table_ok (table (intercept id err b)).
Proof.
  intros Hok. unfold intercept.
  destruct (is_net_timeout err); [by apply evict_ok|].
  destruct (decide _); [by apply evict_ok|done].
Qed.

Lemma report_error_ok p err b :
  Table_ok (table b) → Table_ok (table (report_error p err b)).
Proof.
  unfold report_error. generalize (default [] (interceptors b !! p)). intros ids.
  revert b. induction ids as [|id ids IH]; intros b Hok; simpl; [done|].
  by apply IH, intercept_ok.
Qed.

Lemma Disconnect_ok p err b :
  Table_ok (table b) → Table_ok (table (Disconnect p err b)).
Proof.
  intros Hok. unfold Disconnect. destruct err; [|done]. by apply report_error_ok.
Qed.

Lemma Ping_ok p io b : Table_ok (table b) → Table_ok (table (Ping p io b).1).
Proof. by rewrite Ping_state. Qed.

Lemma Update_body_ok id io b :
  Table_ok (table b) → Table_ok (table (Update_body id io b).1).
Proof.
  intros Hok. unfold SKademlia.Update_body. cbv zeta.
  destruct (Back _) as [lastid|]; [|done].
  destruct (peers b !! checksum lastid) as [lastp|]; [|by apply Table_Delete_ok].
  pose proof (Ping_ok lastp io b Hok) as HP.
  destruct (Ping lastp io b) as [b1 [pid err]]. simpl in HP.
  destruct err; [by apply Disconnect_ok|]. destruct pid as [pid|]; [|done].
  destruct (same_id pid lastid); [done|]. by apply Disconnect_ok.
Qed.

Lemma Update_from_ok fuel id pings n b :
  Table_ok (table b) → Table_ok (table (Update_from fuel id pings n b).1).
Proof.
  revert n b. induction fuel as [|fuel IH]; intros n b Hok; [done|].
  rewrite Update_from_S. destruct (decide _).
  - pose proof (Update_body_ok id (pings n) b Hok) as Hb.
    destruct (Update_body id (pings n) b) as [b1 [|err|]]; simpl in Hb; [|done..].
    by apply IH.
  - by apply Table_Update_ok.
Qed.

Lemma register_ok fuel p id io b :
  Table_ok (table b) → Table_ok (table (register fuel p id io b).1).
Proof.
  intros Hok. unfold SKademlia.register, SKademlia.Update.
  pose proof (Update_from_ok fuel id (hs_pings io) 0
                (set_peers (<[checksum id := p]> (peers b)) b) Hok) as Hu.
  destruct (Update_from _ _ _ _ _) as [b1 [[err|]| |]]; done.
Qed.

Lemma PeerByID_ok id byaddr dial b :
  Table_ok (table b) → Table_ok (table (PeerByID id byaddr dial b).1).
Proof.
  intros Hok. unfold PeerByID. destruct (peers b !! checksum id); [done|].
  destruct byaddr; [done|]. destruct dial; [done|]. by apply evict_ok.
Qed.

Lemma Handshake_ok fuel p io b :
  Table_ok (table b) → Table_ok (table (Handshake fuel p io b).1).
Proof.
  intros Hok. unfold SKademlia.Handshake.
  pose proof (Ping_ok p (hs_ping io) b Hok) as HP.
  destruct (Ping p (hs_ping io) b) as [b1 [pid err]]. simpl in HP.
  destruct pid as [id|], err as [e|]; try exact HP.
  destruct (_ && _); [|by apply register_ok].
  pose proof (PeerByID_ok id (hs_byaddr io) (hs_dial io) b1 HP) as HB.
  destruct (PeerByID _ _ _ _) as [b2 [reachable|]]; [|exact HB].
  by apply register_ok, Disconnect_ok.
Qed.

Lemma serve_ok p req b : Table_ok (table b) → Table_ok (table (serve p req b)).
Proof.
  intros Hok. unfold SKademlia.serve. destruct req as [send|buf send].
  - destruct send; [by apply Disconnect_ok|done].
  - destruct (UnmarshalID buf) as [target err].
    assert (Table_ok (table match err with
                            | Some e => Disconnect p
                                (Some (Wrap e "sent invalid lookup request")) b
                            | None => b
                            end)) as Hok1
      by (destruct err; [by apply Disconnect_ok|done]).
    destruct send; [by apply Disconnect_ok|done].
Qed.

Lemma refresh_ok fuel p pings id b :
  Table_ok (table b) →
  Table_ok (table (SKademlia.refresh UnmarshalID verifyPuzzle prefixDiff fuel p pings id b).1).
Proof.
  intros Hok. unfold SKademlia.refresh, SKademlia.Update.
  pose proof (Update_from_ok fuel id pings 0 b Hok) as Hu.
  destruct (Update_from _ _ _ _ _) as [b1 [[err|]| |]]; simpl in Hu; try done.
  by apply Disconnect_ok.
Qed.

Lemma after_recv_ok fuel p pings b :
  Table_ok (table b) → Table_ok (table (after_recv fuel p pings b).1).
Proof.
  unfold SKademlia.after_recv. generalize (default [] (afterRecv b !! p)). intros ids.
  generalize (Ret () : outcome unit). intros r.
  revert b r. induction ids as [|id ids IH]; intros b r Hok; simpl; [done|].
  destruct r; try by apply IH.
  pose proof (refresh_ok fuel p pings id b Hok) as Hr.
  destruct (SKademlia.refresh _ _ _ _ _ _ _ _) as [b1 r1]. by apply IH.
Qed.

(** The table of a node satisfies the table invariants in every state of
    every run. *)
Lemma reachable_ok b : reachable b → Table_ok (table b).
Proof.
  induction 1 as [selfid|fuel p io b _ IH|p req b _ IH|fuel p pings b _ IH
                 |p err b _ IH|p err b _ IH|id byaddr dial b _ IH].
  - apply NewTable_ok.
  - by apply Handshake_ok.
  - by apply serve_ok.
  - by apply after_recv_ok.
  - by apply report_error_ok.
  - by apply Disconnect_ok.
  - by apply PeerByID_ok.
Qed.

(** *** When [Update] returns, and when it does not *)

(** The back entry of the full bucket has no session: it is deleted, and the
    second turn of the loop inserts the new ID. *)
Lemma Update_returns_without_session fuel id pings n b lastid :
  Table_ok (table b) →
  (Table_Update (table b) id).2 = Some ErrBucketFull →
  Back (bucket (table b) (getBucketID (checksum (self (table b))) (checksum id)))
    = Some lastid →
  peers b !! checksum lastid = None →
  (Update_from (S (S fuel)) id pings n b).2 = Ret None.
Proof.
  intros Hok Hfull Hback Hnone.
  rewrite (Update_turn _ _ _ _ _ Hfull).
  rewrite (Update_body_without_session _ _ _ _ Hback Hnone).
  rewrite Update_from_S. cbn [table set_table].
  rewrite (Table_Delete_makes_room _ _ lastid lastid) by done.
  by rewrite decide_False.
Qed.

(** Disconnecting, with an error that counts as a timeout, a session on which
    one interceptor is installed. *)
Lemma Disconnect_intercepted p e b id' :
  interceptors b !! p = Some [id'] → timed_out e = true →
  table (Disconnect p (Some e) b) =
    (Table_Delete (table b) (getBucketID (checksum (self (table b))) (checksum id')) id').1 ∧
  peers (Disconnect p (Some e) b) = delete (checksum id') (peers b).
Proof.
  intros Hint He. unfold Disconnect, report_error. cbn [interceptors emit].
  rewrite Hint. simpl. by rewrite intercept_eq, He.
Qed.

(** The back entry of the full bucket has a session that carries the
    interceptor of its handshake, and the ping of it fails: the session is
    disconnected, the interceptor evicts the entry, and the second turn of
    the loop inserts the new ID. *)
Lemma Update_returns_with_interceptor fuel id pings n b lastid lastp id' pid e :
  Table_ok (table b) →
  (Table_Update (table b) id).2 = Some ErrBucketFull →
  Back (bucket (table b) (getBucketID (checksum (self (table b))) (checksum id)))
    = Some lastid →
  peers b !! checksum lastid = Some lastp →
  interceptors b !! lastp = Some [id'] → checksum id' = checksum lastid →
  (Ping lastp (pings n) b).2 = (pid, Some e) →
  (Update_from (S (S fuel)) id pings n b).2 = Ret None.
Proof.
  intros Hok Hfull Hback Hsome Hint Hid' Hping.
  rewrite (Update_turn _ _ _ _ _ Hfull).
  rewrite (Update_body_with_session _ _ _ _ Hback _ Hsome), Hping.
  assert (∀ X : Protocol * Step, match pid with Some _ => X | None => X end = X) as ->
    by (by destruct pid).
  rewrite Ping_state, Update_from_S.
  destruct (Disconnect_intercepted lastp (Wrap ErrTimeout ping_failed)
              (emit (Send lastp 3 [] (send_result (pings n))) b) id' Hint eq_refl)
    as [Ht _].
  rewrite Ht. cbn [table emit self]. rewrite Hid'.
  assert (getBucketID (checksum (self (table b))) (checksum lastid)
          = getBucketID (checksum (self (table b))) (checksum id)) as ->.
  { eapply (ok_placed _ Hok); [|by apply last_Some_elem_of].
    apply bucket_lookup. rewrite (ok_length _ Hok). apply getBucketID_lt. }
  rewrite (Table_Delete_makes_room _ _ lastid id') by done.
  by rewrite decide_False.
Qed.

(** A ping that gets no answer fails. *)
Lemma Ping_unanswered p io b :
  unanswered io → ∃ e, (Ping p io b).2 = (None, Some e).
Proof.
  unfold unanswered, SKademlia.Ping. intros Hio.
  destruct (send_result io); [by eauto|].
  destruct Hio as [?|[->| ->]]; [done|by eauto..].
Qed.

(** The back entry of the full bucket has a session on which no interceptor
    is installed, and no ping of it is answered: a turn of the loop leaves
    the table, the registry and the interceptors as they were, and [Update]
    has not returned after any number of turns. *)
Lemma Update_spins_without_interceptor fuel id pings n b0 lastid lastp b :
  (Table_Update (table b0) id).2 = Some ErrBucketFull →
  Back (bucket (table b0) (getBucketID (checksum (self (table b0))) (checksum id)))
    = Some lastid →
  peers b0 !! checksum lastid = Some lastp →
  interceptors b0 !! lastp = None →
  (∀ m, unanswered (pings m)) →
  table b = table b0 → peers b = peers b0 → interceptors b = interceptors b0 →
  (Update_from fuel id pings n b).2 = Diverge.
Proof.
  intros Hfull Hback Hsome Hint Hpings.
  revert n b. induction fuel as [|fuel IH]; intros n b Ht Hp Hi; [done|].
  rewrite <- Ht in Hfull, Hback. rewrite <- Hp in Hsome.
  rewrite (Update_turn _ _ _ _ _ Hfull).
  rewrite (Update_body_with_session _ _ _ _ Hback _ Hsome).
  destruct (Ping_unanswered lastp (pings n) b (Hpings n)) as [e ->].
  rewrite Ping_state. apply IH.
  - unfold Disconnect, report_error. cbn [interceptors emit]. by rewrite Hi, Hint.
  - unfold Disconnect, report_error. cbn [interceptors emit]. by rewrite Hi, Hint.
  - unfold Disconnect, report_error. cbn [interceptors emit]. by rewrite Hi, Hint.
Qed.

(** A handshake that succeeds leaves the session registered under the
    checksum of the ID and the interceptor and the hook for that ID installed
    on it, provided the table update goes through at once. *)
Lemma register_installs fuel p id io b t :
  Table_Update (table b) id = (t, None) →
  let b' := (register (S fuel) p id io b).1 in
  (register (S fuel) p id io b).2 = Ret (Some id, None) ∧
  peers b' !! checksum id = Some p ∧
  interceptors b' !! p = Some (default [] (interceptors b !! p) ++ [id]) ∧
  afterRecv b' !! p = Some (default [] (afterRecv b !! p) ++ [id]).
Proof.
  intros Ht. unfold SKademlia.register.
  rewrite (Update_at_once _ _ _ _ t) by done. cbn.
  split_and!; [done|..]; apply lookup_insert_eq.
Qed.

(** A handshake whose table update is refused leaves the session in the
    registry, where it was entered before the update, and installs no
    interceptor on it. *)
Lemma register_rejected fuel p id io b b' err :
  Update fuel id (hs_pings io) (set_peers (<[checksum id := p]> (peers b)) b)
    = (b', Ret (Some err)) →
  register fuel p id io b = (signal p b', Ret (None, Some err)).
Proof. intros Hu. unfold SKademlia.register. by rewrite Hu. Qed.

(** *** [Handshake] *)

(** C7, as the code has it.  After a successful [Ping], [Handshake] consults
    [PeerByID] exactly when the remote's checksum is not in the registry and
    the session's remote address differs from [id.address].  [PeerByID] then
    reuses a session that the transport has open to [id.address], and dials
    otherwise.  When the dial fails, [PeerByID] evicts [id] from the routing
    table and yields no session, and [Handshake] fails with [ErrTimeout]: the
    registry is as it was and the table is as it was except for the deletion
    of [id] from its bucket.  When [PeerByID] yields a session, that session
    is disconnected with a nil error and [Handshake] goes on to register the
    session [p] it runs on. *)
Theorem Handshake_address_reconciliation fuel p io b b1 id :
  Ping p (hs_ping io) b = (b1, (Some id, None)) →
  (needs_dial io id b1 = false →
     Handshake fuel p io b = register fuel p id io b1) ∧
  (needs_dial io id b1 = true →
     match hs_byaddr io, hs_dial io with
     | Some reachable, _ =>
         Handshake fuel p io b =
         register fuel p id io (emit (Disconnected reachable None) b1)
     | None, inl reachable =>
         Handshake fuel p io b =
         register fuel p id io
           (emit (Disconnected reachable None) (emit (Dial (address id) None) b1))
     | None, inr err =>
         let b2 := evict id (emit (Dial (address id) (Some err)) b1) in
         Handshake fuel p io b = (signal p b2, Ret (None, Some ErrTimeout)) ∧
         peers b2 = peers b1 ∧
         table b2 = (Table_Delete (table b1)
                       (getBucketID (checksum (self (table b1))) (checksum id)) id).1
     end) ∧
  (∀ b0 t, Table_Update (table b0) id = (t, None) →
     (register (S fuel) p id io b0).2 = Ret (Some id, None) ∧
     peers (register (S fuel) p id io b0).1 = <[checksum id := p]> (peers b0)).
Proof.
  intros HP. unfold SKademlia.Handshake, needs_dial. rewrite HP.
  assert (bool_decide (is_Some (peers b1 !! checksum id)) =
          negb (bool_decide (peers b1 !! checksum id = None))) as ->.
  { destruct (peers b1 !! checksum id) eqn:E.
    - rewrite bool_decide_eq_true_2 by eauto. by rewrite bool_decide_eq_false_2.
    - rewrite bool_decide_eq_false_2 by (by intros [? ?]). by rewrite bool_decide_eq_true_2. }
  rewrite negb_involutive.
  split_and!.
  - by intros ->.
  - intros Hd. rewrite Hd. apply andb_prop in Hd as [Hnone%bool_decide_eq_true _].
    unfold PeerByID. rewrite Hnone.
    destruct (hs_byaddr io) as [peer|]; [done|].
    by destruct (hs_dial io) as [peer|err].
  - intros b0 t Ht. unfold SKademlia.register.
    by rewrite (Update_at_once _ _ _ _ t).
Qed.

End protocol_facts.

(** ** The run of the concrete node *)

Section run_facts.
Local Open Scope nat_scope.

Example run4_full :
  bucket (table run4) 16 = remote <$> rev (seq 1 16) ∧
  (∀ i, i ∈ seq 1 16 →
     peers run4 !! checksum (remote i) = Some i ∧
     interceptors run4 !! i = Some [remote i]).
Proof.
  split; [by vm_compute|].
  intros i Hi. repeat (apply elem_of_cons in Hi as [->|Hi]; [by vm_compute|]).
  by apply elem_of_nil in Hi.
Qed.

Example run5_rejected :
  (Handshake0 4 102
     (mkHandshakeIO (address (remote 100)) (pong (remote 100)) None (inr refused)
                    (λ _, pong (remote 1))) run4).2
    = Ret (None, Some (Wrap ErrDisconnect cannot_evict)) ∧
  peers run5 !! checksum (remote 100) = Some 102 ∧
  interceptors run5 !! 102 = None.
Proof. by vm_compute. Qed.

Example run8_state :
  bucket (table run8) 16 = (remote <$> rev (seq 1 15)) ++ [remote 100] ∧
  peers run8 !! checksum (remote 100) = Some 102 ∧
  interceptors run8 !! 102 = None ∧
  bucketSize (table run8) = 16%nat.
Proof. by vm_compute. Qed.

Example run8_full :
  Table_Update (table run8) (remote 200) = (table run8, Some ErrBucketFull) ∧
  Back (bucket (table run8)
          (getBucketID (checksum (self (table run8))) (checksum (remote 200))))
    = Some (remote 100).
Proof. by vm_compute. Qed.

Lemma handshake_reachable p id probe b : reachable0 b → reachable0 (handshake p id probe b).
Proof. apply reach_Handshake. Qed.

Lemma frame_reachable p b : reachable0 b → reachable0 (frame p b).
Proof. apply reach_after_recv. Qed.

Lemma foldl_reachable (f : Protocol → nat → Protocol) l b :
  (∀ b i, reachable0 b → reachable0 (f b i)) → reachable0 b → reachable0 (foldl f b l).
Proof. intros Hf. revert b. induction l; simpl; auto. Qed.

(** Every state of the run is a state that the node [selfID] goes through. *)
Lemma run_reachable :
  reachable0 run4 ∧ reachable0 run5 ∧ reachable0 run8 ∧ reachable0 lost.
Proof.
  assert (reachable0 run1) as H1 by apply handshake_reachable, reach_New.
  assert (reachable0 run4) as H4.
  { apply foldl_reachable; [intros; by apply handshake_reachable|].
    by apply reach_report_error, handshake_reachable. }
  assert (reachable0 run5) as H5 by (by apply handshake_reachable).
  split_and!; [done..| |by apply reach_report_error].
  apply foldl_reachable; [intros; by apply frame_reachable|].
  by apply frame_reachable, reach_report_error.
Qed.

(** C8, at the state [run8] of the run.  [Update] of a new ID into the full
    bucket does not return, however many turns of its loop are run: the back
    entry [remote 100] has the session 102 in the registry, every ping of it
    times out, and disconnecting session 102 reaches no interceptor, so that
    each turn finds the table and the registry as the turn before. *)
Theorem Update_does_not_return_at_run8 fuel :
  reachable0 run8 ∧
  peers run8 !! checksum (remote 100) = Some 102 ∧
  interceptors run8 !! 102 = None ∧
  (Update0 fuel (remote 200) (λ _, silent) run8).2 = Diverge.
Proof.
  destruct run8_full as [Hfull Hback]. destruct run8_state as (_ & Hreg & Hint & _).
  split_and!; [apply run_reachable|done..|].
  eapply (Update_spins_without_interceptor _ _ _ fuel _ _ 0 run8).
  - by rewrite Hfull.
  - exact Hback.
  - exact Hreg.
  - exact Hint.
  - intros m. right. by right.
  - done.
  - done.
  - done.
Qed.

(** The same call returns once the session that is probed carries the
    interceptor of its handshake: at [run4] the back entry [remote 1] is
    evicted by the interceptor and the new ID is inserted. *)
Example Update_returns_at_run4 :
  (Update0 2 (remote 200) (λ _, silent) run4).2 = Ret None ∧
  bucket (table (Update0 2 (remote 200) (λ _, silent) run4).1) 16
    = remote 200 :: (remote <$> rev (seq 2 15)).
Proof. by vm_compute. Qed.

(** C3 at [run4]: the bucket is full, its back entry [remote 1] answers the
    probe with its own ID, and [Update] of [remote 100] is rejected. *)
Lemma Update_probes_back_of_full_bucket_witness :
  (Table_Update (table run4) (remote 100)).2 = Some ErrBucketFull ∧
  Back (bucket (table run4)
          (getBucketID (checksum (self (table run4))) (checksum (remote 100))))
    = Some (remote 1) ∧
  (Update_from (UnmarshalID H0) (verifyPuzzle H0) prefixDiff
               1 (remote 100) (λ _, pong (remote 1)) 0 run4).2
    = Ret (Some (Wrap ErrDisconnect cannot_evict)).
Proof.
  assert ((Table_Update (table run4) (remote 100)).2 = Some ErrBucketFull) as H1
    by (by vm_compute).
  assert (Back (bucket (table run4)
            (getBucketID (checksum (self (table run4))) (checksum (remote 100))))
          = Some (remote 1)) as H2 by (by vm_compute).
  split; [exact H1|]. split; [exact H2|].
  destruct (Update_probes_back_of_full_bucket
              (UnmarshalID H0) (verifyPuzzle H0) prefixDiff
              0 (remote 100) (λ _, pong (remote 1)) 0 run4 (remote 1) H1 H2)
    as (_ & Hsession & _).
  destruct (Hsession 1 ltac:(by vm_compute)) as (_ & _ & Hsame).
  destruct (Hsame (remote 1) ltac:(by vm_compute) ltac:(by vm_compute)) as (-> & _).
  reflexivity.
Defined.

(** C2 on a pong of [remote 100] received by the fresh node. *)
Lemma Ping_returns_validated_id_or_error_witness :
  (Ping0 100 (pong (remote 100)) run0).2 = (Some (remote 100), None) ∧
  validated (verifyPuzzle H0) prefixDiff run0 (remote 100).
Proof.
  assert ((Ping0 100 (pong (remote 100)) run0).2 = (Some (remote 100), None)) as HP
    by (by vm_compute).
  split; [exact HP|].
  destruct (Ping_returns_validated_id_or_error
              (UnmarshalID H0) (verifyPuzzle H0) prefixDiff 100 (pong (remote 100)) run0)
    as [Hok _].
  exact (proj2 (proj2 (proj2 (Hok _ _ HP)))).
Defined.

(** C4 as stated fails: a response that carries seventeen IDs is returned by
    [Lookup] as it is, without error, by a node whose bucket size is 16. *)
Lemma Lookup_returns_seventeen_ids :
  (Lookup0 1 selfID (mkRPC None (Received (MarshalIDs seventeen))) run0).2
    = (seventeen, None) ∧
  length seventeen = 17 ∧ bucketSize (table run0) = 16.
Proof. by vm_compute. Qed.

Lemma Lookup_returns_decoded_list_witness :
  (Lookup0 1 selfID (mkRPC None (Received (MarshalIDs [remote 1; remote 2]))) run0).2
    = ([remote 1; remote 2], None) ∧
  UnmarshalIDs H0 (MarshalIDs [remote 1; remote 2]) = ([remote 1; remote 2], None).
Proof.
  assert ((Lookup0 1 selfID (mkRPC None (Received (MarshalIDs [remote 1; remote 2]))) run0).2
          = ([remote 1; remote 2], None)) as HL by (by vm_compute).
  split; [exact HL|].
  destruct (Lookup_returns_decoded_list (UnmarshalIDs H0) MarshalID _ _ _ _ _ HL)
    as (_ & buf & [= <-] & Hdec).
  exact Hdec.
Defined.

(** C5, at a frame that does not decode.  The node [run1] receives an empty
    lookup request on session 100: it disconnects the session and then calls
    [wire.Send] with a lookup response all the same, whatever that call
    returns; the response is computed for the ID that the failed
    [UnmarshalID] left behind. *)
Theorem serve_answers_undecodable_lookup send :
  UnmarshalID H0 [] = (inhabitant, Some ErrUnexpectedEOF) ∧
  ∃ rest,
    trace (serve0 100 (LookupRequest [] send) run1) =
    trace run1 ++
    [Disconnected 100 (Some (Wrap ErrUnexpectedEOF "sent invalid lookup request"));
     Send 100 4 (MarshalIDs [remote 100]) send] ++ rest.
Proof.
  assert (UnmarshalID H0 [] = (inhabitant, Some ErrUnexpectedEOF)) as Hdec by done.
  split; [exact Hdec|].
  unfold serve0, serve. rewrite Hdec.
  set (b1 := Disconnect 100 (Some (Wrap ErrUnexpectedEOF "sent invalid lookup request")) run1).
  assert (trace b1 = trace run1 ++
            [Disconnected 100 (Some (Wrap ErrUnexpectedEOF "sent invalid lookup request"))])
    as Htrace by (by vm_compute).
  assert (FindClosest (table b1) inhabitant (Z.of_nat (bucketSize (table b1)))
          = [remote 100]) as -> by (by vm_compute).
  destruct send as [e|].
  - edestruct trace_Disconnect as [rest ->]. rewrite trace_emit, Htrace.
    eexists. by rewrite <- !app_assoc.
  - exists []. by rewrite trace_emit, Htrace, <- !app_assoc.
Qed.

(** C7 as stated fails: [remote 100] is in the table of [lost] and not in its
    registry; its handshake from another address ends with [ErrTimeout] after
    the failed dial has removed it from the table. *)
Lemma Handshake_timeout_after_eviction :
  (Handshake0 4 103 from_elsewhere lost).2 = Ret (None, Some ErrTimeout) ∧
  peers lost !! checksum (remote 100) = None ∧
  bucket (table lost) 16 = [remote 100] ∧
  bucket (table (Handshake0 4 103 from_elsewhere lost).1) 16 = [].
Proof. by vm_compute. Qed.

Lemma Handshake_address_reconciliation_witness :
  Ping0 103 (hs_ping from_elsewhere) lost =
    (emit (Send 103 3 [] None) lost, (Some (remote 100), None)) ∧
  needs_dial from_elsewhere (remote 100) (emit (Send 103 3 [] None) lost) = true ∧
  Handshake0 4 103 from_elsewhere lost =
    (signal 103 (evict (remote 100)
                   (emit (Dial (address (remote 100)) (Some refused))
                      (emit (Send 103 3 [] None) lost))),
     Ret (None, Some ErrTimeout)).
Proof.
  assert (Ping0 103 (hs_ping from_elsewhere) lost =
          (emit (Send 103 3 [] None) lost, (Some (remote 100), None))) as HP
    by (by vm_compute).
  assert (needs_dial from_elsewhere (remote 100) (emit (Send 103 3 [] None) lost) = true)
    as Hneeds by (by vm_compute).
  split; [exact HP|]. split; [exact Hneeds|].
  destruct (Handshake_address_reconciliation
              (UnmarshalID H0) (verifyPuzzle H0) prefixDiff
              4 103 from_elsewhere lost _ _ HP) as (_ & Hdial & _).
  exact (proj1 (Hdial Hneeds)).
Defined.

End run_facts.

(** ** [FindNode] *)

Lemma main_step_deduplicated own a vis res G vis' res' G' :
  main_step a vis res G = Some (vis', res', G') →
  deduplicated own vis res → deduplicated own vis' res'.
Proof.
  unfold main_step. intros Hstep Hinv.
  destruct (pc G) as [| | |rest|]; try done.
  - by destruct (lookup G); simplify_eq.
  - destruct (lookup G); [by simplify_eq|]. by destruct (_ <? _); simplify_eq.
  - destruct (0 <? pending G)%nat; [|by simplify_eq].
    by destruct (responses G); simplify_eq.
  - destruct rest as [|id rest]; [by simplify_eq|].
    destruct (decide (checksum id ∈ vis)) as [Hin|Hnew]; simplify_eq; [done|].
    destruct Hinv as [Hnd Hvis Hown Hself]. split.
    + rewrite fmap_app. apply NoDup_app. split_and!; [done| |by apply NoDup_singleton].
      intros c (x & -> & Hx)%list_elem_of_fmap Hc. simpl in Hc.
      apply list_elem_of_singleton in Hc. apply Hnew. rewrite <- Hc. by apply Hvis.
    + intros x [Hx|Hx%list_elem_of_singleton]%elem_of_app; [|subst x]; set_solver.
    + set_solver.
    + rewrite fmap_app, elem_of_app. intros [?|Hc%list_elem_of_singleton]; [done|].
      simpl in Hc. apply Hnew. by rewrite <- Hc.
Qed.

Lemma step_deduplicated own a l s s' :
  step a l s = Some s' →
  deduplicated own (visited s) (results s) →
  deduplicated own (visited s') (results s').
Proof.
  unfold step. intros Hstep Hinv. destruct l as [g|g|g i ans];
    destruct (groups s !! g) as [G|]; simplify_eq/=.
  - destruct (main_step a (visited s) (results s) G) as [[[vis res] G']|] eqn:Hm;
      simplify_eq/=. by eapply main_step_deduplicated.
  - by destruct (take_step a G); simplify_eq/=.
  - by destruct (finish_step a i ans G); simplify_eq/=.
Qed.

Lemma run_deduplicated own a sched s s' :
  run a sched s = Some s' →
  deduplicated own (visited s) (results s) →
  deduplicated own (visited s') (results s').
Proof.
  revert s. induction sched as [|l sched IH]; intros s Hrun Hinv; simplify_eq/=; [done|].
  destruct (step a l s) as [s1|] eqn:Hs; simplify_eq/=.
  eapply IH; [done|]. by eapply step_deduplicated.
Qed.

Lemma start_deduplicated b target k d :
  Table_ok (table b) →
  let s := start b target (FindClosest (table b) target k) d in
  deduplicated (checksum (self (table b))) (visited s) (results s).
Proof.
  intros Hok. split; simpl.
  - by apply FindClosest_NoDup.
  - intros x Hx. apply elem_of_union_r, elem_of_list_to_set, list_elem_of_fmap. eauto.
  - set_solver.
  - apply FindClosest_noself.
Qed.

(** What [FindNode] returns is the sorted [results], cut to [k] entries. *)
Lemma FindNode_Ret b target k a d sched res :
  FindNode b target k a d sched = Ret res →
  0 ≤ k ∧
  ∃ s, run a sched (start b target (FindClosest (table b) target k) (Z.to_nat d)) = Some s ∧
       all_closed s = true ∧
       res = take (Z.to_nat k) (sort_Slice (closer target) (results s)).
Proof.
  unfold FindNode. destruct (d <? 0); [done|].
  destruct (_ && _); [done|]. destruct (_ && _); [done|].
  destruct (run _ _ _) as [s|] eqn:Hrun; [|done].
  destruct (all_closed s) eqn:Hclosed; [|done].
  destruct (Z.ltb_spec k (Z.of_nat (length (sort_Slice (closer target) (results s)))))
    as [Hlt|Hge].
  - destruct (Z.ltb_spec k 0); [done|]. intros [= <-]. split; [lia|]. by exists s.
  - intros [= <-]. split; [lia|]. exists s. split_and!; [done..|].
    rewrite take_ge; [done|lia].
Qed.

(** C1.  For [k ≥ 0], the list that [FindNode] returns has at most [k] entries
    and ascends in the XOR distance of the entries' checksums to
    [target.checksum], read as big-endian unsigned integers. *)
Theorem FindNode_sorted_and_bounded b target k a d sched res :
  0 ≤ k →
  FindNode b target k a d sched = Ret res →
  Z.of_nat (length res) ≤ k ∧
  ascending (λ x, XORdistance (checksum x) (checksum target)) res.
Proof.
  intros Hk (_ & s & _ & _ & ->)%FindNode_Ret. split.
  - rewrite length_take. lia.
  - apply ascending_take, sort_closer_ascending.
Qed.

(** C9.  Over a table that satisfies the table invariants, the list that
    [FindNode] returns carries pairwise distinct checksums, and none of them
    is the checksum of the local node; this holds for every [target], [k], [a]
    and [d]. *)
Theorem FindNode_distinct_and_not_self b target k a d sched res :
  Table_ok (table b) →
  FindNode b target k a d sched = Ret res →
  NoDup (checksum <$> res) ∧ checksum (self (table b)) ∉ checksum <$> res.
Proof.
  intros Hok (_ & s & Hrun & _ & ->)%FindNode_Ret.
  pose proof (start_deduplicated b target k (Z.to_nat d) Hok) as Hstart.
  pose proof (run_deduplicated _ _ _ _ _ Hrun Hstart) as [Hnd _ _ Hself].
  assert (checksum <$> take (Z.to_nat k) (sort_Slice (closer target) (results s))
          `sublist_of` checksum <$> sort_Slice (closer target) (results s)) as Hsub
    by apply fmap_sublist, sublist_take.
  split.
  - eapply sublist_NoDup; [|exact Hsub]. by rewrite <- sort_Slice_perm.
  - intros Hin. apply Hself. rewrite (sort_Slice_perm (closer target) (results s)).
    eapply elem_of_sublist; [exact Hin|exact Hsub].
Qed.

Section FindNode_runs.
Local Open Scope nat_scope.

Example run1_ok : Table_ok (table run1).
Proof.
  apply (reachable_ok (UnmarshalID H0) MarshalID MarshalIDs (verifyPuzzle H0) prefixDiff).
  apply reach_Handshake, reach_New.
Qed.

Example FindNode_sched0 :
  FindNode run1 (remote 50) 16 1 2 sched0 = Ret [remote 3; remote 7; remote 100].
Proof. by vm_compute. Qed.

Lemma FindNode_sorted_and_bounded_witness :
  (0 ≤ 16)%Z ∧
  FindNode run1 (remote 50) 16 1 2 sched0 = Ret [remote 3; remote 7; remote 100] ∧
  (Z.of_nat (length [remote 3; remote 7; remote 100]) ≤ 16)%Z ∧
  ascending (λ x, XORdistance (checksum x) (checksum (remote 50)))
            [remote 3; remote 7; remote 100].
Proof.
  assert (0 ≤ 16)%Z as Hk by lia.
  split; [exact Hk|]. split; [exact FindNode_sched0|].
  exact (FindNode_sorted_and_bounded run1 (remote 50) 16 1 2 sched0 _ Hk FindNode_sched0).
Defined.

Lemma FindNode_distinct_and_not_self_witness :
  Table_ok (table run1) ∧
  FindNode run1 (remote 50) 16 1 2 sched0 = Ret [remote 3; remote 7; remote 100] ∧
  NoDup (checksum <$> [remote 3; remote 7; remote 100]) ∧
  checksum (self (table run1)) ∉ checksum <$> [remote 3; remote 7; remote 100].
Proof.
  split; [exact run1_ok|]. split; [exact FindNode_sched0|].
  exact (FindNode_distinct_and_not_self run1 (remote 50) 16 1 2 sched0 _
           run1_ok FindNode_sched0).
Defined.

End FindNode_runs.

(** ** More on [FindNode]: seeds, hangs and provenance *)

(** *** The seeds are dealt round-robin *)

Lemma distribute_lookup d seeds i L j :
  length L = d →
  distribute d i seeds L !! j =
  (λ q, q ++ (filter (λ ix, ix.1 mod d = j)%nat (zip (seq i (length seeds)) seeds)).*2)
    <$> L !! j.
Proof.
  revert i L. induction seeds as [|x seeds IH]; intros i L HL; simpl.
  - destruct (L !! j); simpl; [|done]. by rewrite app_nil_r.
  - rewrite IH by (by rewrite length_alter). rewrite filter_cons. simpl.
    destruct (decide (i mod d = j)%nat) as [<-|Hne].
    + rewrite list_lookup_alter, decide_True by done.
      destruct (L !! (i mod d)%nat); simpl; [|done]. by rewrite <- app_assoc.
    + rewrite list_lookup_alter_ne by done. done.
Qed.

Lemma distribute_length d seeds i L : length (distribute d i seeds L) = length L.
Proof.
  revert i L. induction seeds as [|x seeds IH]; intros i L; simpl; [done|].
  by rewrite IH, length_alter.
Qed.

Lemma mjoin_alter_snoc (L : list (list ID)) j x :
  mjoin (alter (λ q, q ++ [x]) j L) ⊆+ mjoin L ++ [x].
Proof.
  revert j. induction L as [|q L IH]; intros j; simpl.
  - apply submseteq_nil_l.
  - destruct j as [|j]; simpl.
    + rewrite <- !app_assoc. apply submseteq_app; [done|].
      rewrite (Permutation_app_comm [x]). done.
    + rewrite <- app_assoc. apply submseteq_app; [done|]. apply IH.
Qed.

Lemma mjoin_distribute d seeds i L :
  mjoin (distribute d i seeds L) ⊆+ mjoin L ++ seeds.
Proof.
  revert i L. induction seeds as [|x seeds IH]; intros i L; simpl.
  - by rewrite app_nil_r.
  - etrans; [apply IH|].
    change (x :: seeds) with ([x] ++ seeds). rewrite app_assoc.
    apply submseteq_app; [|done]. apply mjoin_alter_snoc.
Qed.

Lemma start_group b target seeds d j :
  (j < d)%nat →
  groups (start b target seeds d) !! j = Some (mkGroup (dealt d j seeds) [] [] [] 0 Outer).
Proof.
  intros Hj. unfold start, dealt. cbn [groups].
  rewrite list_lookup_fmap, distribute_lookup by apply length_replicate.
  by rewrite lookup_replicate_2.
Qed.

Lemma dealt_elem d seeds i x :
  seeds !! i = Some x → x ∈ dealt d (i mod d) seeds.
Proof.
  intros Hx. unfold dealt. apply list_elem_of_fmap. exists (i, x). split; [done|].
  apply list_elem_of_filter. split; [done|].
  apply list_elem_of_lookup. exists i. apply lookup_zip_with_Some.
  exists i, x. split_and!; [done| |done].
  apply lookup_seq. split; [done|]. by eapply lookup_lt_Some.
Qed.

(** X1.  [FindNode] starts [d] groups and deals the seeds to their queues
    round-robin, as [lookups[i%d].PushBack(id)] does: queue [j] holds, in
    their order, the seeds whose index is congruent to [j] modulo [d], so
    that every seed is in exactly the queue of its index, and every group
    starts at the head of its outer loop with empty channels. *)
Theorem FindNode_deals_seeds_round_robin b target seeds d :
  length (groups (start b target seeds d)) = d ∧
  (∀ j, (j < d)%nat →
     groups (start b target seeds d) !! j
       = Some (mkGroup (dealt d j seeds) [] [] [] 0 Outer)) ∧
  (∀ i x, seeds !! i = Some x → x ∈ dealt d (i mod d) seeds) ∧
  (∀ j x, x ∈ dealt d j seeds → ∃ i, seeds !! i = Some x ∧ (i mod d)%nat = j).
Proof.
  split_and!.
  - unfold start. cbn [groups]. by rewrite length_fmap, distribute_length, length_replicate.
  - intros j Hj. by apply start_group.
  - intros i x. apply dealt_elem.
  - intros j x. unfold dealt.
    intros ([i y] & -> & [Hmod Hin]%list_elem_of_filter)%list_elem_of_fmap.
    apply list_elem_of_lookup in Hin as [n Hn].
    apply lookup_zip_with_Some in Hn as (i' & y' & [= <- <-] & Hi & Hy).
    apply lookup_seq in Hi as [-> _]. by exists n.
Qed.

(** *** A group that gets no response does not finish *)

Lemma main_step_waiting a vis res G vis' res' G' :
  waiting G → main_step a vis res G = Some (vis', res', G') → waiting G'.
Proof.
  unfold waiting, main_step. intros [Hr Hw] Hstep.
  destruct G as [lk rq wk rs pd c]; simpl in *. subst rs.
  destruct c as [| | |rest|]; try done.
  - destruct lk; [done|]. simplify_eq/=. split; [done|]. by left.
  - destruct lk as [|id q].
    + simplify_eq/=. split; [done|]. destruct Hw; [done|by right].
    + destruct (_ <? _); simplify_eq/=; (split; [done|]); [right; lia|by left].
  - destruct (0 <? pd)%nat eqn:Hp; [done|]. simplify_eq/=. split; [done|].
    destruct Hw as [?|Hw]; [done|]. apply Nat.ltb_ge in Hp. lia.
Qed.

Lemma take_step_waiting a G G' : waiting G → take_step a G = Some G' → waiting G'.
Proof.
  unfold waiting, take_step. intros Hw Hstep.
  destruct (requests G); [done|]. by destruct (_ <? _); simplify_eq/=.
Qed.

Lemma finish_step_waiting a i ans G G' :
  match ans with Found _ => False | _ => True end →
  waiting G → finish_step a i ans G = Some G' → waiting G'.
Proof.
  unfold waiting, finish_step. intros Hans Hw Hstep.
  destruct (working G !! i); [|done]. by destruct ans; simplify_eq/=.
Qed.

Lemma step_waiting a l s s' g G :
  match l with Finish _ _ (Found _) => False | _ => True end →
  step a l s = Some s' → groups s !! g = Some G → waiting G →
  ∃ G', groups s' !! g = Some G' ∧ waiting G'.
Proof.
  intros Hl Hstep HG Hw.
  assert (∀ g0 G0 G0',
            groups s !! g0 = Some G0 → (g0 = g → waiting G0') →
            ∃ G', <[g0 := G0']> (groups s) !! g = Some G' ∧ waiting G') as Hins.
  { intros g0 G0 G0' HG0 HG0'.
    destruct (decide (g0 = g)) as [->|Hne].
    - exists G0'. split; [|by apply HG0'].
      apply list_lookup_insert_eq. by eapply lookup_lt_Some.
    - exists G. by rewrite list_lookup_insert_ne. }
  unfold step in Hstep. destruct l as [g0|g0|g0 i ans];
    destruct (groups s !! g0) as [G0|] eqn:HG0; simplify_eq/=.
  - destruct (main_step a (visited s) (results s) G0) as [[[vis res] G0']|] eqn:Hm;
      simplify_eq/=. eapply Hins; [done|]. intros ->. simplify_eq.
    by eapply main_step_waiting.
  - destruct (take_step a G0) as [G0'|] eqn:Ht; simplify_eq/=.
    eapply Hins; [done|]. intros ->. simplify_eq. by eapply take_step_waiting.
  - destruct (finish_step a i ans G0) as [G0'|] eqn:Hf; simplify_eq/=.
    eapply Hins; [done|]. intros ->. simplify_eq.
    eapply finish_step_waiting; [|done..]. by destruct ans.
Qed.

Lemma run_waiting a sched s s' g G :
  unanswered_schedule sched →
  run a sched s = Some s' → groups s !! g = Some G → waiting G →
  ∃ G', groups s' !! g = Some G' ∧ waiting G'.
Proof.
  revert s G. induction sched as [|l sched IH]; intros s G Hun Hrun HG Hw; simplify_eq/=.
  - by exists G.
  - apply Forall_cons in Hun as [Hl Hun].
    destruct (step a l s) as [s1|] eqn:Hs; simplify_eq/=.
    destruct (step_waiting _ _ _ _ _ _ Hl Hs HG Hw) as (G1 & HG1 & Hw1).
    by eapply IH.
Qed.

Lemma waiting_not_closed s g G :
  groups s !! g = Some G → waiting G → all_closed s = false.
Proof.
  intros HG [_ Hw]. apply not_true_is_false. unfold all_closed.
  rewrite forallb_forall. intros Hall.
  specialize (Hall G). rewrite <- list_elem_of_In in Hall.
  specialize (Hall (list_elem_of_lookup_2 _ _ _ HG)).
  by destruct (pc G).
Qed.

(** X2.  [FindNode] does not return when the table yields a seed and no
    worker ever delivers a response.  A worker that gets no session from
    [PeerByID], or whose [Lookup] fails, goes on to its next request without
    sending on [responses], while the main goroutine of its group, having
    counted the request in [pending] (which is never decremented), blocks in
    [res := <-responses]; with [a = 0] it spins in its outer loop instead.
    Either way that group never reaches [wg.Done()]. *)
Theorem FindNode_hangs_without_response b target k a d sched :
  FindClosest (table b) target k ≠ [] → unanswered_schedule sched →
  0 < d → 0 ≤ a →
  FindNode b target k a d sched = Diverge.
Proof.
  intros Hseeds Hun Hd Ha. unfold FindNode.
  destruct (Z.ltb_spec d 0); [lia|].
  destruct (Z.eqb_spec d 0); [lia|]. cbn [andb].
  destruct (Z.ltb_spec a 0); [lia|]. rewrite andb_false_r.
  destruct (run a sched _) as [s|] eqn:Hrun; [|done].
  destruct (FindClosest (table b) target k) as [|x seeds] eqn:Hfc; [done|].
  assert (0 < Z.to_nat d)%nat as Hd' by lia.
  pose proof (start_group b target (x :: seeds) (Z.to_nat d) 0 Hd') as Hg.
  assert (waiting (mkGroup (dealt (Z.to_nat d) 0 (x :: seeds)) [] [] [] 0 Outer)) as Hw.
  { split; [done|]. cbn [pc lookup]. intros Hnil.
    pose proof (dealt_elem (Z.to_nat d) (x :: seeds) 0 x eq_refl) as Hin.
    rewrite Nat.Div0.mod_0_l, Hnil in Hin. by apply elem_of_nil in Hin. }
  destruct (run_waiting _ _ _ _ _ _ Hun Hrun Hg Hw) as (G' & HG' & Hw').
  by rewrite (waiting_not_closed _ _ _ HG' Hw').
Qed.

(** *** A search without seeds *)

Lemma main_step_idle a vis res G vis' res' G' :
  idle G → main_step a vis res G = Some (vis', res', G') →
  vis' = vis ∧ res' = res ∧ idle G'.
Proof.
  unfold idle, main_step. intros (Hl & Hq & Hw & Hr & Hp & Hpc) Hstep.
  destruct G as [lk rq wk rs pd c]; simpl in *. subst.
  destruct c as [| | |rest|]; simplify_eq/=; try done.
  by destruct (Hpc rest).
Qed.

Lemma step_idle a l s s' :
  Forall idle (groups s) → step a l s = Some s' →
  results s' = results s ∧ Forall idle (groups s').
Proof.
  intros Hidle Hstep. unfold step in Hstep. destruct l as [g|g|g i ans];
    destruct (groups s !! g) as [G|] eqn:HG; simplify_eq/=;
    pose proof (Forall_lookup_1 _ _ _ _ Hidle HG) as HGi.
  - destruct (main_step a (visited s) (results s) G) as [[[vis res] G']|] eqn:Hm;
      simplify_eq/=.
    destruct (main_step_idle _ _ _ _ _ _ _ HGi Hm) as (-> & -> & HG').
    split; [done|]. by apply Forall_insert.
  - destruct HGi as (_ & Hq & _). unfold take_step in Hstep.
    by rewrite Hq in Hstep.
  - destruct HGi as (_ & _ & Hw & _). unfold finish_step in Hstep.
    by rewrite Hw in Hstep.
Qed.

Lemma run_idle a sched s s' :
  Forall idle (groups s) → run a sched s = Some s' → results s' = results s.
Proof.
  revert s. induction sched as [|l sched IH]; intros s Hidle Hrun; simplify_eq/=; [done|].
  destruct (step a l s) as [s1|] eqn:Hs; simplify_eq/=.
  destruct (step_idle _ _ _ _ Hidle Hs) as [<- Hidle1]. by apply IH.
Qed.

Lemma run_closes a vis res i m :
  run a (Main <$> seq i m)
      (mkSearch vis res (replicate i (mkGroup [] [] [] [] 0 Closed) ++
                         replicate m (mkGroup [] [] [] [] 0 Outer)))
  = Some (mkSearch vis res (replicate (i + m) (mkGroup [] [] [] [] 0 Closed))).
Proof.
  revert i. induction m as [|m IH]; intros i.
  - simpl. by rewrite app_nil_r, Nat.add_0_r.
  - cbn [seq fmap list_fmap run step groups visited results].
    rewrite lookup_app_r by (by rewrite length_replicate).
    rewrite length_replicate, Nat.sub_diag. cbn.
    rewrite insert_app_r_alt by (by rewrite length_replicate).
    rewrite length_replicate, Nat.sub_diag. cbn.
    rewrite (cons_middle _ (replicate i _)), app_assoc, <- replicate_S_end.
    rewrite IH. by rewrite Nat.add_succ_r.
Qed.

(** X3.  When the table yields no seed for the target (an empty table, or
    [k = 0]), [FindNode] asks nobody: every group finds its queue empty and
    closes at once, so that the call returns the empty list as soon as each
    of the [d] main goroutines has run, and it returns nothing else under any
    schedule.  [Bootstrap] of a node that has just been created is such a
    call. *)
Theorem FindNode_without_seeds b target k a d :
  FindClosest (table b) target k = [] → 0 ≤ k → 0 ≤ a → 0 ≤ d →
  FindNode b target k a d (Main <$> seq 0 (Z.to_nat d)) = Ret [] ∧
  (∀ sched res, FindNode b target k a d sched = Ret res → res = []) ∧
  (∀ selfid, Bootstrap (New selfid) (Main <$> seq 0 8) = Ret []).
Proof.
  intros Hseeds Hk Ha Hd.
  assert (∀ b' target' d', start b' target' [] d' =
            mkSearch ({[checksum (self (table b')); checksum target']} ∪ ∅) []
                     (replicate 0 (mkGroup [] [] [] [] 0 Closed) ++
                      replicate d' (mkGroup [] [] [] [] 0 Outer))) as Hstart.
  { intros. unfold start. cbn. by rewrite fmap_replicate. }
  assert (∀ n, all_closed (mkSearch ({[checksum (self (table b)); checksum target]} ∪ ∅) []
                 (replicate n (mkGroup [] [] [] [] 0 Closed))) = true) as Hclosed.
  { intros n. unfold all_closed. apply forallb_forall. intros G HG%list_elem_of_In.
    by apply elem_of_replicate in HG as [-> _]. }
  split_and!.
  - unfold FindNode. rewrite Hseeds.
    destruct (Z.ltb_spec d 0); [lia|].
    rewrite bool_decide_eq_true_2 by done. rewrite andb_false_r.
    destruct (Z.ltb_spec a 0); [lia|]. rewrite andb_false_r.
    rewrite Hstart, run_closes, Hclosed. cbn.
    change (Z.of_nat 0) with 0. by destruct (Z.ltb_spec k 0); [lia|].
  - intros sched res (_ & s & Hrun & _ & ->)%FindNode_Ret.
    rewrite Hseeds in Hrun.
    assert (Forall idle (groups (start b target [] (Z.to_nat d)))) as Hidle.
    { rewrite Hstart. cbn [groups app replicate]. apply Forall_replicate.
      by split_and!. }
    rewrite (run_idle _ _ _ _ Hidle Hrun), Hstart. cbn. by rewrite take_nil.
  - intros selfid. by vm_compute.
Qed.

(** *** Where the results come from *)

Lemma main_step_sourced P a vis res G vis' res' G' :
  main_step a vis res G = Some (vis', res', G') →
  Forall P res →
  Forall (Forall P) (responses G) ∧
    match pc G with Merge rest => Forall P rest | _ => True end →
  Forall P res' ∧ Forall (Forall P) (responses G') ∧
    match pc G' with Merge rest => Forall P rest | _ => True end.
Proof.
  unfold main_step. intros Hstep Hres [Hresp Hpc].
  destruct G as [lk rq wk rs pd c]; simpl in *.
  destruct c as [| | |rest|]; try done.
  - by destruct lk; simplify_eq/=.
  - destruct lk; [by simplify_eq/=|]. by destruct (_ <? _); simplify_eq/=.
  - destruct (0 <? pd)%nat; [|by simplify_eq/=].
    destruct rs as [|r rs]; simplify_eq/=. by apply Forall_cons in Hresp as [? ?].
  - destruct rest as [|id rest]; [by simplify_eq/=|].
    apply Forall_cons in Hpc as [Hid Hrest].
    destruct (decide (checksum id ∈ vis)); simplify_eq/=; [done|].
    split_and!; [|done..]. apply Forall_app. split; [done|]. by apply Forall_singleton.
Qed.

Lemma step_sourced P a l s s' :
  step a l s = Some s' →
  match l with Finish _ _ (Found ids) => Forall P ids | _ => True end →
  sourced P s → sourced P s'.
Proof.
  unfold sourced. intros Hstep Hl [Hres Hgroups]. unfold step in Hstep.
  destruct l as [g|g|g i ans];
    destruct (groups s !! g) as [G|] eqn:HG; simplify_eq/=;
    pose proof (Forall_lookup_1 _ _ _ _ Hgroups HG) as HGs.
  - destruct (main_step a (visited s) (results s) G) as [[[vis res] G']|] eqn:Hm;
      simplify_eq/=.
    destruct (main_step_sourced P _ _ _ _ _ _ _ Hm Hres HGs) as (? & ? & ?).
    split; [done|]. by apply Forall_insert.
  - destruct (take_step a G) as [G'|] eqn:Ht; simplify_eq/=.
    split; [done|]. apply Forall_insert; [done|].
    unfold take_step in Ht. destruct (requests G); [done|].
    by destruct (_ <? _); simplify_eq/=.
  - destruct (finish_step a i ans G) as [G'|] eqn:Hf; simplify_eq/=.
    split; [done|]. apply Forall_insert; [done|].
    unfold finish_step in Hf. destruct (working G !! i); [|done].
    destruct HGs as [Hresp Hpc].
    destruct ans as [| |ids]; simplify_eq/=; [done..|].
    destruct (_ <? _); simplify_eq/=. split; [|done].
    apply Forall_app. split; [done|]. by apply Forall_singleton.
Qed.

Lemma run_sourced P a sched s s' :
  run a sched s = Some s' → Forall P (delivered sched) → sourced P s → sourced P s'.
Proof.
  revert s. induction sched as [|l sched IH]; intros s Hrun Hd Hs; simplify_eq/=; [done|].
  destruct (step a l s) as [s1|] eqn:Hstep; simplify_eq/=.
  apply Forall_app in Hd as [Hl Hd].
  eapply IH; [done..|]. eapply step_sourced; [done| |done].
  by destruct l as [| |? ? []].
Qed.

(** X4.  Every ID that [FindNode] returns was either in the routing table
    when the call started or in a response that a worker delivered: the
    search adds to [results] only what it finds in responses. *)
Theorem FindNode_results_provenance b target k a d sched res :
  FindNode b target k a d sched = Ret res →
  ∀ x, x ∈ res → x ∈ mjoin (buckets (table b)) ∨ x ∈ delivered sched.
Proof.
  intros (_ & s & Hrun & _ & ->)%FindNode_Ret x Hx.
  apply (subseteq_take (Z.to_nat k)) in Hx.
  rewrite <- (sort_Slice_perm (closer target) (results s)) in Hx.
  set (P := λ x : ID, x ∈ mjoin (buckets (table b)) ∨ x ∈ delivered sched).
  assert (sourced P s) as [Hres _].
  { eapply run_sourced; [done| |].
    - apply Forall_forall. intros y Hy. by right.
    - split; simpl.
      + apply Forall_forall. intros y Hy. left. by eapply FindClosest_elem.
      + apply Forall_fmap, Forall_forall. intros q _. simpl. split; constructor. }
  rewrite Forall_forall in Hres. by apply Hres.
Qed.

(** *** No peer is asked twice *)

Lemma submseteq_fresh {A B} (f : A → B) (l k : list A) (y : B) :
  l ⊆+ k → NoDup (f <$> k) → y ∉ f <$> k → NoDup (f <$> l) ∧ y ∉ f <$> l.
Proof.
  intros Hsub Hnd Hy.
  apply submseteq_Permutation in Hsub as [k' Hk]. rewrite Hk, fmap_app in Hnd, Hy.
  apply NoDup_app in Hnd as (Hnd & _ & _). split; [done|].
  intros Hin. apply Hy, elem_of_app. by left.
Qed.

Lemma queued_insert s g G G' :
  groups s !! g = Some G →
  ∃ rest, queued s ≡ₚ (requests G ++ lookup G) ++ rest ∧
          ∀ vis res, queued (mkSearch vis res (<[g := G']> (groups s)))
                     ≡ₚ (requests G' ++ lookup G') ++ rest.
Proof.
  intros HG. unfold queued. cbn [groups].
  exists (mjoin (delete g ((λ G, requests G ++ lookup G) <$> groups s))).
  assert (((λ G, requests G ++ lookup G) <$> groups s) !! g
          = Some (requests G ++ lookup G)) as Hg by (by rewrite list_lookup_fmap, HG).
  split.
  - by apply (concat_insert_perm _ g _ []).
  - intros _ _. rewrite list_fmap_insert.
    by apply (concat_insert_perm _ g (requests G ++ lookup G)).
Qed.

Lemma main_step_queued a vis res G vis' res' G' :
  main_step a vis res G = Some (vis', res', G') →
  (requests G' ++ lookup G' = requests G ++ lookup G ∧ res' = res) ∨
  ∃ id, requests G' ++ lookup G' = (requests G ++ lookup G) ++ [id] ∧
        res' = res ++ [id].
Proof.
  unfold main_step. intros Hstep.
  destruct G as [lk rq wk rs pd c]; simpl in *.
  destruct c as [| | |rest|]; try done.
  - destruct lk; simplify_eq/=; by left.
  - destruct lk; [simplify_eq/=; by left|].
    destruct (_ <? _); simplify_eq/=; left; [|done]. by rewrite <- app_assoc.
  - destruct (0 <? pd)%nat; [|simplify_eq/=; by left].
    destruct rs; simplify_eq/=. by left.
  - destruct rest as [|id rest]; [simplify_eq/=; by left|].
    destruct (decide (checksum id ∈ vis)); simplify_eq/=; [by left|].
    right. exists id. by rewrite app_assoc.
Qed.

Lemma received_fresh own a sched s pre :
  deduplicated own (visited s) (results s) →
  pre ++ queued s ⊆+ results s →
  NoDup (checksum <$> pre ++ received a sched s) ∧
  own ∉ checksum <$> pre ++ received a sched s.
Proof.
  revert s pre. induction sched as [|l sched IH]; intros s pre Hdd Hsub.
  - simpl. rewrite app_nil_r. destruct Hdd as [Hnd _ _ Hown].
    eapply submseteq_fresh; [|done..]. etrans; [|exact Hsub]. by apply submseteq_inserts_r.
  - cbn [received]. destruct (step a l s) as [s'|] eqn:Hstep.
    2:{ rewrite app_nil_r. destruct Hdd as [Hnd _ _ Hown].
        eapply submseteq_fresh; [|done..]. etrans; [|exact Hsub].
        by apply submseteq_inserts_r. }
    pose proof (step_deduplicated own _ _ _ _ Hstep Hdd) as Hdd'.
    unfold step in Hstep. destruct l as [g|g|g i ans];
      destruct (groups s !! g) as [G|] eqn:HG; simplify_eq/=.
    + destruct (main_step a (visited s) (results s) G) as [[[vis res] G']|] eqn:Hm;
        simplify_eq/=.
      destruct (queued_insert s g G G' HG) as (rest & Hq & Hq').
      apply IH; [done|]. cbn [results]. rewrite Hq'. rewrite Hq in Hsub.
      destruct (main_step_queued _ _ _ _ _ _ _ Hm) as [[-> ->]|(id & -> & ->)]; [done|].
      assert (pre ++ ((requests G ++ lookup G) ++ [id]) ++ rest
              ≡ₚ (pre ++ (requests G ++ lookup G) ++ rest) ++ [id]) as ->.
      { rewrite <- !app_assoc. do 3 f_equiv. apply Permutation_app_comm. }
      by apply submseteq_app.
    + destruct (take_step a G) as [G'|] eqn:Ht; simplify_eq/=.
      destruct (queued_insert s g G G' HG) as (rest & Hq & Hq').
      unfold take_step in Ht. destruct (requests G) as [|id r] eqn:Hr; [done|].
      destruct (_ <? _); simplify_eq/=.
      rewrite (cons_middle id pre), app_assoc.
      apply IH; [done|]. cbn [results]. rewrite Hq'. cbn [requests lookup].
      rewrite Hq in Hsub. rewrite <- (app_assoc pre [id]). exact Hsub.
    + destruct (finish_step a i ans G) as [G'|] eqn:Hf; simplify_eq/=.
      destruct (queued_insert s g G G' HG) as (rest & Hq & Hq').
      apply IH; [done|]. cbn [results]. rewrite Hq'. rewrite Hq in Hsub.
      unfold finish_step in Hf. destruct (working G !! i); [|done].
      destruct ans as [| |ids]; simplify_eq/=; [done..|].
      by destruct (_ <? _); simplify_eq/=.
Qed.

(** X5.  Along any schedule of [FindNode] over a table that satisfies the
    table invariants, the requests that the workers receive carry pairwise
    distinct checksums, none of them the node's own: within one call no peer
    is looked up twice, and the node never queries itself.  An ID enters a
    queue only as a seed or, under the mutex, when its checksum is not yet in
    [visited]. *)
Theorem FindNode_asks_each_peer_once b target k a d sched :
  Table_ok (table b) →
  NoDup (checksum <$>
         received a sched (start b target (FindClosest (table b) target k) d)) ∧
  (checksum (self (table b)) ∉
   checksum <$> received a sched (start b target (FindClosest (table b) target k) d)).
Proof.
  intros Hok.
  apply (received_fresh _ a sched _ []).
  - by apply start_deduplicated.
  - simpl. unfold queued, start. cbn [groups].
    assert (∀ L : list (list ID),
              (λ G, requests G ++ lookup G) <$> ((λ q, mkGroup q [] [] [] 0 Outer) <$> L)
              = L) as ->.
    { induction L as [|q L IH]; [done|]. rewrite !fmap_cons. by f_equal. }
    etrans; [apply mjoin_distribute|].
    assert (mjoin (replicate d ([] : list ID)) = []) as ->; [|done].
    induction d; [done|]. simpl. done.
Qed.

(** *** [Bootstrap] *)


(** ** More on the protocol: eviction, [Update], the hooks and the RPCs *)

(** *** Entries of the table *)

Lemma filter_checksum_all c (l : list ID) :
  c ∉ checksum <$> l → filter (λ x, checksum x ≠ c) l = l.
Proof.
  induction l as [|x l IH]; [done|]. rewrite fmap_cons, not_elem_of_cons.
  intros [Hx Hl]. rewrite filter_cons, decide_True by done. by rewrite IH.
Qed.

Lemma remove_entry_filter c (l : list ID) :
  NoDup (checksum <$> l) → remove_entry c l = filter (λ x, checksum x ≠ c) l.
Proof.
  induction l as [|x l IH]; [done|]. rewrite fmap_cons, NoDup_cons. intros [Hx Hl].
  simpl. rewrite filter_cons. destruct (decide (checksum x = c)) as [<-|Hne].
  - rewrite decide_False by (by intros ?). by rewrite filter_checksum_all.
  - rewrite decide_True by done. by rewrite IH.
Qed.

Lemma find_entry_middle c (l1 l2 : list ID) e :
  checksum e = c → c ∉ checksum <$> l1 →
  find_entry c (l1 ++ e :: l2) = Some e ∧ remove_entry c (l1 ++ e :: l2) = l1 ++ l2.
Proof.
  intros He. induction l1 as [|x l1 IH]; simpl.
  - intros _. unfold find_entry. simpl.
    rewrite bool_decide_eq_true_2 by done. by rewrite decide_True.
  - rewrite not_elem_of_cons. intros [Hx Hl]. destruct (IH Hl) as [Hf Hr].
    unfold find_entry in *. simpl. rewrite bool_decide_eq_false_2 by done.
    rewrite decide_False by done. by rewrite Hr.
Qed.

Lemma Table_Delete_kept t i id :
  self (Table_Delete t i id).1 = self t ∧
  bucketSize (Table_Delete t i id).1 = bucketSize t.
Proof. unfold Table_Delete. by destruct (find_entry _ _). Qed.

Lemma Table_Update_kept t id :
  self (Table_Update t id).1 = self t ∧ bucketSize (Table_Update t id).1 = bucketSize t.
Proof.
  unfold Table_Update. destruct (decide _); [done|].
  destruct (find_entry _ _); [done|]. by destruct (_ <? _)%nat.
Qed.

Lemma Table_Delete_entries t id :
  Table_ok t →
  mjoin (buckets (Table_Delete t (getBucketID (checksum (self t)) (checksum id)) id).1)
  ≡ₚ filter (λ x, checksum x ≠ checksum id) (mjoin (buckets t)).
Proof.
  intros Hok. set (i := getBucketID (checksum (self t)) (checksum id)).
  assert (i < length (buckets t))%nat as Hi.
  { rewrite (ok_length _ Hok). apply getBucketID_lt. }
  pose proof (bucket_lookup t i Hi) as Hb.
  destruct (concat_insert_perm (buckets t) i (bucket t i)
              (remove_entry (checksum id) (bucket t i)) Hb) as [Hnew Hold].
  assert (filter (λ x, checksum x ≠ checksum id) (mjoin (buckets t))
          ≡ₚ remove_entry (checksum id) (bucket t i) ++ mjoin (delete i (buckets t))) as ->.
  { rewrite Hold, filter_app.
    rewrite <- (remove_entry_filter _ _ (bucket_NoDup t Hok i)).
    by rewrite (filter_checksum_all _ _ (other_buckets_fresh t Hok i id Hi eq_refl)). }
  unfold Table_Delete. fold i.
  destruct (find_entry (checksum id) (bucket t i)) eqn:Hfind; cbn [fst]; [exact Hnew|].
  rewrite Hold. f_equiv.
  rewrite (remove_entry_filter _ _ (bucket_NoDup t Hok i)).
  by rewrite filter_checksum_all by (by apply find_entry_None).
Qed.

(** X7.  Over a table that satisfies the table invariants, [evict] removes
    from the table exactly the entry that carries the checksum of the ID, if
    there is one, and no other entry; it leaves the registry of sessions as
    it is and reports the eviction on standard output, also when there was
    nothing to remove. *)
Theorem evict_removes_exactly id b :
  Table_ok (table b) →
  mjoin (buckets (table (evict id b)))
    ≡ₚ filter (λ x, checksum x ≠ checksum id) (mjoin (buckets (table b))) ∧
  (checksum id ∉ checksum <$> mjoin (buckets (table (evict id b)))) ∧
  peers (evict id b) = peers b ∧
  trace (evict id b) =
    trace b ++ [Printf "Peer %s could not be reached, and has been evicted." id].
Proof.
  intros Hok.
  assert (mjoin (buckets (table (evict id b)))
          ≡ₚ filter (λ x, checksum x ≠ checksum id) (mjoin (buckets (table b)))) as Hperm
    by apply (Table_Delete_entries (table b) id Hok).
  split_and!; [done| |done..].
  rewrite Hperm. intros (x & Hx & [Hne _]%list_elem_of_filter)%list_elem_of_fmap.
  by apply Hne.
Qed.

Section protocol_more.
Context (UnmarshalID : list byte → ID * option error)
        (UnmarshalIDs : list byte → list ID * option error)
        (MarshalID : ID → list byte)
        (MarshalIDs : list ID → list byte)
        (verifyPuzzle : Checksum → Checksum → Z → Z → option error)
        (prefixDiff : list byte → list byte → Z → Z).

#[local] Set Default Proof Using "Type*".

Local Abbreviation Ping := (SKademlia.Ping UnmarshalID verifyPuzzle prefixDiff).
Local Abbreviation Lookup := (SKademlia.Lookup UnmarshalIDs MarshalID).
Local Abbreviation Update_body := (SKademlia.Update_body UnmarshalID verifyPuzzle prefixDiff).
Local Abbreviation Update_from := (SKademlia.Update_from UnmarshalID verifyPuzzle prefixDiff).
Local Abbreviation Update := (SKademlia.Update UnmarshalID verifyPuzzle prefixDiff).
Local Abbreviation register := (SKademlia.register UnmarshalID verifyPuzzle prefixDiff).
Local Abbreviation Handshake := (SKademlia.Handshake UnmarshalID verifyPuzzle prefixDiff).
Local Abbreviation serve := (SKademlia.serve UnmarshalID MarshalID MarshalIDs).
Local Abbreviation validated := (SKademlia.validated verifyPuzzle prefixDiff).
Local Abbreviation refresh := (SKademlia.refresh UnmarshalID verifyPuzzle prefixDiff).
Local Abbreviation after_recv := (SKademlia.after_recv UnmarshalID verifyPuzzle prefixDiff).
Local Abbreviation reachable :=
  (SKademlia.reachable UnmarshalID MarshalID MarshalIDs verifyPuzzle prefixDiff).
Local Abbreviation query := (SKademlia.query UnmarshalIDs MarshalID).

(** *** What the operations leave alone *)

Lemma kept_refl b : kept b b.
Proof. by split. Qed.

Lemma kept_trans b1 b2 b3 : kept b1 b2 → kept b2 b3 → kept b1 b3.
Proof. intros [] []. split; congruence. Qed.

Lemma kept_emit e b : kept b (emit e b).
Proof. by split. Qed.

Lemma kept_set_peers m b : kept b (set_peers m b).
Proof. by split. Qed.

Lemma kept_evict id b : kept b (evict id b).
Proof. split; try done; apply Table_Delete_kept. Qed.

Lemma kept_intercept id err b : kept b (intercept id err b).
Proof.
  rewrite intercept_eq. destruct (timed_out err); [|apply kept_set_peers].
  eapply kept_trans; [apply kept_set_peers|apply kept_evict].
Qed.

Lemma kept_report_error p err b : kept b (report_error p err b).
Proof.
  unfold report_error. generalize (default [] (interceptors b !! p)). intros l.
  assert (∀ b0, kept b b0 → kept b (foldl (λ b id, intercept id err b) b0 l)) as Hl.
  { induction l as [|id l IH]; intros b0 Hb0; simpl; [done|].
    apply IH. eapply kept_trans; [done|apply kept_intercept]. }
  apply Hl, kept_refl.
Qed.

Lemma kept_Disconnect p err b : kept b (Disconnect p err b).
Proof.
  unfold Disconnect. destruct err; [|apply kept_emit].
  eapply kept_trans; [apply kept_emit|apply kept_report_error].
Qed.

Lemma kept_Ping p io b : kept b (Ping p io b).1.
Proof. rewrite Ping_state. apply kept_emit. Qed.

Lemma kept_PeerByID id byaddr dial b : kept b (PeerByID id byaddr dial b).1.
Proof.
  unfold PeerByID. destruct (peers b !! checksum id); [apply kept_refl|].
  destruct byaddr; [apply kept_refl|]. destruct dial; [apply kept_emit|].
  eapply kept_trans; [apply kept_emit|apply kept_evict].
Qed.

Lemma kept_Table_Delete i id b : kept b (set_table (Table_Delete (table b) i id).1 b).
Proof. split; try done; apply Table_Delete_kept. Qed.

Lemma kept_Table_Update id b : kept b (set_table (Table_Update (table b) id).1 b).
Proof. split; try done; apply Table_Update_kept. Qed.

Lemma kept_Update_body id io b : kept b (Update_body id io b).1.
Proof.
  unfold SKademlia.Update_body. destruct (Back _) as [lastid|]; [|apply kept_refl].
  destruct (peers b !! checksum lastid) as [lastp|]; [|apply kept_Table_Delete].
  pose proof (kept_Ping lastp io b) as HP.
  destruct (Ping lastp io b) as [b1 [pid err]]. cbn [fst] in HP.
  destruct err as [e|].
  - eapply kept_trans; [done|apply kept_Disconnect].
  - destruct pid as [pid|]; [|done]. destruct (same_id pid lastid).
    + eapply kept_trans; [done|apply kept_emit].
    + eapply kept_trans; [done|apply kept_Disconnect].
Qed.

Lemma kept_Update_from fuel id pings n b : kept b (Update_from fuel id pings n b).1.
Proof.
  revert n b. induction fuel as [|fuel IH]; intros n b; [apply kept_refl|].
  rewrite Update_from_S. destruct (decide _); [|apply kept_Table_Update].
  pose proof (kept_Update_body id (pings n) b) as HB.
  destruct (Update_body id (pings n) b) as [b1 [|err|]]; cbn [fst] in *; [|done..].
  eapply kept_trans; [done|apply IH].
Qed.

(** The answer of [Ping] depends on the state through the node's own ID and
    the parameters of the checks only. *)
Lemma Ping_result_kept p io b b' : kept b b' → (Ping p io b').2 = (Ping p io b).2.
Proof.
  intros [_ _ Hself _ Hlen Hmin Hc1 Hc2]. unfold SKademlia.Ping.
  destruct (send_result io); [done|]. destruct (selected io) as [| |buf]; try done.
  destruct (UnmarshalID buf) as [id [e|]]; [done|].
  cbn [c1 c2 emit table prefixDiffLen prefixDiffMin]. rewrite Hself, Hlen, Hmin, Hc1, Hc2.
  destruct (verifyPuzzle _ _ _ _); [done|]. by destruct (_ <? _).
Qed.

Lemma Ping_answers p io b : (Ping p io b).2 ≠ (None, None).
Proof.
  unfold SKademlia.Ping.
  destruct (send_result io); [done|]. destruct (selected io) as [| |buf]; try done.
  destruct (UnmarshalID buf) as [id [e|]]; [done|].
  cbn [c1 c2 emit]. destruct (verifyPuzzle _ _ _ _); [done|]. by destruct (_ <? _).
Qed.

(** *** [Update] *)

Lemma Table_Update_full_bucket t id :
  (Table_Update t id).2 = Some ErrBucketFull →
  checksum id ≠ checksum (self t) ∧
  (bucketSize t ≤ length (bucket t (getBucketID (checksum (self t)) (checksum id))))%nat.
Proof.
  unfold Table_Update. destruct (decide _); [done|]. destruct (find_entry _ _); [done|].
  destruct (Nat.ltb_spec (length (bucket t (getBucketID (checksum (self t)) (checksum id))))
              (bucketSize t)); [done|]. by intros _.
Qed.

(** X8.  [Update] does not panic in a node whose bucket size is positive:
    [table.Update] reports a full bucket only for a bucket that holds
    [bucketSize] entries, so that [bucket.Back()] is an element and not
    [nil] when its [Value] is taken, and [Ping] never answers without either
    an ID or an error. *)
Theorem Update_never_panics fuel id pings b :
  (0 < bucketSize (table b))%nat →
  (Update fuel id pings b).2 ≠ Panic.
Proof.
  intros Hsize. unfold SKademlia.Update. generalize 0%nat. revert b Hsize.
  induction fuel as [|fuel IH]; intros b Hsize n; [done|].
  rewrite Update_from_S. destruct (decide _) as [Hfull|]; [|done].
  apply Table_Update_full_bucket in Hfull as [_ Hlen].
  assert (∀ b1, kept b b1 → (Update_from fuel id pings (S n) b1).2 ≠ Panic) as Hnext.
  { intros b1 Hk. apply IH. by rewrite (kept_bucketSize _ _ Hk). }
  pose proof (kept_Update_body id (pings n) b) as HB.
  pose proof (Ping_answers) as HP.
  unfold SKademlia.Update_body in *.
  destruct (bucket (table b) _) as [|x l] eqn:Hb using rev_ind; [simpl in Hlen; lia|].
  unfold Back. rewrite last_snoc in *.
  destruct (peers b !! checksum x) as [lastp|]; [|by apply Hnext].
  specialize (HP lastp (pings n) b).
  destruct (Ping lastp (pings n) b) as [b1 [pid err]]. cbn [snd] in HP.
  destruct err as [e|]; [by apply Hnext|].
  destruct pid as [pid|]; [|done]. destruct (same_id pid x); [done|by apply Hnext].
Qed.

Lemma Update_from_result fuel id pings n b b' r :
  Table_ok (table b) →
  Update_from fuel id pings n b = (b', Ret r) →
  Table_ok (table b') ∧ kept b b' ∧
  (r = None ∧ (Table_Update (table b') id).2 = None ∧
     (checksum id = checksum (self (table b)) ∨
      ∃ e rest, bucket (table b') (getBucketID (checksum (self (table b))) (checksum id))
                = e :: rest ∧ checksum e = checksum id)
   ∨ r = Some (Wrap ErrDisconnect cannot_evict) ∧
     (Table_Update (table b') id).2 = Some ErrBucketFull).
Proof.
  revert n b. induction fuel as [|fuel IH]; intros n b Hok Hrun; [done|].
  rewrite Update_from_S in Hrun. destruct (decide _) as [Hfull|Hroom].
  - pose proof (kept_Update_body id (pings n) b) as HB.
    pose proof (Update_body_ok UnmarshalID verifyPuzzle prefixDiff id (pings n) b Hok) as Hok1.
    destruct (Update_body id (pings n) b) as [b1 [|err|]] eqn:Hbody;
      cbn [fst] in *; [|simplify_eq|done].
    + destruct (IH _ _ Hok1 Hrun) as (Hok' & Hk & Hr). split_and!; [done| |].
      * by eapply kept_trans.
      * by rewrite <- (kept_self _ _ HB).
    + split_and!; [done..|]. right.
      unfold SKademlia.Update_body in Hbody.
      destruct (Back _) as [lastid|]; [|done].
      destruct (peers b !! checksum lastid) as [lastp|]; [|done].
      pose proof (Ping_state UnmarshalID verifyPuzzle prefixDiff lastp (pings n) b) as HP.
      destruct (Ping lastp (pings n) b) as [b1 [pid e]]. cbn [fst] in HP.
      destruct e; [done|]. destruct pid as [pid|]; [|done].
      destruct (same_id pid lastid); simplify_eq. done.
  - simplify_eq. pose proof (Table_Update_ok _ Hok id) as Hok'.
    split_and!; [done|apply kept_Table_Update|]. left. split; [done|].
    cbn [table set_table].
    assert (getBucketID (checksum (self (table b))) (checksum id)
            < length (buckets (table b)))%nat as Hi.
    { rewrite (ok_length _ Hok). apply getBucketID_lt. }
    unfold Table_Update in *.
    destruct (decide (checksum id = checksum (self (table b)))) as [Hself|Hne].
    { cbn [fst]. rewrite decide_True by done. split; [done|by left]. }
    destruct (find_entry _ _) as [e|] eqn:Hfind.
    + cbn [fst self set_bucket]. rewrite decide_False by done.
      rewrite bucket_set_bucket by done. apply find_entry_Some in Hfind as [_ He].
      unfold find_entry. simpl. rewrite bool_decide_eq_true_2 by done.
      split; [done|]. right. by eexists _, _.
    + destruct (_ <? _)%nat eqn:Hlt; [|done].
      cbn [fst self set_bucket]. rewrite decide_False by done.
      rewrite bucket_set_bucket by done.
      unfold find_entry. simpl. rewrite bool_decide_eq_true_2 by done.
      split; [done|]. right. by eexists _, _.
Qed.

(** X9.  What [Update] leaves behind when it returns, over a table that
    satisfies the table invariants.  It returns either [nil] or the error
    that wraps [ErrDisconnect] with the cannot-evict message, never the
    table's own [ErrBucketFull].  When it returns [nil], the ID is the node's
    own (and not in the table) or an entry with its checksum is at the front
    of its bucket; when it returns the error, no entry of the table has the
    checksum of the ID and its bucket holds [bucketSize] entries.  The table
    invariants still hold and the node's own ID is the same. *)
Theorem Update_result fuel id pings b b' r :
  Table_ok (table b) →
  Update fuel id pings b = (b', Ret r) →
  let i := getBucketID (checksum (self (table b))) (checksum id) in
  Table_ok (table b') ∧ self (table b') = self (table b) ∧
  (r = None ∧
     (checksum id = checksum (self (table b)) ∨
      ∃ e rest, bucket (table b') i = e :: rest ∧ checksum e = checksum id)
   ∨ r = Some (Wrap ErrDisconnect cannot_evict) ∧
     (checksum id ∉ checksum <$> mjoin (buckets (table b'))) ∧
     length (bucket (table b') i) = bucketSize (table b')).
Proof.
  intros Hok Hrun i.
  destruct (Update_from_result _ _ _ _ _ _ _ Hok Hrun) as (Hok' & Hk & Hr).
  split_and!; [done|by apply kept_self|].
  destruct Hr as [(-> & _ & Hr)|[-> Hfull]]; [by left|right].
  split; [done|].
  pose proof (Table_Update_full_bucket _ _ Hfull) as [Hne Hlen].
  destruct (Table_Update (table b') id) as [t' e] eqn:Hupd. cbn [snd] in Hfull. subst e.
  apply Table_Update_full in Hupd as (_ & _ & Hfind).
  rewrite (kept_self _ _ Hk) in *. fold i in Hfind, Hlen.
  assert (i < length (buckets (table b')))%nat as Hi.
  { rewrite (ok_length _ Hok'). apply getBucketID_lt. }
  split.
  - destruct (concat_insert_perm (buckets (table b')) i (bucket (table b') i) []
                (bucket_lookup _ i Hi)) as [_ Hold].
    rewrite Hold, fmap_app, elem_of_app. intros [Hin|Hin].
    + by apply find_entry_None in Hfind.
    + apply (other_buckets_fresh _ Hok' i id Hi); [|done].
      by rewrite (kept_self _ _ Hk).
  - pose proof (bucket_size _ Hok' i). lia.
Qed.

(** X10.  The eviction of a stale entry.  When the bucket of a new ID is
    full and the entry at its back has no session in the registry, [Update]
    deletes that entry, inserts the ID at the front of the bucket and
    returns [nil]; it sends no ping and changes nothing else. *)
Theorem Update_evicts_stale_back fuel id pings b l lastid :
  Table_ok (table b) →
  (Table_Update (table b) id).2 = Some ErrBucketFull →
  bucket (table b) (getBucketID (checksum (self (table b))) (checksum id))
    = l ++ [lastid] →
  peers b !! checksum lastid = None →
  Update (S (S fuel)) id pings b =
  (set_table (set_bucket (table b) (getBucketID (checksum (self (table b))) (checksum id))
                         (id :: l)) b,
   Ret None).
Proof.
  intros Hok Hfull Hbucket Hnone. unfold SKademlia.Update.
  set (i := getBucketID (checksum (self (table b))) (checksum id)) in *.
  assert (i < length (buckets (table b)))%nat as Hi.
  { rewrite (ok_length _ Hok). apply getBucketID_lt. }
  assert (Back (bucket (table b) i) = Some lastid) as Hback.
  { rewrite Hbucket. apply last_snoc. }
  rewrite Update_turn by done.
  rewrite (Update_body_without_session UnmarshalID verifyPuzzle prefixDiff
             id (pings 0%nat) b lastid Hback Hnone).
  fold i. rewrite Update_from_S.
  pose proof (bucket_NoDup _ Hok i) as Hnd. rewrite Hbucket, fmap_app in Hnd.
  apply NoDup_app in Hnd as (_ & Hfresh & _).
  assert (checksum lastid ∉ checksum <$> l) as Hl.
  { intros Hin. apply (Hfresh _ Hin). simpl. apply list_elem_of_singleton. done. }
  destruct (find_entry_middle (checksum lastid) l [] lastid eq_refl Hl) as [Hfind Hrem].
  rewrite app_nil_r in Hrem.
  assert ((Table_Delete (table b) i lastid).1 = set_bucket (table b) i l) as Hdel.
  { unfold Table_Delete. by rewrite Hbucket, Hfind, Hrem. }
  cbn [table set_table]. rewrite Hdel.
  pose proof (Table_Update_full_bucket _ _ Hfull) as [Hne Hlen]. fold i in Hlen.
  destruct (Table_Update (table b) id) as [t' e] eqn:Hupd. cbn [snd] in Hfull. subst e.
  apply Table_Update_full in Hupd as (_ & _ & Hfind0). fold i in Hfind0.
  pose proof (bucket_size _ Hok i) as Hsize.
  rewrite Hbucket, length_app in Hlen, Hsize. simpl in Hlen, Hsize.
  assert (Table_Update (set_bucket (table b) i l) id
          = (set_bucket (table b) i (id :: l), None)) as Hupd.
  { unfold Table_Update. cbn [self set_bucket bucketSize]. fold i.
    rewrite decide_False by done. rewrite bucket_set_bucket by done.
    assert (find_entry (checksum id) l = None) as ->.
    { apply find_entry_None in Hfind0. rewrite Hbucket, fmap_app in Hfind0.
      destruct (find_entry (checksum id) l) as [e|] eqn:He; [|done].
      apply find_entry_Some in He as [Hin He']. exfalso. apply Hfind0.
      apply elem_of_app. left. rewrite <- He'. by apply list_elem_of_fmap_2. }
    destruct (Nat.ltb_spec (length l) (bucketSize (table b))); [|lia].
    unfold set_bucket. cbn [self buckets bucketSize].
    by rewrite list_insert_insert_eq. }
  rewrite Hupd. cbn [fst snd]. rewrite decide_False by done. done.
Qed.

(** X11.  A frame received on a session refreshes the peer.  When the
    post-receive hook of the session was installed for an ID whose entry is
    in the table, the arrival of a frame moves that entry to the front of its
    bucket, keeping the order of the others; no ping is sent, nothing is
    written to the trace, and the registry is left as it is. *)
Theorem after_recv_moves_entry_to_front fuel p pings b id l1 e l2 :
  afterRecv b !! p = Some [id] →
  checksum id ≠ checksum (self (table b)) →
  bucket (table b) (getBucketID (checksum (self (table b))) (checksum id))
    = l1 ++ e :: l2 →
  checksum e = checksum id → checksum id ∉ checksum <$> l1 →
  after_recv (S fuel) p pings b =
  (set_table (set_bucket (table b) (getBucketID (checksum (self (table b))) (checksum id))
                         (e :: l1 ++ l2)) b,
   Ret ()).
Proof.
  intros Hhook Hne Hbucket He Hl1. unfold SKademlia.after_recv. rewrite Hhook.
  change (default [] (Some [id])) with [id]. cbn [foldl]. unfold SKademlia.refresh.
  destruct (find_entry_middle (checksum id) l1 l2 e He Hl1) as [Hfind Hrem].
  rewrite (Update_at_once UnmarshalID verifyPuzzle prefixDiff fuel id pings b
             (set_bucket (table b) (getBucketID (checksum (self (table b))) (checksum id))
                         (e :: l1 ++ l2))); [done|].
  unfold Table_Update. rewrite decide_False by done. by rewrite Hbucket, Hfind, Hrem.
Qed.

(** *** [PeerByID], [Peers] and the workers of [FindNode] *)

Lemma session_of_peers b b' id answer :
  peers b' = peers b → session_of b' id answer = session_of b id answer.
Proof. unfold session_of. by intros ->. Qed.

Lemma PeerByID_spec id byaddr dial b :
  Table_ok (table b) →
  (PeerByID id byaddr dial b).2 = session_of b id (byaddr, dial) ∧
  peers (PeerByID id byaddr dial b).1 = peers b ∧
  Table_ok (table (PeerByID id byaddr dial b).1) ∧
  match (PeerByID id byaddr dial b).2 with
  | Some _ => table (PeerByID id byaddr dial b).1 = table b
  | None =>
      (∃ err, dial = inr err ∧
         trace (PeerByID id byaddr dial b).1 =
           trace b ++ [Dial (address id) (Some err);
                       Printf "Peer %s could not be reached, and has been evicted." id]) ∧
      mjoin (buckets (table (PeerByID id byaddr dial b).1))
        ≡ₚ filter (λ x, checksum x ≠ checksum id) (mjoin (buckets (table b)))
  end.
Proof.
  intros Hok. unfold PeerByID, session_of.
  destruct (peers b !! checksum id); [done|]. destruct byaddr; [done|].
  destruct dial as [peer|err]; [done|]. cbn [fst snd].
  split; [done|]. split; [done|]. split; [by apply evict_ok|]. split.
  - exists err. split; [done|]. unfold evict. cbn. by rewrite <- app_assoc.
  - apply (Table_Delete_entries (table b) id Hok).
Qed.

(** X12.  [PeerByID] yields the session that the registry holds for the
    checksum of the ID, else the session that the transport already has to
    the address of the ID, else the session that it dials; it yields none
    only when the dial fails, and it has then removed the ID from the
    routing table (and no other entry) before it returns.  It never enters
    the session it found or dialled into the registry, and it leaves the
    table as it is whenever it yields a session. *)
Theorem PeerByID_session_or_eviction id byaddr dial b :
  Table_ok (table b) →
  (PeerByID id byaddr dial b).2 = session_of b id (byaddr, dial) ∧
  peers (PeerByID id byaddr dial b).1 = peers b ∧
  match (PeerByID id byaddr dial b).2 with
  | Some _ => table (PeerByID id byaddr dial b).1 = table b
  | None =>
      (∃ err, dial = inr err ∧
         trace (PeerByID id byaddr dial b).1 =
           trace b ++ [Dial (address id) (Some err);
                       Printf "Peer %s could not be reached, and has been evicted." id]) ∧
      (checksum id ∉ checksum <$> mjoin (buckets (table (PeerByID id byaddr dial b).1))) ∧
      mjoin (buckets (table (PeerByID id byaddr dial b).1))
        ≡ₚ filter (λ x, checksum x ≠ checksum id) (mjoin (buckets (table b)))
  end.
Proof.
  intros Hok. destruct (PeerByID_spec id byaddr dial b Hok) as (Hs & Hp & _ & Hcase).
  split_and!; [done..|].
  destruct (PeerByID id byaddr dial b).2; [done|].
  destruct Hcase as [Herr Hperm]. split_and!; [done| |done].
  rewrite Hperm. intros (x & Hx & [Hne _]%list_elem_of_filter)%list_elem_of_fmap.
  by apply Hne.
Qed.

Lemma length_omap_le {A B} (f : A → option B) (l : list A) :
  (length (omap f l) ≤ length l)%nat.
Proof.
  induction l as [|x l IH]; [done|]. cbn [omap list_omap length].
  fold (omap f l). destruct (f x); cbn [length]; lia.
Qed.

Lemma Peers_from_spec env n ids b :
  Table_ok (table b) →
  (Peers_from env n ids b).2
    = omap id (imap (λ k x, session_of b x (env (n + k)%nat)) ids) ∧
  peers (Peers_from env n ids b).1 = peers b ∧
  Table_ok (table (Peers_from env n ids b).1) ∧
  (∀ x, x ∈ mjoin (buckets (table (Peers_from env n ids b).1)) →
        x ∈ mjoin (buckets (table b))) ∧
  (∀ k x, ids !! k = Some x → session_of b x (env (n + k)%nat) = None →
     checksum x ∉ checksum <$> mjoin (buckets (table (Peers_from env n ids b).1))).
Proof.
  revert n b. induction ids as [|x ids IH]; intros n b Hok.
  { simpl. by split_and!. }
  cbn [Peers_from]. rewrite imap_cons. cbn [omap list_omap].
  destruct (PeerByID_spec x (env n).1 (env n).2 b Hok) as (Hs & Hp & Hok1 & Hcase).
  rewrite <- surjective_pairing in Hs.
  destruct (PeerByID x (env n).1 (env n).2 b) as [b1 s]. cbn [fst snd] in *.
  destruct (IH (S n) b1 Hok1) as (Hs' & Hp' & Hok' & Hsub & Hgone).
  assert (imap ((λ k y, session_of b y (env (n + k)%nat)) ∘ S) ids
          = imap (λ k y, session_of b1 y (env (S n + k)%nat)) ids) as Himap.
  { apply imap_ext. intros k y _. simpl.
    by rewrite Nat.add_succ_r, (session_of_peers b b1). }
  rewrite Nat.add_0_r, <- Hs, Himap, <- Hs'.
  assert (∀ y, y ∈ mjoin (buckets (table b1)) → y ∈ mjoin (buckets (table b))) as Hsub1.
  { intros y Hy. destruct s; [by rewrite <- Hcase|].
    destruct Hcase as [_ Hperm]. rewrite Hperm in Hy.
    by apply list_elem_of_filter in Hy as [_ ?]. }
  assert (∀ k y, (x :: ids) !! k = Some y →
            session_of b y (env (n + k)%nat) = None →
            checksum y ∉
              checksum <$> mjoin (buckets (table (Peers_from env (S n) ids b1).1))) as Hgone1.
  { intros [|k] y Hk Hnone; simpl in Hk.
    - injection Hk as <-. rewrite Nat.add_0_r, <- Hs in Hnone.
      rewrite Hnone in Hcase. destruct Hcase as [_ Hperm].
      intros (z & Hz & Hin%Hsub)%list_elem_of_fmap. rewrite Hperm in Hin.
      apply list_elem_of_filter in Hin as [Hne _]. by apply Hne.
    - apply (Hgone k y Hk).
      by rewrite Nat.add_succ_comm, (session_of_peers b b1). }
  destruct s as [peer|];
    destruct (Peers_from env (S n) ids b1) as [b2 ps]; cbn [fst snd] in *;
    (split_and!; [by rewrite ?Hs'|congruence|done|by auto|done]).
Qed.

(** X13.  [Peers] goes through the [bucketSize] IDs of the table that are
    closest to the node's own and returns, in that order, the session that
    [PeerByID] yields for each; it returns at most [bucketSize] sessions.
    An ID for which no session can be had (none registered, none open to its
    address, and the dial fails) is left out and has been evicted from the
    table when [Peers] returns; no entry is added to the table, the table
    invariants still hold, and the registry is left as it is. *)
Theorem Peers_sessions_or_evictions env b :
  Table_ok (table b) →
  let ids := FindClosest (table b) (self (table b)) (Z.of_nat (bucketSize (table b))) in
  (Peers env b).2 = omap id (imap (λ n x, session_of b x (env n)) ids) ∧
  (length (Peers env b).2 ≤ bucketSize (table b))%nat ∧
  peers (Peers env b).1 = peers b ∧
  Table_ok (table (Peers env b).1) ∧
  (∀ x, x ∈ mjoin (buckets (table (Peers env b).1)) → x ∈ mjoin (buckets (table b))) ∧
  (∀ n x, ids !! n = Some x → session_of b x (env n) = None →
     checksum x ∉ checksum <$> mjoin (buckets (table (Peers env b).1))).
Proof.
  intros Hok ids. unfold Peers. fold ids.
  destruct (Peers_from_spec env 0 ids b Hok) as (Hs & Hp & Hok' & Hsub & Hgone).
  split_and!; [done| |done..].
  rewrite Hs. etrans; [apply length_omap_le|]. rewrite length_imap.
  pose proof (FindClosest_length (table b) (self (table b))
                (Z.of_nat (bucketSize (table b))) ltac:(lia)) as Hlen.
  fold ids in Hlen. lia.
Qed.

Lemma Lookup_state p target io b :
  (Lookup p target io b).1 = emit (Send p 4 (MarshalID target) (send_result io)) b.
Proof.
  unfold SKademlia.Lookup. destruct (send_result io); [done|].
  by destruct (selected io).
Qed.

Lemma Disconnect_single p e b id :
  interceptors b !! p = Some [id] →
  peers (Disconnect p (Some e) b) = delete (checksum id) (peers b) ∧
  table (Disconnect p (Some e) b) =
    (if timed_out e
     then (Table_Delete (table b) (getBucketID (checksum (self (table b))) (checksum id)) id).1
     else table b).
Proof.
  intros Hint. unfold Disconnect, report_error. cbn [interceptors emit]. rewrite Hint.
  change (default [] (Some [id])) with [id]. cbn [foldl].
  rewrite intercept_eq. by destruct (timed_out e).
Qed.

(** X14.  A worker of [FindNode] whose [Lookup] fails disconnects the
    session with the error of the [Lookup].  On a session that carries the
    interceptor of its handshake this removes the peer from the registry in
    every case, and from the routing table exactly when the interceptor
    takes the error for a timeout.  It does so when the timer of the
    [Lookup] fired, not when the session was cancelled; when the send
    failed, [Lookup] has wrapped the error of the transport, so that only
    its cause counts: a transport error that is a [net.Error] with
    [Timeout()] leaves the peer in the routing table. *)
Theorem query_failed_lookup id byaddr dial io b p ids err :
  peers b !! checksum id = Some p →
  interceptors b !! p = Some [id] →
  (Lookup p id io b).2 = (ids, Some err) →
  (query id byaddr dial io b).2 = LookupFailed err ∧
  peers (query id byaddr dial io b).1 = delete (checksum id) (peers b) ∧
  table (query id byaddr dial io b).1 =
    (if timed_out err
     then (Table_Delete (table b) (getBucketID (checksum (self (table b))) (checksum id)) id).1
     else table b) ∧
  (send_result io = None → selected io = TimedOut → timed_out err = true) ∧
  (send_result io = None → selected io = Cancelled → timed_out err = false) ∧
  (∀ e, send_result io = Some e → timed_out err = bool_decide (Cause e = ErrTimeout)) ∧
  (∀ t msg, send_result io = Some (NetError t msg) →
     table (query id byaddr dial io b).1 = table b).
Proof.
  intros Hreg Hint Hlookup.
  assert (∀ e, send_result io = Some e → timed_out err = bool_decide (Cause e = ErrTimeout))
    as Hsend.
  { intros e He. unfold SKademlia.Lookup in Hlookup. rewrite He in Hlookup.
    by simplify_eq/=. }
  assert (send_result io = None → selected io = TimedOut → timed_out err = true) as Htimer.
  { intros Hs Hsel. unfold SKademlia.Lookup in Hlookup. rewrite Hs, Hsel in Hlookup.
    by simplify_eq/=. }
  assert (send_result io = None → selected io = Cancelled → timed_out err = false)
    as Hcancel.
  { intros Hs Hsel. unfold SKademlia.Lookup in Hlookup. rewrite Hs, Hsel in Hlookup.
    by simplify_eq/=. }
  unfold SKademlia.query, PeerByID. rewrite Hreg.
  pose proof (Lookup_state p id io b) as Hst.
  destruct (Lookup p id io b) as [b1 [ids' e]]. cbn [fst snd] in *. simplify_eq.
  destruct (Disconnect_single p err
              (emit (Send p 4 (MarshalID id) (send_result io)) b) id Hint) as [Hp Ht].
  cbv beta iota zeta. cbn [fst snd].
  split_and!; [done..|].
  intros t msg He. rewrite Ht, (Hsend _ He). done.
Qed.

(** *** [Handshake]: hooks, completion signal and rejection *)

Lemma register_outcome fuel p id io b b' r :
  register fuel p id io b = (b', Ret r) →
  (∃ pre, trace b' = pre ++ [Signal p SignalHandshakeComplete]) ∧
  (r = (Some id, None) ∧
     interceptors b' = <[p := default [] (interceptors b !! p) ++ [id]]> (interceptors b) ∧
     afterRecv b' = <[p := default [] (afterRecv b !! p) ++ [id]]> (afterRecv b)
   ∨ ∃ err, r = (None, Some err) ∧
       interceptors b' = interceptors b ∧ afterRecv b' = afterRecv b).
Proof.
  unfold SKademlia.register, SKademlia.Update.
  pose proof (kept_Update_from fuel id (hs_pings io) 0
                (set_peers (<[checksum id := p]> (peers b)) b)) as Hk.
  destruct (Update_from fuel id (hs_pings io) 0 _) as [b1 [[err|]| |]];
    cbn [fst] in Hk; intros Hr; simplify_eq.
  - split; [by eexists|]. right. exists err. split; [done|].
    destruct Hk as [Hi Ha _ _ _ _ _ _]. cbn in *. by rewrite Hi, Ha.
  - split; [by eexists|]. left. split; [done|].
    destruct Hk as [Hi Ha _ _ _ _ _ _]. cbn in *. by rewrite Hi, Ha.
Qed.

(** X15.  [Handshake] installs its two hooks exactly when it succeeds, and
    signals completion whenever it returns.  It returns either an ID and no
    error, or an error and no ID.  In the first case the ID is the one that
    [Ping] obtained, and the session has gained one error interceptor and one
    post-receive hook for it; in the second case the hooks of every session
    are as they were.  In both cases the deferred completion signal of the
    session is the last thing that happens. *)
Theorem Handshake_hooks_and_signal fuel p io b b' r :
  Handshake fuel p io b = (b', Ret r) →
  (∃ pre, trace b' = pre ++ [Signal p SignalHandshakeComplete]) ∧
  ((∃ id, r = (Some id, None) ∧ (Ping p (hs_ping io) b).2 = (Some id, None) ∧
      interceptors b' = <[p := default [] (interceptors b !! p) ++ [id]]> (interceptors b) ∧
      afterRecv b' = <[p := default [] (afterRecv b !! p) ++ [id]]> (afterRecv b))
   ∨ ∃ err, r = (None, Some err) ∧
       interceptors b' = interceptors b ∧ afterRecv b' = afterRecv b).
Proof.
  unfold SKademlia.Handshake.
  pose proof (kept_Ping p (hs_ping io) b) as Hk.
  destruct (Ping p (hs_ping io) b) as [b1 [pid perr]]. cbn [fst snd] in *.
  assert (∀ b2, kept b1 b2 → register fuel p (default inhabitant pid) io b2 = (b', Ret r) →
            pid = Some (default inhabitant pid) →
            (∃ pre, trace b' = pre ++ [Signal p SignalHandshakeComplete]) ∧
            ((∃ id, r = (Some id, None) ∧ (pid, @None error) = (Some id, None) ∧
                interceptors b' =
                  <[p := default [] (interceptors b !! p) ++ [id]]> (interceptors b) ∧
                afterRecv b' = <[p := default [] (afterRecv b !! p) ++ [id]]> (afterRecv b))
             ∨ ∃ err, r = (None, Some err) ∧
                 interceptors b' = interceptors b ∧ afterRecv b' = afterRecv b)) as Hreg.
  { intros b2 Hk2 Hr Hpid.
    pose proof (kept_trans _ _ _ Hk Hk2) as [Hi Ha _ _ _ _ _ _].
    destruct (register_outcome _ _ _ _ _ _ _ Hr) as [Htr [(-> & Hi' & Ha')|(err & -> & Hi' & Ha')]].
    - split; [done|]. left. exists (default inhabitant pid).
      rewrite Hi', Ha', Hi, Ha. by rewrite <- Hpid.
    - split; [done|]. right. exists err. by rewrite Hi', Ha', Hi, Ha. }
  destruct perr as [err|].
  - clear Hreg. destruct pid; intros [= <- <-]; (split; [by eexists|]); right; exists err;
      (split_and!; [done|apply (kept_interceptors _ _ Hk)|apply (kept_afterRecv _ _ Hk)]).
  - destruct pid as [id|]; [|done]. cbn [default] in Hreg.
    destruct (_ && _).
    + pose proof (kept_PeerByID id (hs_byaddr io) (hs_dial io) b1) as Hk2.
      destruct (PeerByID id (hs_byaddr io) (hs_dial io) b1) as [b2 [q|]]; cbn [fst] in Hk2.
      * intros Hr. apply (Hreg (Disconnect q None b2)); [|done..].
        eapply kept_trans; [done|apply kept_Disconnect].
      * intros [= <- <-]. split; [by eexists|]. right. exists ErrTimeout.
        pose proof (kept_trans _ _ _ Hk Hk2) as Hk3.
        split_and!; [done|apply (kept_interceptors _ _ Hk3)|apply (kept_afterRecv _ _ Hk3)].
    + intros Hr. apply (Hreg b1); [apply kept_refl|done..].
Qed.

(** X16.  A handshake that [Update] rejects leaves its session in the
    registry.  When the bucket of the new ID is full and the entry at its
    back answers the probe with its own ID, [Handshake] fails with the
    cannot-evict error; the registry entry that it wrote for the new ID
    before calling [Update] is still there, pointing at the rejected
    session, while no error interceptor was installed that would remove it
    when the session ends, and the table is as it was. *)
Theorem Handshake_rejected_stays_registered fuel p io b id lastid lastp pid :
  (Ping p (hs_ping io) b).2 = (Some id, None) →
  hs_addr io = address id →
  (Table_Update (table b) id).2 = Some ErrBucketFull →
  Back (bucket (table b) (getBucketID (checksum (self (table b))) (checksum id)))
    = Some lastid →
  peers b !! checksum lastid = Some lastp →
  (Ping lastp (hs_pings io 0%nat) b).2 = (Some pid, None) → same_id pid lastid = true →
  (Handshake (S fuel) p io b).2 = Ret (None, Some (Wrap ErrDisconnect cannot_evict)) ∧
  peers (Handshake (S fuel) p io b).1 = <[checksum id := p]> (peers b) ∧
  interceptors (Handshake (S fuel) p io b).1 = interceptors b ∧
  afterRecv (Handshake (S fuel) p io b).1 = afterRecv b ∧
  table (Handshake (S fuel) p io b).1 = table b.
Proof.
  intros Hping Haddr Hfull Hback Hlastp Hprobe Hsame.
  unfold SKademlia.Handshake.
  pose proof (Ping_state UnmarshalID verifyPuzzle prefixDiff p (hs_ping io) b) as Hst.
  destruct (Ping p (hs_ping io) b) as [b1 res]. cbn [fst snd] in *. subst b1 res.
  rewrite (bool_decide_eq_true_2 (hs_addr io = address id)) by done.
  rewrite andb_false_r.
  unfold SKademlia.register, SKademlia.Update.
  set (b2 := set_peers _ _).
  assert (kept b b2) as Hk by (by split).
  assert (table b2 = table b) as Ht by done.
  assert (checksum lastid ≠ checksum id) as Hne.
  { destruct (Table_Update (table b) id) as [t' e] eqn:Hupd. cbn [snd] in Hfull. subst e.
    apply Table_Update_full in Hupd as (_ & _ & Hfind). apply find_entry_None in Hfind.
    intros Heq. apply Hfind. apply list_elem_of_fmap. exists lastid. split; [done|].
    unfold Back in Hback. apply last_Some in Hback as [l' ->].
    apply elem_of_app. right. by apply list_elem_of_singleton. }
  assert (peers b2 !! checksum lastid = Some lastp) as Hlastp2.
  { unfold b2. cbn [peers set_peers emit]. by rewrite lookup_insert_ne. }
  rewrite Update_turn by (by rewrite Ht).
  assert (Back (bucket (table b2) (getBucketID (checksum (self (table b2))) (checksum id)))
          = Some lastid) as Hback2 by (by rewrite Ht).
  rewrite (Update_body_with_session UnmarshalID verifyPuzzle prefixDiff
             id (hs_pings io 0%nat) b2 lastid Hback2 lastp Hlastp2).
  rewrite (Ping_result_kept lastp (hs_pings io 0%nat) b b2 Hk), Hprobe, Hsame.
  rewrite Ping_state. by cbn.
Qed.

(** *** The two ends of an RPC *)

(** X17.  A ping is answered with the ID of the node that serves it.  When
    the serving loop of a node receives a ping frame and its answer is
    sent, the answer is that node's own ID in wire form; a [Ping] that
    receives this answer returns that ID, provided the codec decodes what it
    encoded and the ID passes the checks of the pinging node.  Serving the
    ping changes nothing in the serving node. *)
Theorem Ping_served_by_peer p q a s :
  UnmarshalID (MarshalID (self (table s))) = (self (table s), None) →
  validated a (self (table s)) →
  ∃ pong,
    serve q (PingRequest None) s = emit (Send q 3 pong None) s ∧
    Ping p (mkRPC None (Received pong)) a =
      (emit (Send p 3 [] None) a, (Some (self (table s)), None)).
Proof.
  intros Hcodec [Hpuzzle Hdiff]. exists (MarshalID (self (table s))). split; [done|].
  unfold SKademlia.Ping. cbn [send_result selected]. rewrite Hcodec.
  cbn [c1 c2 emit table prefixDiffLen prefixDiffMin]. rewrite Hpuzzle.
  by destruct (Z.ltb_spec (prefixDiff (slice (checksum (self (table a))))
                             (slice (checksum (self (table s)))) (prefixDiffLen a))
                          (prefixDiffMin a)); [lia|].
Qed.

(** X18.  A lookup is answered with the closest IDs of the node that serves
    it.  When the serving loop of a node receives the request that [Lookup]
    sent for a target and its answer is sent, a [Lookup] that receives this
    answer returns the [bucketSize] IDs of the serving node's table that are
    closest to the target, provided the codec decodes what it encoded: at
    most [bucketSize] IDs, in ascending XOR distance to the target, none of
    them the serving node's own.  Neither side changes its table or its
    registry. *)
Theorem Lookup_served_by_peer p q a s target :
  let ids := FindClosest (table s) target (Z.of_nat (bucketSize (table s))) in
  UnmarshalID (MarshalID target) = (target, None) →
  UnmarshalIDs (MarshalIDs ids) = (ids, None) →
  ∃ request response,
    (∀ io, (Lookup p target io a).1 = emit (Send p 4 request (send_result io)) a) ∧
    serve q (LookupRequest request None) s = emit (Send q 4 response None) s ∧
    Lookup p target (mkRPC None (Received response)) a =
      (emit (Send p 4 request None) a, (ids, None)) ∧
    (length ids ≤ bucketSize (table s))%nat ∧
    ascending (λ x, XORdistance (checksum x) (checksum target)) ids ∧
    (checksum (self (table s)) ∉ checksum <$> ids).
Proof.
  intros ids Hid Hids. exists (MarshalID target), (MarshalIDs ids). split_and!.
  - intros io. apply Lookup_state.
  - unfold SKademlia.serve. by rewrite Hid.
  - unfold SKademlia.Lookup. cbn [send_result selected]. by rewrite Hids.
  - pose proof (FindClosest_length (table s) target (Z.of_nat (bucketSize (table s)))
                  ltac:(lia)) as Hlen.
    fold ids in Hlen. lia.
  - apply FindClosest_ascending.
  - apply FindClosest_noself.
Qed.

(** *** The states that a node reaches *)

Lemma kept_serve p req b : kept b (serve p req b).
Proof.
  unfold SKademlia.serve. destruct req as [send|buf send].
  - destruct send; [|apply kept_emit].
    eapply kept_trans; [apply kept_emit|apply kept_Disconnect].
  - destruct (UnmarshalID buf) as [target [e|]].
    + set (b1 := Disconnect p _ b). assert (kept b b1) as Hk1 by apply kept_Disconnect.
      destruct send.
      * eapply kept_trans; [done|]. eapply kept_trans; [apply kept_emit|apply kept_Disconnect].
      * eapply kept_trans; [done|apply kept_emit].
    + destruct send; [|apply kept_emit].
      eapply kept_trans; [apply kept_emit|apply kept_Disconnect].
Qed.

Lemma kept_refresh fuel p pings id b : kept b (refresh fuel p pings id b).1.
Proof.
  unfold SKademlia.refresh, SKademlia.Update.
  pose proof (kept_Update_from fuel id pings 0 b) as Hk.
  destruct (Update_from fuel id pings 0 b) as [b1 [[err|]| |]]; cbn [fst] in *; try done.
  eapply kept_trans; [done|apply kept_Disconnect].
Qed.

Lemma kept_after_recv fuel p pings b : kept b (after_recv fuel p pings b).1.
Proof.
  unfold SKademlia.after_recv. generalize (default [] (afterRecv b !! p)). intros l.
  assert (∀ b0 r, kept b b0 →
            kept b (foldl (λ '(b, r) id,
                             match r with
                             | Ret _ => refresh fuel p pings id b
                             | _ => (b, r)
                             end) (b0, r) l).1) as Hl.
  { induction l as [|id l IH]; intros b0 r Hb0; [done|]. cbn [foldl].
    destruct r as [[]| |]; [|by apply IH..].
    pose proof (kept_refresh fuel p pings id b0) as Hk.
    destruct (refresh fuel p pings id b0) as [b1 r1]. apply IH.
    by eapply kept_trans. }
  apply Hl, kept_refl.
Qed.

(** X19.  In every state that a node reaches from [New] by handshakes, served
    requests, received frames, session errors, disconnections and the
    [PeerByID] calls of its lookups, the routing table satisfies the table
    invariants with 256 buckets of at most 16 entries, the parameters of the
    checks are the defaults, and a session carries an error interceptor for
    an ID exactly when it carries the post-receive hook for it. *)
Theorem reachable_keeps_invariants b :
  reachable b →
  Table_ok (table b) ∧ length (buckets (table b)) = 256%nat ∧
  bucketSize (table b) = 16%nat ∧
  (c1 b, c2 b, prefixDiffLen b, prefixDiffMin b) = (16, 16, 128, 32) ∧
  interceptors b = afterRecv b.
Proof.
  intros Hreach.
  split; [by apply (reachable_ok UnmarshalID MarshalID MarshalIDs verifyPuzzle prefixDiff)|].
  split.
  { apply (reachable_ok UnmarshalID MarshalID MarshalIDs verifyPuzzle prefixDiff) in Hreach.
    by destruct Hreach. }
  assert (∀ b b', kept b b' →
            bucketSize (table b) = 16%nat ∧
            (c1 b, c2 b, prefixDiffLen b, prefixDiffMin b) = (16, 16, 128, 32) ∧
            interceptors b = afterRecv b →
            bucketSize (table b') = 16%nat ∧
            (c1 b', c2 b', prefixDiffLen b', prefixDiffMin b') = (16, 16, 128, 32) ∧
            interceptors b' = afterRecv b') as Hkept.
  { intros b0 b1 [-> -> _ -> -> -> -> ->]. done. }
  induction Hreach as [selfid|fuel p io b Hreach IH|p req b Hreach IH
                       |fuel p pings b Hreach IH|p err b Hreach IH|p err b Hreach IH
                       |id byaddr dial b Hreach IH].
  - done.
  - clear Hreach. unfold SKademlia.Handshake.
    pose proof (kept_Ping p (hs_ping io) b) as Hk.
    destruct (Ping p (hs_ping io) b) as [b1 [pid perr]]. cbn [fst] in Hk.
    assert (∀ id b2, kept b b2 →
              bucketSize (table (register fuel p id io b2).1) = 16%nat ∧
              (c1 (register fuel p id io b2).1, c2 (register fuel p id io b2).1,
               prefixDiffLen (register fuel p id io b2).1,
               prefixDiffMin (register fuel p id io b2).1) = (16, 16, 128, 32) ∧
              interceptors (register fuel p id io b2).1
                = afterRecv (register fuel p id io b2).1) as Hreg.
    { intros id b2 Hk2. unfold SKademlia.register, SKademlia.Update.
      pose proof (kept_Update_from fuel id (hs_pings io) 0
                    (set_peers (<[checksum id := p]> (peers b2)) b2)) as Hk3.
      assert (kept b (Update_from fuel id (hs_pings io) 0
                        (set_peers (<[checksum id := p]> (peers b2)) b2)).1) as Hk4.
      { eapply kept_trans; [done|]. eapply kept_trans; [apply kept_set_peers|done]. }
      specialize (Hkept _ _ Hk4 IH).
      destruct (Update_from fuel id (hs_pings io) 0 _) as [b3 [[err|]| |]];
        cbn [fst] in *; try done.
      destruct Hkept as (? & ? & Heq). split_and!; [done..|]. cbn. by rewrite Heq. }
    destruct perr as [err|].
    { assert (kept b (signal p b1)) as Hk'
        by (eapply kept_trans; [done|apply kept_emit]).
      destruct pid; by apply (Hkept b). }
    destruct pid as [id|]; [|by apply (Hkept b)].
    destruct (_ && _); [|by apply Hreg].
    pose proof (kept_PeerByID id (hs_byaddr io) (hs_dial io) b1) as Hk2.
    destruct (PeerByID id (hs_byaddr io) (hs_dial io) b1) as [b2 [q|]]; cbn [fst] in Hk2.
    + apply Hreg. eapply kept_trans; [done|]. eapply kept_trans; [done|apply kept_Disconnect].
    + apply (Hkept b); [|done]. eapply kept_trans; [done|].
      eapply kept_trans; [done|apply kept_emit].
  - apply (Hkept b); [apply kept_serve|done].
  - apply (Hkept b); [apply kept_after_recv|done].
  - apply (Hkept b); [apply kept_report_error|done].
  - apply (Hkept b); [apply kept_Disconnect|done].
  - apply (Hkept b); [apply kept_PeerByID|done].
Qed.

End protocol_more.

(** ** The results at the concrete nodes and runs *)

Section more_runs.
Local Open Scope nat_scope.

Local Abbreviation PingH := (Ping (UnmarshalID H0) (verifyPuzzle H0) prefixDiff).
Local Abbreviation LookupH := (Lookup (UnmarshalIDs H0) MarshalID).
Local Abbreviation UpdateH := (Update (UnmarshalID H0) (verifyPuzzle H0) prefixDiff).
Local Abbreviation HandshakeH := (Handshake (UnmarshalID H0) (verifyPuzzle H0) prefixDiff).
Local Abbreviation after_recvH :=
  (after_recv (UnmarshalID H0) (verifyPuzzle H0) prefixDiff).
Local Abbreviation serveH := (serve (UnmarshalID H0) MarshalID MarshalIDs).
Local Abbreviation reachableH :=
  (reachable (UnmarshalID H0) MarshalID MarshalIDs (verifyPuzzle H0) prefixDiff).

Example validated_remote100 : validated (verifyPuzzle H0) prefixDiff run0 (remote 100).
Proof. split; by vm_compute. Qed.

Example run4_ok : Table_ok (table run4).
Proof.
  apply (reachable_ok (UnmarshalID H0) MarshalID MarshalIDs (verifyPuzzle H0) prefixDiff).
  apply run_reachable.
Qed.

(** A schedule on which the only request of [FindNode] at [run1] finds no
    session: the worker goes on, and the main goroutine of group 0 is left
    waiting for a response. *)
Example FindNode_unanswered :
  FindClosest (table run1) (remote 50) 16 ≠ [] ∧
  unanswered_schedule [Main 0; Main 0; Main 0; Take 0; Finish 0 0 NoPeer; Main 1].
Proof. split; [by vm_compute|]. by repeat constructor. Qed.

Lemma FindNode_hangs_without_response_witness :
  (FindClosest (table run1) (remote 50) 16 ≠ [] ∧
   unanswered_schedule [Main 0; Main 0; Main 0; Take 0; Finish 0 0 NoPeer; Main 1]) ∧
  FindNode run1 (remote 50) 16 1 2
    [Main 0; Main 0; Main 0; Take 0; Finish 0 0 NoPeer; Main 1] = Diverge.
Proof.
  split; [exact FindNode_unanswered|].
  exact (FindNode_hangs_without_response run1 (remote 50) 16 1 2 _
           (proj1 FindNode_unanswered) (proj2 FindNode_unanswered)
           ltac:(lia) ltac:(lia)).
Defined.

Example FindClosest_run0 : FindClosest (table run0) (remote 50) 16 = [].
Proof. by vm_compute. Qed.

Lemma FindNode_without_seeds_witness :
  FindClosest (table run0) (remote 50) 16 = [] ∧
  FindNode run0 (remote 50) 16 3 8 (Main <$> seq 0 (Z.to_nat 8)) = Ret [].
Proof.
  split; [exact FindClosest_run0|].
  exact (proj1 (FindNode_without_seeds run0 (remote 50) 16 3 8 FindClosest_run0
                  ltac:(lia) ltac:(lia) ltac:(lia))).
Defined.

Lemma FindNode_results_provenance_witness :
  FindNode run1 (remote 50) 16 1 2 sched0 = Ret [remote 3; remote 7; remote 100] ∧
  (remote 3 ∈ mjoin (buckets (table run1)) ∨ remote 3 ∈ delivered sched0).
Proof.
  split; [exact FindNode_sched0|].
  apply (FindNode_results_provenance run1 (remote 50) 16 1 2 sched0 _ FindNode_sched0).
  by left.
Defined.

Lemma FindNode_asks_each_peer_once_witness :
  Table_ok (table run1) ∧
  NoDup (checksum <$>
         received 1 sched0 (start run1 (remote 50)
                              (FindClosest (table run1) (remote 50) 16) 2)).
Proof.
  split; [exact run1_ok|].
  exact (proj1 (FindNode_asks_each_peer_once run1 (remote 50) 16 1 2 sched0 run1_ok)).
Defined.


Lemma evict_removes_exactly_witness :
  Table_ok (table run4) ∧
  checksum (remote 7) ∉ checksum <$> mjoin (buckets (table (evict (remote 7) run4))).
Proof.
  split; [exact run4_ok|].
  exact (proj1 (proj2 (evict_removes_exactly (remote 7) run4 run4_ok))).
Defined.

Lemma Update_never_panics_witness :
  0 < bucketSize (table run4) ∧
  (UpdateH 3 (remote 200) (λ _, silent) run4).2 ≠ Panic.
Proof.
  assert (0 < bucketSize (table run4)) as Hsize by (vm_compute; lia).
  split; [exact Hsize|].
  exact (Update_never_panics (UnmarshalID H0) (verifyPuzzle H0) prefixDiff
           3 (remote 200) (λ _, silent) run4 Hsize).
Defined.

Example Update_run4 :
  UpdateH 2 (remote 200) (λ _, pong (remote 1)) run4 =
  ((UpdateH 2 (remote 200) (λ _, pong (remote 1)) run4).1,
   Ret (Some (Wrap ErrDisconnect cannot_evict))).
Proof. by vm_compute. Qed.

Lemma Update_result_witness :
  Table_ok (table run4) ∧
  self (table (UpdateH 2 (remote 200) (λ _, pong (remote 1)) run4).1) = self (table run4).
Proof.
  split; [exact run4_ok|].
  exact (proj1 (proj2 (Update_result (UnmarshalID H0) (verifyPuzzle H0) prefixDiff
                         2 (remote 200) (λ _, pong (remote 1)) run4 _ _
                         run4_ok Update_run4))).
Defined.

(** The node [run4] after session 1 has ended with an error that is no
    timeout: [remote 1] is still at the back of the full bucket, without a
    session. *)
Example stale_back :
  Table_ok (table (report_error 1 EOF run4)) ∧
  (Table_Update (table (report_error 1 EOF run4)) (remote 200)).2 = Some ErrBucketFull ∧
  bucket (table (report_error 1 EOF run4))
         (getBucketID (checksum (self (table (report_error 1 EOF run4))))
                      (checksum (remote 200)))
    = (remote <$> rev (seq 2 15)) ++ [remote 1] ∧
  peers (report_error 1 EOF run4) !! checksum (remote 1) = None.
Proof.
  split; [by apply report_error_ok, run4_ok|]. by vm_compute.
Qed.

Lemma Update_evicts_stale_back_witness :
  peers (report_error 1 EOF run4) !! checksum (remote 1) = None ∧
  (UpdateH 2 (remote 200) (λ _, silent) (report_error 1 EOF run4)).2 = Ret None.
Proof.
  split; [exact (proj2 (proj2 (proj2 stale_back)))|].
  exact (f_equal snd
           (Update_evicts_stale_back (UnmarshalID H0) (verifyPuzzle H0) prefixDiff
              0 (remote 200) (λ _, silent) (report_error 1 EOF run4) _ (remote 1)
              (proj1 stale_back) (proj1 (proj2 stale_back))
              (proj1 (proj2 (proj2 stale_back))) (proj2 (proj2 (proj2 stale_back))))).
Defined.

Example hook_of_session_1 :
  afterRecv run4 !! 1 = Some [remote 1] ∧
  checksum (remote 1) ≠ checksum (self (table run4)) ∧
  bucket (table run4) (getBucketID (checksum (self (table run4))) (checksum (remote 1)))
    = (remote <$> rev (seq 2 15)) ++ remote 1 :: [] ∧
  checksum (remote 1) ∉ checksum <$> (remote <$> rev (seq 2 15)).
Proof.
  split_and!; [by vm_compute|by vm_compute|by vm_compute|].
  apply (bool_decide_unpack _). by vm_compute.
Qed.

Lemma after_recv_moves_entry_to_front_witness :
  afterRecv run4 !! 1 = Some [remote 1] ∧
  bucket (table (after_recvH 1 1 (λ _, silent) run4).1) 16
    = remote 1 :: (remote <$> rev (seq 2 15)).
Proof.
  split; [exact (proj1 hook_of_session_1)|].
  rewrite (after_recv_moves_entry_to_front (UnmarshalID H0) (verifyPuzzle H0) prefixDiff
             0 1 (λ _, silent) run4 (remote 1) _ (remote 1) []
             (proj1 hook_of_session_1) (proj1 (proj2 hook_of_session_1))
             (proj1 (proj2 (proj2 hook_of_session_1))) eq_refl
             (proj2 (proj2 (proj2 hook_of_session_1)))).
  by vm_compute.
Defined.

Lemma PeerByID_session_or_eviction_witness :
  Table_ok (table lost) ∧
  (PeerByID (remote 100) None (inr refused) lost).2 =
    session_of lost (remote 100) (None, inr refused).
Proof.
  assert (Table_ok (table lost)) as Hok.
  { apply (reachable_ok (UnmarshalID H0) MarshalID MarshalIDs (verifyPuzzle H0) prefixDiff).
    apply run_reachable. }
  split; [exact Hok|].
  exact (proj1 (PeerByID_session_or_eviction (remote 100) None (inr refused) lost Hok)).
Defined.

Lemma Peers_sessions_or_evictions_witness :
  Table_ok (table run4) ∧ length (Peers (λ _, (None, inr refused)) run4).2 ≤ bucketSize (table run4).
Proof.
  split; [exact run4_ok|].
  exact (proj1 (proj2 (Peers_sessions_or_evictions (λ _, (None, inr refused)) run4 run4_ok))).
Defined.

Example session_100 :
  peers run1 !! checksum (remote 100) = Some 100 ∧
  interceptors run1 !! 100 = Some [remote 100] ∧
  (LookupH 100 (remote 100) silent run1).2 =
    ([], Some (Wrap ErrTimeout "timed out receiving finde node response")).
Proof. by vm_compute. Qed.

Lemma query_failed_lookup_witness :
  peers run1 !! checksum (remote 100) = Some 100 ∧
  (query (UnmarshalIDs H0) MarshalID (remote 100) None (inr refused) silent run1).2 =
    LookupFailed (Wrap ErrTimeout "timed out receiving finde node response").
Proof.
  split; [exact (proj1 session_100)|].
  exact (proj1 (query_failed_lookup (UnmarshalIDs H0) MarshalID
                  (remote 100) None (inr refused) silent run1 100 _ _
                  (proj1 session_100) (proj1 (proj2 session_100))
                  (proj2 (proj2 session_100)))).
Defined.

Example Handshake_run0 :
  HandshakeH 4 100
    (mkHandshakeIO (address (remote 100)) (pong (remote 100)) None (inr refused)
                   (λ _, silent)) run0 =
  (run1, Ret (Some (remote 100), None)).
Proof. by vm_compute. Qed.

Lemma Handshake_hooks_and_signal_witness :
  HandshakeH 4 100
    (mkHandshakeIO (address (remote 100)) (pong (remote 100)) None (inr refused)
                   (λ _, silent)) run0 =
  (run1, Ret (Some (remote 100), None)) ∧
  ∃ pre, trace run1 = pre ++ [Signal 100 SignalHandshakeComplete].
Proof.
  split; [exact Handshake_run0|].
  exact (proj1 (Handshake_hooks_and_signal (UnmarshalID H0) (verifyPuzzle H0) prefixDiff
                  4 100 _ run0 run1 _ Handshake_run0)).
Defined.

Example rejection_at_run4 :
  (PingH 102 (pong (remote 100)) run4).2 = (Some (remote 100), None) ∧
  (Table_Update (table run4) (remote 100)).2 = Some ErrBucketFull ∧
  Back (bucket (table run4)
          (getBucketID (checksum (self (table run4))) (checksum (remote 100))))
    = Some (remote 1) ∧
  peers run4 !! checksum (remote 1) = Some 1 ∧
  (PingH 1 (pong (remote 1)) run4).2 = (Some (remote 1), None) ∧
  same_id (remote 1) (remote 1) = true.
Proof. by vm_compute. Qed.

Lemma Handshake_rejected_stays_registered_witness :
  (Table_Update (table run4) (remote 100)).2 = Some ErrBucketFull ∧
  (HandshakeH 1 102
     (mkHandshakeIO (address (remote 100)) (pong (remote 100)) None (inr refused)
                    (λ _, pong (remote 1))) run4).2
    = Ret (None, Some (Wrap ErrDisconnect cannot_evict)).
Proof.
  destruct rejection_at_run4 as (H1 & H2 & H3 & H4 & H5 & H6).
  split; [exact H2|].
  exact (proj1 (Handshake_rejected_stays_registered
                  (UnmarshalID H0) (verifyPuzzle H0) prefixDiff 0 102
                  (mkHandshakeIO (address (remote 100)) (pong (remote 100)) None
                                 (inr refused) (λ _, pong (remote 1)))
                  run4 (remote 100) (remote 1) 1 (remote 1)
                  H1 eq_refl H2 H3 H4 H5 H6)).
Defined.

Example codec_remote100 :
  UnmarshalID H0 (MarshalID (self (table (New (remote 100))))) =
    (self (table (New (remote 100))), None).
Proof. by vm_compute. Qed.

Lemma Ping_served_by_peer_witness :
  validated (verifyPuzzle H0) prefixDiff run0 (self (table (New (remote 100)))) ∧
  ∃ pong,
    serveH 7 (PingRequest None) (New (remote 100)) =
      emit (Send 7 3 pong None) (New (remote 100)) ∧
    PingH 100 (mkRPC None (Received pong)) run0 =
      (emit (Send 100 3 [] None) run0, (Some (self (table (New (remote 100)))), None)).
Proof.
  split; [exact validated_remote100|].
  exact (Ping_served_by_peer (UnmarshalID H0) MarshalID MarshalIDs (verifyPuzzle H0)
           prefixDiff 100 7 run0 (New (remote 100)) codec_remote100 validated_remote100).
Defined.

Example codec_lookup :
  UnmarshalID H0 (MarshalID (remote 50)) = (remote 50, None) ∧
  UnmarshalIDs H0 (MarshalIDs (FindClosest (table run4) (remote 50)
                                 (Z.of_nat (bucketSize (table run4)))))
  = (FindClosest (table run4) (remote 50) (Z.of_nat (bucketSize (table run4))), None).
Proof. by vm_compute. Qed.

Lemma Lookup_served_by_peer_witness :
  UnmarshalID H0 (MarshalID (remote 50)) = (remote 50, None) ∧
  ∃ request response,
    (∀ io, (LookupH 9 (remote 50) io run0).1 = emit (Send 9 4 request (send_result io)) run0) ∧
    serveH 7 (LookupRequest request None) run4 = emit (Send 7 4 response None) run4 ∧
    LookupH 9 (remote 50) (mkRPC None (Received response)) run0 =
      (emit (Send 9 4 request None) run0,
       (FindClosest (table run4) (remote 50) (Z.of_nat (bucketSize (table run4))), None)) ∧
    length (FindClosest (table run4) (remote 50) (Z.of_nat (bucketSize (table run4))))
      ≤ bucketSize (table run4) ∧
    ascending (λ x, XORdistance (checksum x) (checksum (remote 50)))
              (FindClosest (table run4) (remote 50) (Z.of_nat (bucketSize (table run4)))) ∧
    checksum (self (table run4)) ∉
      checksum <$> FindClosest (table run4) (remote 50) (Z.of_nat (bucketSize (table run4))).
Proof.
  split; [exact (proj1 codec_lookup)|].
  exact (Lookup_served_by_peer (UnmarshalID H0) (UnmarshalIDs H0) MarshalID MarshalIDs
           9 7 run0 run4 (remote 50) (proj1 codec_lookup) (proj2 codec_lookup)).
Defined.

Lemma reachable_keeps_invariants_witness :
  reachableH run8 ∧ bucketSize (table run8) = 16 ∧ interceptors run8 = afterRecv run8.
Proof.
  pose proof (proj1 (proj2 (proj2 run_reachable))) as Hreach.
  split; [exact Hreach|].
  pose proof (reachable_keeps_invariants (UnmarshalID H0) MarshalID MarshalIDs
                (verifyPuzzle H0) prefixDiff run8 Hreach) as (_ & _ & Hsize & _ & Hhooks).
  by split.
Defined.

End more_runs.

End SKademliaSpec.

Module NetworkSpec.
Import Network.

(** ** [BootstrapPeers] *)

Section bootstrap_facts.
Context (IdSize : nat) (Hex : ID → string) (PublicKeyHex : KeyPair → string).

Local Abbreviation expand := (Network.expand IdSize Hex).
Local Abbreviation expand_all := (Network.expand_all IdSize Hex).
Local Abbreviation rounds_from := (Network.rounds_from IdSize Hex).
Local Abbreviation BootstrapPeers := (Network.BootstrapPeers IdSize Hex PublicKeyHex).
Local Abbreviation key_entry := (Network.key_entry IdSize).
Local Abbreviation collected := (Network.collected IdSize Hex).

Lemma expand_collected seeded pool found f peer :
  collected seeded pool found f →
  ∃ found', collected seeded (pool ++ [peer]) found' (expand f peer).
Proof.
  intros [Ha Hk Hp Hn Hv Hs Hf]. unfold Network.expand.
  destruct (decide (Hex peer ∈ visited f)) as [Hseen|Hnew].
  - exists found. split; try done. intros p Hin. apply elem_of_app. left. by apply Hp.
  - exists (found ++ [peer]). split; simpl.
    + by rewrite Ha, fmap_app.
    + by rewrite Hk, fmap_app.
    + intros p [Hin|Hin]%elem_of_app; apply elem_of_app; [left; by apply Hp|by right].
    + rewrite fmap_app. apply NoDup_app. split_and!; [done| |by apply NoDup_singleton].
      intros h (p & -> & Hin)%list_elem_of_fmap Hh. simpl in Hh.
      apply list_elem_of_singleton in Hh. apply Hnew. rewrite <- Hh. by apply Hv.
    + intros p [Hin|Hin%list_elem_of_singleton]%elem_of_app; [|subst p]; set_solver.
    + set_solver.
    + intros p [Hin|Hin%list_elem_of_singleton]%elem_of_app; [by apply Hf|subst p].
      intros Hseed. apply Hnew. by apply Hs.
Qed.

Lemma response_collected seeded pool found f response :
  collected seeded pool found f →
  ∃ found', collected seeded (pool ++ response) found' (foldl expand f response).
Proof.
  revert pool found f. induction response as [|peer response IH]; intros pool found f Hc; simpl.
  - exists found. by rewrite app_nil_r.
  - destruct (expand_collected _ _ _ _ peer Hc) as [found1 Hc1].
    destruct (IH _ _ _ Hc1) as [found2 Hc2].
    exists found2. by rewrite <- app_assoc in Hc2.
Qed.

Lemma expand_all_collected seeded pool found f responses :
  collected seeded pool found f →
  ∃ found', collected seeded (pool ++ mjoin responses) found' (expand_all responses f).
Proof.
  unfold Network.expand_all.
  revert pool found f. induction responses as [|r responses IH]; intros pool found f Hc; simpl.
  - exists found. by rewrite app_nil_r.
  - destruct (response_collected _ _ _ _ r Hc) as [found1 Hc1].
    destruct (IH _ _ _ Hc1) as [found2 Hc2].
    exists found2. by rewrite app_assoc.
Qed.

Lemma rounds_from_collected seeded pool found f rounds addrs keys :
  collected seeded pool found f →
  rounds_from rounds f = Ret (addrs, keys) →
  ∃ found', addrs = Address <$> found' ∧ keys = key_entry <$> found' ∧
            found' ⊆ pool ++ mjoin (mjoin rounds) ∧
            NoDup (Hex <$> found') ∧ ∀ p, p ∈ found' → Hex p ∉ seeded.
Proof.
  revert pool found f. induction rounds as [|responses rounds IH]; intros pool found f Hc.
  - simpl. destruct (queue f); [|done]. intros [= <- <-].
    exists found. destruct Hc. split_and!; try done. set_solver.
  - cbn [Network.rounds_from]. destruct (queue f) as [|q0 q].
    + intros [= <- <-]. exists found. destruct Hc. split_and!; try done. set_solver.
    + destruct (_ <=? _)%nat; [|done]. intros Hrun.
      assert (collected seeded pool found
                (mkFrontier [] (visited f) (addresses f) (publicKeys f))) as Hc0
        by (by destruct Hc).
      destruct (expand_all_collected _ _ _ _ responses Hc0) as [found1 Hc1].
      destruct (IH _ _ _ Hc1 Hrun) as (found2 & Ha & Hk & Hsub & Hn & Hf).
      exists found2. split_and!; try done.
      assert (mjoin (mjoin (responses :: rounds))
              = mjoin responses ++ mjoin (mjoin rounds)) as ->.
      { change (mjoin (responses :: rounds)) with (responses ++ mjoin rounds).
        apply join_app. }
      by rewrite app_assoc.
Qed.



End bootstrap_facts.

Example BootstrapPeers_rounds0 :
  BootstrapPeers 4 Hex0 PublicKeyHex0 me far 8 rounds0 =
  Ret (["tcp://a:3000"; "tcp://b:3000"; "tcp://c:3000"],
       [[x00; x01; x02; x01]; [x00; x01; x02; x02]; [x00; x01; x02; x03]]).
Proof. by vm_compute. Qed.



(** ** More on [BootstrapPeers]: key entries, completeness and the empty result *)

Lemma take_pad_spec n (l : list byte) :
  vec_to_list (take_pad n l) = take n l ++ replicate (n - length l) x00.
Proof.
  revert l. induction n as [|n IH]; intros l; [by destruct l|].
  destruct l as [|b l]; simpl.
  - rewrite IH. simpl. by rewrite take_nil, Nat.sub_0_r.
  - by rewrite IH.
Qed.

Section bootstrap_more.
Context (IdSize : nat) (Hex : ID → string) (PublicKeyHex : KeyPair → string).

Local Abbreviation expand := (Network.expand IdSize Hex).
Local Abbreviation expand_all := (Network.expand_all IdSize Hex).
Local Abbreviation rounds_from := (Network.rounds_from IdSize Hex).
Local Abbreviation BootstrapPeers := (Network.BootstrapPeers IdSize Hex PublicKeyHex).
Local Abbreviation key_entry := (Network.key_entry IdSize).
Local Abbreviation collected := (Network.collected IdSize Hex).
Local Abbreviation tracked := (Network.tracked IdSize Hex).

(** X20.  Every entry of [publicKeys] has exactly [IdSize] bytes, whatever
    the length of the peer's public key: [copy] into the buffer made with
    [make([]byte, dht.IdSize)] keeps the first [IdSize] bytes of a longer key
    and leaves the zeros of the buffer after a shorter one. *)
Theorem BootstrapPeers_keys_have_IdSize network target count rounds addrs keys :
  BootstrapPeers network target count rounds = Ret (addrs, keys) →
  Forall (λ k, length k = IdSize) keys ∧
  ∃ found : list ID,
    found ⊆ mjoin (mjoin rounds) ∧
    addrs = Address <$> found ∧
    keys = (λ p, take IdSize (PublicKey p) ++
                 replicate (IdSize - length (PublicKey p)) x00) <$> found.
Proof.
  unfold Network.BootstrapPeers. intros Hrun.
  set (seeded := ({[Hex target]} ∪ {[PublicKeyHex (Keys network)]} : gset string)) in *.
  assert (collected seeded [] [] (mkFrontier [target] seeded [] [])) as Hinit.
  { split; simpl; try done; [constructor|..]; intros p Hp; by apply elem_of_nil in Hp. }
  destruct (rounds_from_collected _ _ _ _ _ _ _ _ _ Hinit Hrun)
    as (found & Ha & Hk & Hsub & _ & _).
  simpl in Hsub. split.
  - rewrite Hk. apply Forall_fmap, Forall_forall. intros p _. simpl.
    unfold Network.key_entry. apply length_vec_to_list.
  - exists found. split_and!; [done..|]. rewrite Hk. apply list_fmap_ext.
    intros i p _. apply take_pad_spec.
Qed.

Lemma expand_tracked seeded found f peer :
  tracked seeded found f →
  ∃ found', tracked seeded found' (expand f peer) ∧
            Hex peer ∈ visited (expand f peer) ∧
            visited f ⊆ visited (expand f peer).
Proof.
  intros [Ha Hk Hv]. unfold Network.expand.
  destruct (decide (Hex peer ∈ visited f)) as [Hseen|Hnew].
  - by exists found.
  - exists (found ++ [peer]). split_and!.
    + split; simpl.
      * by rewrite Ha, fmap_app.
      * by rewrite Hk, fmap_app.
      * rewrite Hv, fmap_app, list_to_set_app_L. simpl.
        rewrite (right_id_L ∅ (∪)), (comm_L (∪) {[Hex peer]}). by rewrite (assoc_L (∪)).
    + simpl. apply elem_of_union_l. by apply elem_of_singleton.
    + simpl. apply union_subseteq_r.
Qed.

Lemma response_tracked seeded found f response :
  tracked seeded found f →
  ∃ found', tracked seeded found' (foldl expand f response) ∧
            (∀ p, p ∈ response → Hex p ∈ visited (foldl expand f response)) ∧
            visited f ⊆ visited (foldl expand f response).
Proof.
  revert found f. induction response as [|peer response IH]; intros found f Ht; simpl.
  - exists found. split_and!; [done| |done]. intros p Hp. by apply elem_of_nil in Hp.
  - destruct (expand_tracked _ _ _ peer Ht) as (found1 & Ht1 & Hpeer & Hsub1).
    destruct (IH _ _ Ht1) as (found2 & Ht2 & Hall & Hsub2).
    exists found2. split_and!; [done| |by etrans].
    intros p [->|Hp]%elem_of_cons; [by apply Hsub2|by apply Hall].
Qed.

Lemma expand_all_tracked seeded found f responses :
  tracked seeded found f →
  ∃ found', tracked seeded found' (expand_all responses f) ∧
            (∀ p, p ∈ mjoin responses → Hex p ∈ visited (expand_all responses f)) ∧
            visited f ⊆ visited (expand_all responses f).
Proof.
  unfold Network.expand_all.
  revert found f. induction responses as [|r responses IH]; intros found f Ht; simpl.
  - exists found. split_and!; [done| |done]. intros p Hp. by apply elem_of_nil in Hp.
  - destruct (response_tracked _ _ _ r Ht) as (found1 & Ht1 & Hall1 & Hsub1).
    destruct (IH _ _ Ht1) as (found2 & Ht2 & Hall2 & Hsub2).
    exists found2. split_and!; [done| |by etrans].
    intros p [Hp|Hp]%elem_of_app; [|by apply Hall2]. apply Hsub2. by apply Hall1.
Qed.

Lemma rounds_from_tracked seeded found f rounds r :
  tracked seeded found f →
  rounds_from rounds f = Ret r →
  ∃ found' read rest,
    rounds = read ++ rest ∧
    r = (Address <$> found', key_entry <$> found') ∧
    (∀ rest', rounds_from (read ++ rest') f = Ret r) ∧
    (∀ h, h ∈ visited f → h ∈ seeded ∨ h ∈ Hex <$> found') ∧
    (∀ p, p ∈ mjoin (mjoin read) → Hex p ∈ seeded ∨ Hex p ∈ Hex <$> found').
Proof.
  revert found f.
  assert (∀ found f rounds, tracked seeded found f → queue f = [] →
            rounds_from rounds f = Ret r →
            ∃ found' read rest,
              rounds = read ++ rest ∧
              r = (Address <$> found', key_entry <$> found') ∧
              (∀ rest', rounds_from (read ++ rest') f = Ret r) ∧
              (∀ h, h ∈ visited f → h ∈ seeded ∨ h ∈ Hex <$> found') ∧
              (∀ p, p ∈ mjoin (mjoin read) → Hex p ∈ seeded ∨ Hex p ∈ Hex <$> found'))
    as Hdone.
  { intros found f rounds0 [Ha Hk Hv] Hq Hrun.
    assert (rounds_from rounds0 f = Ret (addresses f, publicKeys f)) as Hret
      by (destruct rounds0; simpl; by rewrite Hq).
    rewrite Hret in Hrun. injection Hrun as <-.
    exists found, [], rounds0. split_and!; [done|by rewrite Ha, Hk| | |].
    - intros rest'. destruct rest'; simpl; by rewrite Hq.
    - intros h Hh. rewrite Hv in Hh.
      apply elem_of_union in Hh as [?|Hh]; [by left|right]. by apply elem_of_list_to_set in Hh.
    - intros p Hp. by apply elem_of_nil in Hp. }
  induction rounds as [|responses rounds IH]; intros found f Ht Hrun.
  - destruct (queue f) eqn:Hq; [by eapply Hdone|]. simpl in Hrun. by rewrite Hq in Hrun.
  - destruct (queue f) as [|q0 q] eqn:Hq; [by eapply Hdone|].
    cbn [Network.rounds_from] in Hrun. rewrite Hq in Hrun.
    destruct (_ <=? _)%nat eqn:Hlen; [|done].
    assert (tracked seeded found
              (mkFrontier [] (visited f) (addresses f) (publicKeys f))) as Ht0
      by (by destruct Ht).
    destruct (expand_all_tracked _ _ _ responses Ht0) as (found1 & Ht1 & Hall & Hsub).
    destruct (IH _ _ Ht1 Hrun) as (found2 & read & rest & -> & -> & Hread & Hvis & Hpeers).
    exists found2, (responses :: read), rest. split_and!; [done..| | |].
    + intros rest'. cbn [app Network.rounds_from]. rewrite Hq, Hlen. apply Hread.
    + intros h Hh. apply Hvis, Hsub. done.
    + intros p. change (mjoin (responses :: read)) with (responses ++ mjoin read).
      rewrite join_app. intros [Hp|Hp]%elem_of_app; [|by apply Hpeers].
      by apply Hvis, Hall.
Qed.

(** X21.  [BootstrapPeers] reports every peer it hears of.  The result is
    decided by the rounds of responses that were read before the queue ran
    empty, and every peer named in one of these responses is among the
    peers reported, unless it renders (by [Hex]) as the target or as the
    local node.  Together with the fact that each reported peer is
    reported once, the result is the set of peers that the breadth-first
    search reached. *)
Theorem BootstrapPeers_reports_every_peer_read network target count rounds addrs keys :
  BootstrapPeers network target count rounds = Ret (addrs, keys) →
  ∃ (found : list ID) (read rest : list (list (list ID))),
    rounds = read ++ rest ∧
    addrs = Address <$> found ∧ keys = key_entry <$> found ∧
    (∀ rest', BootstrapPeers network target count (read ++ rest') = Ret (addrs, keys)) ∧
    (∀ p, p ∈ mjoin (mjoin read) →
       Hex p ∈ Hex <$> found ∨ Hex p = Hex target ∨
       Hex p = PublicKeyHex (Keys network)).
Proof.
  unfold Network.BootstrapPeers. intros Hrun.
  set (seeded := ({[Hex target]} ∪ {[PublicKeyHex (Keys network)]} : gset string)) in *.
  assert (tracked seeded [] (mkFrontier [target] seeded [] [])) as Hinit.
  { split; simpl; [done..|]. by rewrite (right_id_L ∅ (∪)). }
  destruct (rounds_from_tracked _ _ _ _ _ Hinit Hrun)
    as (found & read & rest & -> & [= -> ->] & Hread & _ & Hpeers).
  exists found, read, rest. split_and!; [done..|].
  intros p Hp. destruct (Hpeers p Hp) as [Hs|?]; [|by left]. right.
  unfold seeded in Hs.
  apply elem_of_union in Hs as [Hs|Hs]; apply elem_of_singleton in Hs; [by left|by right].
Qed.

(** X22.  When the target gives no response, or names only peers that render
    as the target itself or as the local node, [BootstrapPeers] returns two
    empty slices after the first round, whatever responses would follow. *)
Theorem BootstrapPeers_without_new_peers network target count responses rest :
  (length responses ≤ 1)%nat →
  (∀ p, p ∈ mjoin responses →
     Hex p = Hex target ∨ Hex p = PublicKeyHex (Keys network)) →
  BootstrapPeers network target count (responses :: rest) = Ret ([], []).
Proof.
  intros Hlen Hknown. unfold Network.BootstrapPeers. cbn [Network.rounds_from queue].
  destruct (Nat.leb_spec (length responses) (length [target])) as [_|Hgt];
    [|simpl in Hgt; lia].
  cbn [visited addresses publicKeys].
  set (f0 := mkFrontier [] ({[Hex target]} ∪ {[PublicKeyHex (Keys network)]}) [] []).
  assert (expand_all responses f0 = f0) as ->.
  { unfold Network.expand_all.
    assert (∀ response, (∀ p, p ∈ response → Hex p ∈ visited f0) →
              foldl expand f0 response = f0) as Hresp.
    { induction response as [|p response IH]; intros Hall; simpl; [done|].
      unfold Network.expand at 2. rewrite decide_True by (apply Hall; by left).
      apply IH. intros q Hq. apply Hall. by right. }
    clear Hlen. induction responses as [|r responses IH]; simpl; [done|].
    rewrite Hresp.
    - apply IH. intros p Hp. apply Hknown. simpl. apply elem_of_app. by right.
    - intros p Hp. unfold f0. simpl.
      destruct (Hknown p) as [->| ->]; [simpl; apply elem_of_app; by left|..].
      + apply elem_of_union_l. by apply elem_of_singleton.
      + apply elem_of_union_r. by apply elem_of_singleton. }
  by destruct rest.
Qed.

End bootstrap_more.

Lemma BootstrapPeers_keys_have_IdSize_witness :
  BootstrapPeers 4 Hex0 PublicKeyHex0 me far 8 rounds0 =
    Ret (["tcp://a:3000"; "tcp://b:3000"; "tcp://c:3000"],
         [[x00; x01; x02; x01]; [x00; x01; x02; x02]; [x00; x01; x02; x03]]) ∧
  Forall (λ k, length k = 4%nat)
         [[x00; x01; x02; x01]; [x00; x01; x02; x02]; [x00; x01; x02; x03]].
Proof.
  split; [exact BootstrapPeers_rounds0|].
  exact (proj1 (BootstrapPeers_keys_have_IdSize
                  4 Hex0 PublicKeyHex0 me far 8 rounds0 _ _ BootstrapPeers_rounds0)).
Defined.

Lemma BootstrapPeers_reports_every_peer_read_witness :
  BootstrapPeers 4 Hex0 PublicKeyHex0 me far 8 rounds0 =
    Ret (["tcp://a:3000"; "tcp://b:3000"; "tcp://c:3000"],
         [[x00; x01; x02; x01]; [x00; x01; x02; x02]; [x00; x01; x02; x03]]) ∧
  ∃ (found : list ID) (read rest : list (list (list ID))),
    rounds0 = read ++ rest ∧
    ["tcp://a:3000"; "tcp://b:3000"; "tcp://c:3000"]%string = Address <$> found ∧
    [[x00; x01; x02; x01]; [x00; x01; x02; x02]; [x00; x01; x02; x03]]
      = key_entry 4 <$> found ∧
    (∀ rest', BootstrapPeers 4 Hex0 PublicKeyHex0 me far 8 (read ++ rest') =
       Ret (["tcp://a:3000"; "tcp://b:3000"; "tcp://c:3000"],
            [[x00; x01; x02; x01]; [x00; x01; x02; x02]; [x00; x01; x02; x03]])) ∧
    (∀ p, p ∈ mjoin (mjoin read) →
       Hex0 p ∈ Hex0 <$> found ∨ Hex0 p = Hex0 far ∨ Hex0 p = PublicKeyHex0 (Keys me)).
Proof.
  split; [exact BootstrapPeers_rounds0|].
  exact (BootstrapPeers_reports_every_peer_read
           4 Hex0 PublicKeyHex0 me far 8 rounds0 _ _ BootstrapPeers_rounds0).
Defined.

Example known_peers_only :
  ∀ p, p ∈ mjoin [[node xaa "tcp://me:3000"; far]] →
       Hex0 p = Hex0 far ∨ Hex0 p = PublicKeyHex0 (Keys me).
Proof.
  intros p Hp. simpl in Hp.
  apply elem_of_cons in Hp as [->|Hp]; [by right|].
  apply elem_of_cons in Hp as [->|Hp]; [by left|]. by apply elem_of_nil in Hp.
Qed.

Lemma BootstrapPeers_without_new_peers_witness :
  (length [[node xaa "tcp://me:3000"; far]] ≤ 1)%nat ∧
  BootstrapPeers 4 Hex0 PublicKeyHex0 me far 8
    ([[node xaa "tcp://me:3000"; far]] :: rounds0) = Ret ([], []).
Proof.
  assert (length [[node xaa "tcp://me:3000"; far]] ≤ 1)%nat as Hlen by (simpl; lia).
  split; [exact Hlen|].
  exact (BootstrapPeers_without_new_peers 4 Hex0 PublicKeyHex0 me far 8
           [[node xaa "tcp://me:3000"; far]] rounds0 Hlen known_peers_only).
Defined.

End NetworkSpec.
